(** * Zip-code record store: a shallow embedding of [buffer.cpp] and of the
    lookup driver of [main.cpp]

    The development follows the C++ sources function by function.

    - A [std::string], the contents of a file and the bytes held by a
      [std::vector<char>] are lists of 8-bit characters ([cstring]).
    - An input stream ([std::ifstream], [std::stringstream]) is the record
      [istream]: the characters still to be read, the read position and the
      two state bits the code depends on ([eofbit], [failbit]).
    - [uint16_t], [uint32_t] and [std::streamoff] are integers of [Z]; the
      conversions that truncate ([uint32_t n = v.size()]) are written out with
      [wrap32], and the bytes of an integer written through
      [reinterpret_cast<const char*>] are laid out least significant byte
      first, as on the x86 targets the project is built for.
    - The member [records] of [Buffer] and the files on disk form the [world]
      every member function receives and returns; C++ exceptions and reads of
      uninitialised variables are explicit [outcome]s.
    - [double], [std::stod] and the stream insertion of a [double] come from
      the C++ standard library, not from this repository; they are the
      interface [StdDouble], with [binary64] as reference instance.

    Left out of the model: console output ([std::cout], [std::cerr]),
    allocation failure, and locales other than the classic one.

    The file is laid out as follows: the embedding of the sources, the
    layouts and readings the specification speaks of, example data; then the
    lemmas, the properties of the specification (C1 to C10) and their closed
    instances. *)

From Stdlib Require Import ZArith List Ascii String Lia.
From Stdlib Require Import Floats.SpecFloat.
From stdpp Require Import base list strings gmap.

#[local] Open Scope Z_scope.
#[local] Open Scope list_scope.

(** ** Characters and strings *)

Abbreviation cstring := (list ascii).

(** A string literal of the source. *)
Definition lit (s : string) : cstring := list_ascii_of_string s.

Definition NUL : ascii := "000"%char.
Definition comma : ascii := ","%char.
Definition newline : ascii := "010"%char.
Definition space : ascii := " "%char.

(** [std::isspace] in the classic locale: space and the controls 9 to 13. *)
Definition isspace (c : ascii) : bool :=
  let n := nat_of_ascii c in
  ((n =? 32) || ((9 <=? n) && (n <=? 13)))%nat.

Definition isdigit (c : ascii) : bool :=
  let n := nat_of_ascii c in ((48 <=? n) && (n <=? 57))%nat.

Definition digit_value (c : ascii) : Z := Z.of_nat (nat_of_ascii c) - 48.

Definition digit_char (d : Z) : ascii := ascii_of_nat (Z.to_nat (48 + d)).

(** ** Fixed-width integers *)

Definition wrap32 (n : Z) : Z := n mod 2 ^ 32.

Definition byte_of (n : Z) : ascii := ascii_of_nat (Z.to_nat (n mod 256)).
Definition byte_value (c : ascii) : Z := Z.of_nat (nat_of_ascii c).

(** The object representation of a [uint16_t] and of a [uint32_t]. *)
Definition u16_bytes (n : Z) : cstring :=
  [byte_of n; byte_of (n / 256)].
Definition u32_bytes (n : Z) : cstring :=
  [byte_of n; byte_of (n / 256); byte_of (n / 65536); byte_of (n / 16777216)].

Definition u32_of_bytes (l : cstring) : option Z :=
  match l with
  | [b0; b1; b2; b3] =>
      Some (byte_value b0 + 256 * byte_value b1
            + 65536 * byte_value b2 + 16777216 * byte_value b3)
  | _ => None
  end.

(** ** Input streams *)

Record istream := Istream {
  sbuf : cstring;      (* the whole character sequence behind the stream *)
  rest : cstring;      (* what has not been extracted yet *)
  gpos : nat;          (* number of characters extracted so far *)
  eofbit : bool;
  failbit : bool
}.

(** A stream just opened on [content] ([std::ifstream f(name)] after a
    successful open, [std::stringstream ss(text)]). *)
Definition stream_of (content : cstring) : istream :=
  Istream content content 0 false false.

Definition good (s : istream) : bool := negb (eofbit s) && negb (failbit s).
Definition fail (s : istream) : bool := failbit s.

Definition set_fail (s : istream) : istream :=
  Istream (sbuf s) (rest s) (gpos s) (eofbit s) true.

(** The characters before the first [delim] and, when there is one, what
    follows it. *)
Fixpoint scan_delim (delim : ascii) (l : cstring) : cstring * option cstring :=
  match l with
  | [] => ([], None)
  | c :: l' =>
      if Ascii.eqb c delim then ([], Some l')
      else let '(tok, r) := scan_delim delim l' in (c :: tok, r)
  end.

(** [std::getline(s, str, delim)].  When the stream is not good on entry the
    call sets [failbit] and leaves [str] as it was; otherwise [str] is erased
    and receives the characters up to the delimiter, which is extracted and
    dropped.  Reaching the end sets [eofbit], and [failbit] too when nothing
    at all was extracted. *)
Definition getline (s : istream) (str : cstring) (delim : ascii)
  : istream * cstring :=
  if good s then
    match scan_delim delim (rest s) with
    | (tok, Some r) =>
        (Istream (sbuf s) r (gpos s + S (length tok)) false false, tok)
    | (tok, None) =>
        (Istream (sbuf s) [] (gpos s + length tok) true
           (match tok with [] => true | _ => false end), tok)
    end
  else (set_fail s, str).

(** [s.read(dst, n)]: the characters stored into [dst], in order.  A short
    read stores what is left and sets [eofbit] and [failbit]. *)
Definition read (s : istream) (n : nat) : istream * cstring :=
  if good s then
    if (n <=? length (rest s))%nat then
      (Istream (sbuf s) (drop n (rest s)) (gpos s + n) false false,
       take n (rest s))
    else
      (Istream (sbuf s) [] (gpos s + length (rest s)) true true, rest s)
  else (set_fail s, []).

(** [uint32_t x; s.read(reinterpret_cast<char*>(&x), sizeof(x))]: [None]
    when fewer than four bytes were stored, so that [x] stays (partly)
    uninitialised. *)
Definition read_u32 (s : istream) : istream * option Z :=
  let '(s', bytes) := read s 4 in (s', u32_of_bytes bytes).

(** [std::vector<char> buffer(n); s.read(buffer.data(), n);
    std::string recordString(buffer.begin(), buffer.end())]: the vector is
    value-initialised, so the characters a short read does not store stay
    zero. *)
Definition read_vector (s : istream) (n : nat) : istream * cstring :=
  let '(s', bytes) := read s n in
  (s', bytes ++ replicate (n - length bytes) NUL).

(** [s.tellg()]: the position, or -1 when the stream is not good. *)
Definition tellg (s : istream) : istream * Z :=
  if good s then (s, Z.of_nat (gpos s)) else (set_fail s, -1).

(** [s.seekg(pos)] on an input file: a negative position fails, a position
    past the end is accepted and the next read finds nothing. *)
Definition seekg (s : istream) (pos : Z) : istream :=
  if failbit s then s
  else if pos <? 0 then Istream (sbuf s) (rest s) (gpos s) false true
  else Istream (sbuf s) (drop (Z.to_nat pos) (sbuf s)) (Z.to_nat pos) false false.

(** ** Formatted input and output *)

(** The longest prefix of [l] whose characters satisfy [p], and the rest. *)
Fixpoint span (p : ascii -> bool) (l : cstring) : cstring * cstring :=
  match l with
  | [] => ([], [])
  | c :: l' =>
      if p c then let '(tok, r) := span p l' in (c :: tok, r) else ([], l)
  end.

(** The sentry of a formatted extraction: leading white space is skipped;
    running into the end while skipping sets [eofbit] and [failbit]. *)
Definition skipws (s : istream) : istream :=
  if good s then
    let '(ws, r) := span isspace (rest s) in
    match r with
    | [] => Istream (sbuf s) [] (gpos s + length ws) true true
    | _ :: _ => Istream (sbuf s) r (gpos s + length ws) false false
    end
  else set_fail s.

Definition at_end (r : cstring) : bool :=
  match r with [] => true | _ :: _ => false end.

(** [s >> str] for a [std::string]: the characters up to the next white
    space; [str] is untouched when the sentry fails. *)
Definition extract_string (s : istream) (str : cstring) : istream * cstring :=
  let s1 := skipws s in
  if good s1 then
    let '(tok, r) := span (fun c => negb (isspace c)) (rest s1) in
    (Istream (sbuf s1) r (gpos s1 + length tok) (at_end r) (at_end tok), tok)
  else (s1, str).

Definition digits_value (ds : cstring) : Z :=
  fold_left (fun acc c => 10 * acc + digit_value c) ds 0.

Definition streamoff_min : Z := - 2 ^ 63.
Definition streamoff_max : Z := 2 ^ 63 - 1.

(** [s >> x] for a [std::streamoff] (a 64-bit signed integer, base ten): an
    optional sign and the digits that follow.  No digit, or a value that does
    not fit, sets [failbit]; [x] is untouched when the sentry fails. *)
Definition extract_streamoff (s : istream) (x : Z) : istream * Z :=
  let s1 := skipws s in
  if good s1 then
    let '(neg, r0) :=
      match rest s1 with
      | c :: r' =>
          if Ascii.eqb c "-" then (true, r')
          else if Ascii.eqb c "+" then (false, r')
          else (false, rest s1)
      | [] => (false, [])
      end in
    let '(ds, r) := span isdigit r0 in
    let pos' := (gpos s1 + (length (rest s1) - length r))%nat in
    let v := if neg : bool then - digits_value ds else digits_value ds in
    match ds with
    | [] => (Istream (sbuf s1) r pos' (at_end r) true, 0)
    | _ :: _ =>
        if v <? streamoff_min then
          (Istream (sbuf s1) r pos' (at_end r) true, streamoff_min)
        else if streamoff_max <? v then
          (Istream (sbuf s1) r pos' (at_end r) true, streamoff_max)
        else (Istream (sbuf s1) r pos' (at_end r) false, v)
    end
  else (s1, x).

(** The decimal digits of a non-negative integer, most significant first;
    [fuel] bounds the number of digits. *)
Fixpoint digits_of (fuel : nat) (n : Z) (acc : cstring) : cstring :=
  match fuel with
  | O => acc
  | S fuel' =>
      if n <? 10 then digit_char n :: acc
      else digits_of fuel' (n / 10) (digit_char (n mod 10) :: acc)
  end.

(** [os << n] for an integer ([std::streampos] is inserted through its
    conversion to [std::streamoff]). *)
Definition insert_integer (n : Z) : cstring :=
  if n <? 0 then "-"%char :: digits_of (S (Z.to_nat (Z.log2 (- n)))) (- n) []
  else digits_of (S (Z.to_nat (Z.log2 n))) n [].

(** ** The floating-point interface of the standard library *)

Inductive stod_result (D : Type) : Type :=
  | stod_value (d : D)
  | stod_invalid_argument     (* no conversion could be performed *)
  | stod_out_of_range.        (* the converted value does not fit a double *)
Arguments stod_value {D} d.
Arguments stod_invalid_argument {D}.
Arguments stod_out_of_range {D}.

(** What the code uses of [double]: the literal [0.0], [std::stod] and the
    insertion [os << d] into a stream with the default flags. *)
Class StdDouble := {
  double : Type;
  double_zero : double;
  stod : cstring -> stod_result double;
  insert_double : double -> cstring
}.

(** The two facts about the library the proofs rely on: [std::stod]
    performs no conversion on the empty string, and a [double] rendered in
    the classic locale holds no comma. *)
Class StdDoubleLaws (D : StdDouble) : Prop := {
  stod_empty : stod [] = stod_invalid_argument;
  insert_double_no_comma : forall d, comma ∉ insert_double d
}.

(** ** A reference instance: IEEE 754 binary64

    Modelled from the C++ standard library, which is not part of the
    repository: [strtod] as glibc implements it for decimal and hexadecimal
    literals, [inf] and [nan] (exact rounding to nearest, ties to even, and
    [ERANGE] on overflow and on inexact tiny results), and the insertion of a
    [double] with the default stream flags, which is [printf]'s [%g] with six
    significant digits.  A [double] is Stdlib's [spec_float], which has one
    NaN: the sign of a NaN is not kept, and every NaN is rendered [nan].
    The closed examples below are evaluated on this instance, on inputs
    without NaN; the theorems hold for every [StdDouble]. *)
Module Binary64.

Definition prec : Z := 53.
Definition emax : Z := 1024.

Definition lower (c : ascii) : ascii :=
  let n := nat_of_ascii c in
  if ((65 <=? n) && (n <=? 90))%nat then ascii_of_nat (n + 32) else c.

(** Strips the prefix [p], compared without regard to case. *)
Fixpoint strip_prefix (p s : cstring) : option cstring :=
  match p, s with
  | [], _ => Some s
  | a :: p', c :: s' =>
      if Ascii.eqb a (lower c) then strip_prefix p' s' else None
  | _ :: _, [] => None
  end.

Definition strip_sign (s : cstring) : bool * cstring :=
  match s with
  | c :: r =>
      if Ascii.eqb c "-" then (true, r)
      else if Ascii.eqb c "+" then (false, r)
      else (false, s)
  | [] => (false, [])
  end.

Definition isxdigit (c : ascii) : bool :=
  let n := nat_of_ascii (lower c) in
  isdigit c || ((97 <=? n) && (n <=? 102))%nat.

Definition xdigit_value (c : ascii) : Z :=
  if isdigit c then digit_value c
  else Z.of_nat (nat_of_ascii (lower c)) - 87.

Definition xdigits_value (ds : cstring) : Z :=
  fold_left (fun acc c => 16 * acc + xdigit_value c) ds 0.

(** The optional exponent part: [mark], an optional sign, digits. *)
Definition exponent_part (mark : ascii) (s : cstring) : Z :=
  match s with
  | c :: r =>
      if Ascii.eqb (lower c) mark then
        let '(neg, r') := strip_sign r in
        let '(ds, _) := span isdigit r' in
        match ds with
        | [] => 0
        | _ :: _ => if neg : bool then - digits_value ds else digits_value ds
        end
      else 0
  | [] => 0
  end.

(** Digits, an optional point, digits. *)
Definition mantissa_part (isd : ascii -> bool) (s : cstring)
  : cstring * cstring * cstring :=
  let '(ip, s1) := span isd s in
  match s1 with
  | c :: r =>
      if Ascii.eqb c "." then let '(fp, s2) := span isd r in (ip, fp, s2)
      else (ip, [], s1)
  | [] => (ip, [], [])
  end.

(** [num / den] rounded to the nearest double, ties to even. *)
Definition round_ratio (neg : bool) (num den : Z) : spec_float :=
  let '(q, e, l) := SFdiv_core_binary prec emax num 0 den 0 in
  binary_round_aux prec emax neg q e l.

(** Whether the finite double [r] is [num / den * 2 ^ e2] exactly. *)
Definition exactly (num den e2 : Z) (r : spec_float) : bool :=
  match r with
  | S754_finite _ m e =>
      let d := e - e2 in
      if 0 <=? d then num =? Zpos m * 2 ^ d * den
      else num * 2 ^ (- d) =? Zpos m * den
  | _ => false
  end.

(** Whether [num / den * 2 ^ e2], rounded to [prec] digits with an
    unbounded exponent, is below the least normal double [2 ^ (-1022)]: it
    is when the value is below [2 ^ (-1022) - 2 ^ (-1076)], half-way to the
    number of [prec] digits before it. *)
Definition below_normal (num den e2 : Z) : bool :=
  let d := e2 + 1076 in
  if 0 <=? d then num * 2 ^ d <? (2 ^ 54 - 1) * den
  else num <? (2 ^ 54 - 1) * den * 2 ^ (- d).

(** Tininess is judged after rounding, as on x86: a value that rounds to
    the least normal double can be tiny. *)
Definition tiny (num den e2 : Z) (r : spec_float) : bool :=
  match r with
  | S754_zero _ => true
  | S754_finite _ m _ =>
      (Zpos (digits2_pos m) <? prec) || below_normal num den e2
  | _ => false
  end.

(** The value [num / den * 2 ^ e2] as [strtod] returns it: [ERANGE] shows as
    [stod_out_of_range]. *)
Definition finish (neg : bool) (num den e2 : Z) (r : spec_float)
  : stod_result spec_float :=
  match r with
  | S754_infinity _ => stod_out_of_range
  | _ =>
      if tiny num den e2 r && negb (exactly num den e2 r)
      then stod_out_of_range
      else stod_value r
  end.

Definition decimal_value (neg : bool) (M E : Z) : stod_result spec_float :=
  let d := Zdigits2 M in
  if M =? 0 then stod_value (S754_zero neg)
  else if (0 <=? E) && (1100 <? d + 3 * E) then stod_out_of_range
  else if (E <? 0) && (d + 3 * E <? -1100) then stod_out_of_range
  else
    let '(num, den) := if 0 <=? E then (M * 10 ^ E, 1) else (M, 10 ^ (- E)) in
    finish neg num den 0 (round_ratio neg num den).

Definition hexadecimal_value (neg : bool) (M E2 : Z) : stod_result spec_float :=
  let d := Zdigits2 M in
  if M =? 0 then stod_value (S754_zero neg)
  else if 1100 <? d + E2 then stod_out_of_range
  else if d + E2 <? -1100 then stod_out_of_range
  else
    finish neg M 1 E2
      (binary_normalize prec emax (if neg then - M else M) E2 neg).

Definition strtod_decimal (neg : bool) (s : cstring)
  : option (stod_result spec_float) :=
  let '(ip, fp, s') := mantissa_part isdigit s in
  match ip ++ fp with
  | [] => None
  | _ :: _ =>
      Some (decimal_value neg (digits_value (ip ++ fp))
              (exponent_part "e" s' - Z.of_nat (length fp)))
  end.

Definition strtod_hexadecimal (neg : bool) (s : cstring)
  : option (stod_result spec_float) :=
  match strip_prefix (lit "0x") s with
  | Some s0 =>
      let '(ip, fp, s') := mantissa_part isxdigit s0 in
      match ip ++ fp with
      | [] => None
      | _ :: _ =>
          Some (hexadecimal_value neg (xdigits_value (ip ++ fp))
                  (exponent_part "p" s' - 4 * Z.of_nat (length fp)))
      end
  | None => None
  end.

(** [std::stod]: white space, a sign, then the longest literal; no literal
    is [std::invalid_argument], [ERANGE] is [std::out_of_range]. *)
Definition stod (s : cstring) : stod_result spec_float :=
  let '(_, s0) := span isspace s in
  let '(neg, s1) := strip_sign s0 in
  match strtod_hexadecimal neg s1 with
  | Some r => r
  | None =>
      match strtod_decimal neg s1 with
      | Some r => r
      | None =>
          match strip_prefix (lit "inf") s1, strip_prefix (lit "nan") s1 with
          | Some _, _ => stod_value (S754_infinity neg)
          | None, Some _ => stod_value S754_nan
          | None, None => stod_invalid_argument
          end
      end
  end.

(** Whether [10 ^ X <= num / den]. *)
Definition le_pow10 (num den X : Z) : bool :=
  if 0 <=? X then 10 ^ X * den <=? num else den <=? num * 10 ^ (- X).

Fixpoint adjust_down (fuel : nat) (num den X : Z) : Z :=
  match fuel with
  | O => X
  | S fuel' =>
      if le_pow10 num den X then X else adjust_down fuel' num den (X - 1)
  end.

Fixpoint adjust_up (fuel : nat) (num den X : Z) : Z :=
  match fuel with
  | O => X
  | S fuel' =>
      if le_pow10 num den (X + 1) then adjust_up fuel' num den (X + 1) else X
  end.

(** The decimal exponent of [num / den]: an estimate from the bit lengths,
    which is off by one at most, then corrected. *)
Definition decimal_exponent (num den : Z) : Z :=
  let X0 := (Z.log2 num - Z.log2 den) * 30103 / 100000 in
  adjust_up 4 num den (adjust_down 4 num den X0).

Definition round_half_even (n d : Z) : Z :=
  let q := n / d in
  match 2 * (n mod d) ?= d with
  | Lt => q
  | Gt => q + 1
  | Eq => if Z.even q then q else q + 1
  end.

(** The six significant digits of [num / den] and its decimal exponent. *)
Definition six_digits (num den : Z) : Z * Z :=
  let X := decimal_exponent num den in
  let N :=
    if 0 <=? X - 5 then round_half_even num (den * 10 ^ (X - 5))
    else round_half_even (num * 10 ^ (5 - X)) den in
  if N =? 10 ^ 6 then (10 ^ 5, X + 1) else (N, X).

Fixpoint strip_zeros (ds : cstring) : cstring :=
  match ds with
  | [] => []
  | c :: ds' =>
      match strip_zeros ds' with
      | [] => if Ascii.eqb c "0" then [] else [c]
      | r => c :: r
      end
  end.

Definition with_point (ip fp : cstring) : cstring :=
  match fp with
  | [] => ip
  | _ :: _ => ip ++ "."%char :: fp
  end.

(** [%g]: scientific notation when the exponent is below -4 or at least 6,
    trailing zeros of the fraction dropped. *)
Definition format_g (N X : Z) : cstring :=
  let ds := digits_of 6 N [] in
  if (X <? -4) || (6 <=? X) then
    with_point (take 1 ds) (strip_zeros (drop 1 ds))
      ++ "e"%char :: (if X <? 0 then "-"%char else "+"%char)
      :: (if Z.abs X <? 10 then ["0"%char] else [])
      ++ digits_of 3 (Z.abs X) []
  else if 0 <=? X then
    with_point (take (Z.to_nat (X + 1)) ds)
      (strip_zeros (drop (Z.to_nat (X + 1)) ds))
  else
    lit "0." ++ replicate (Z.to_nat (- X - 1)) "0"%char ++ strip_zeros ds.

Definition insert_double (d : spec_float) : cstring :=
  match d with
  | S754_zero s => if s then lit "-0" else lit "0"
  | S754_infinity s => if s then lit "-inf" else lit "inf"
  | S754_nan => lit "nan"
  | S754_finite s m e =>
      let '(num, den) :=
        if 0 <=? e then (Zpos m * 2 ^ e, 1) else (Zpos m, 2 ^ (- e)) in
      let '(N, X) := six_digits num den in
      (if s then ["-"%char] else []) ++ format_g N X
  end.

End Binary64.

(** The reference instance. *)
Definition binary64 : StdDouble := {|
  double := spec_float;
  double_zero := S754_zero false;
  stod := Binary64.stod;
  insert_double := Binary64.insert_double
|}.

(** ** Records, program state and outcomes *)

Section Buffer.
Context `{D : StdDouble}.

(** [struct ZipCodeRecord] of [buffer.h]. *)
Record ZipCodeRecord := mkZipCodeRecord {
  zipCode : cstring;
  placeName : cstring;
  state : cstring;
  county : cstring;
  latitude : double;
  longitude : double
}.

(** The member [records] of the one [Buffer] object, and the file system:
    [files] holds the contents of the files that can be opened for reading,
    [unwritable] the paths that cannot be opened for writing. *)
Record world := mkWorld {
  records : list ZipCodeRecord;
  files : gmap string cstring;
  unwritable : gset string
}.

Inductive exn := invalid_argument | out_of_range | runtime_error.

(** How a call ends: it returns, it leaves through an exception, it reads a
    variable no read has filled ([Unspecified]), or the model's loop bound is
    spent ([OutOfFuel], shown unreachable for every entry point). *)
Inductive outcome (A : Type) : Type :=
  | Returned (a : A) (w : world)
  | Thrown (e : exn) (w : world)
  | Unspecified
  | OutOfFuel.
Arguments Returned {A} a w.
Arguments Thrown {A} e w.
Arguments Unspecified {A}.
Arguments OutOfFuel {A}.

Definition push_back (record : ZipCodeRecord) (w : world) : world :=
  mkWorld (records w ++ [record]) (files w) (unwritable w).

Definition write_file (name : string) (content : cstring) (w : world) : world :=
  mkWorld (records w) (<[name := content]> (files w)) (unwritable w).

(** ** The record codec *)

(** The six text fields of a line: the six [std::getline(ss, field, ',')]
    calls shared by [loadFromCSV], [loadFromLengthIndicatedFile] and
    [readRecordAtOffset].  Every target starts out empty. *)
Record fields := mkFields {
  f_zipCode : cstring;
  f_placeName : cstring;
  f_state : cstring;
  f_county : cstring;
  f_lat : cstring;
  f_lng : cstring
}.

Definition getline_fields (recordString : cstring) : fields :=
  let ss := stream_of recordString in
  let '(ss, zipCode) := getline ss [] comma in
  let '(ss, placeName) := getline ss [] comma in
  let '(ss, state) := getline ss [] comma in
  let '(ss, county) := getline ss [] comma in
  let '(ss, lat) := getline ss [] comma in
  let '(ss, lng) := getline ss [] comma in
  mkFields zipCode placeName state county lat lng.

(** The body of a [try] block that converts the latitude, then the
    longitude: the first conversion that throws ends the block. *)
Definition convert_coordinates (conv : cstring -> stod_result double)
    (lat lng : cstring) : stod_result (double * double) :=
  match conv lat with
  | stod_value la =>
      match conv lng with
      | stod_value lo => stod_value (la, lo)
      | stod_invalid_argument => stod_invalid_argument
      | stod_out_of_range => stod_out_of_range
      end
  | stod_invalid_argument => stod_invalid_argument
  | stod_out_of_range => stod_out_of_range
  end.

(** [if (!text.empty()) x = std::stod(text); else x = 0.0;] *)
Definition stod_or_zero (text : cstring) : stod_result double :=
  match text with
  | [] => stod_value double_zero
  | _ :: _ => stod text
  end.

Definition record_of (f : fields) (lat_lng : double * double) : ZipCodeRecord :=
  mkZipCodeRecord (f_zipCode f) (f_placeName f) (f_state f) (f_county f)
    lat_lng.1 lat_lng.2.

(** The text written for a record by [convertToLengthIndicatedFile]:
    [oss << zipCode << "," << placeName << "," << state << "," << county
         << "," << latitude << "," << longitude]. *)
Definition encode (record : ZipCodeRecord) : cstring :=
  zipCode record ++ [comma] ++ placeName record ++ [comma] ++ state record
    ++ [comma] ++ county record ++ [comma] ++ insert_double (latitude record)
    ++ [comma] ++ insert_double (longitude record).

(** Splitting a line and converting its two coordinates with [conv]. *)
Definition decode_with (conv : cstring -> stod_result double)
    (recordString : cstring) : stod_result ZipCodeRecord :=
  let f := getline_fields recordString in
  match convert_coordinates conv (f_lat f) (f_lng f) with
  | stod_value c => stod_value (record_of f c)
  | stod_invalid_argument => stod_invalid_argument
  | stod_out_of_range => stod_out_of_range
  end.

(** The decoding of a frame's payload, as [loadFromLengthIndicatedFile] and
    [readRecordAtOffset] do it. *)
Definition decode : cstring -> stod_result ZipCodeRecord := decode_with stod.

(** The decoding of a line of the CSV file, as [loadFromCSV] does it. *)
Definition decode_csv : cstring -> stod_result ZipCodeRecord :=
  decode_with stod_or_zero.

(** ** [Buffer::loadFromCSV] *)

(** The [while (std::getline(file, line))] loop. *)
Fixpoint csv_lines (fuel : nat) (file : istream) (line : cstring) (w : world)
  : outcome bool :=
  match fuel with
  | O => OutOfFuel
  | S fuel' =>
      let '(file, line) := getline file line newline in
      if fail file then Returned true w
      else
        match decode_csv line with
        | stod_value record => csv_lines fuel' file line (push_back record w)
        | stod_invalid_argument => csv_lines fuel' file line w
        | stod_out_of_range => Thrown out_of_range w
        end
  end.

Definition loadFromCSV (filename : string) (w : world) : outcome bool :=
  match files w !! filename with
  | None => Returned false w
  | Some content =>
      let '(file, line) := getline (stream_of content) [] newline in
      csv_lines (S (length content)) file line w
  end.

(** ** [Buffer::convertToLengthIndicatedFile] *)

Definition fileType : cstring := lit "ZipCodeLengthIndicated".
Definition version : Z := 1.
Definition sizeof_uint16 : Z := 2.
Definition sizeof_uint32 : Z := 4.

Definition headerSize : Z :=
  wrap32 (Z.of_nat (length fileType) + 1 + sizeof_uint16 + sizeof_uint32
          + sizeof_uint32).

(** The four writes of step 1. *)
Definition write_header (recordCount : Z) : cstring :=
  (fileType ++ [NUL]) ++ u16_bytes version ++ u32_bytes headerSize
    ++ u32_bytes recordCount.

(** One turn of the loop of step 2: the length, then the text. *)
Definition write_record (out : cstring) (record : ZipCodeRecord) : cstring :=
  let recordString := encode record in
  let recordLength := wrap32 (Z.of_nat (length recordString)) in
  out ++ u32_bytes recordLength ++ recordString.

Definition convertToLengthIndicatedFile (inputFilename outputFilename : string)
    (w : world) : outcome bool :=
  if decide (outputFilename ∈ unwritable w) then Returned false w
  else
    let recordCount := wrap32 (Z.of_nat (length (records w))) in
    let out := write_header recordCount in
    let out := fold_left write_record (records w) out in
    Returned true (write_file outputFilename out w).

(** ** Reading the header *)

(** The header reads shared by [loadFromLengthIndicatedFile] and
    [createPrimaryKeyIndex]: the type tag up to its terminator, the version,
    the header size, the record count.  Only the record count is used
    afterwards; it is [None] when its four bytes could not be read. *)
Definition read_header (s : istream) : istream * option Z :=
  let '(s, fileType) := getline s [] NUL in
  let '(s, version) := read s (Z.to_nat sizeof_uint16) in
  let '(s, headerSize) := read_u32 s in
  let '(s, recordCount) := read_u32 s in
  (s, recordCount).

(** ** [Buffer::loadFromLengthIndicatedFile] *)

(** The [for (uint32_t i = 0; i < recordCount; ++i)] loop, [n] turns left. *)
Fixpoint load_frames (n : nat) (inputFile : istream) (w : world)
  : outcome bool :=
  match n with
  | O => Returned true w
  | S n' =>
      let '(inputFile, recordLength) := read_u32 inputFile in
      match recordLength with
      | None => Unspecified
      | Some recordLength =>
          let '(inputFile, recordString) :=
            read_vector inputFile (Z.to_nat recordLength) in
          match decode recordString with
          | stod_value record => load_frames n' inputFile (push_back record w)
          | stod_invalid_argument => load_frames n' inputFile w
          | stod_out_of_range => Thrown out_of_range w
          end
      end
  end.

Definition loadFromLengthIndicatedFile (filename : string) (w : world)
  : outcome bool :=
  match files w !! filename with
  | None => Returned false w
  | Some content =>
      match read_header (stream_of content) with
      | (inputFile, Some recordCount) =>
          load_frames (Z.to_nat recordCount) inputFile w
      | (_, None) => Unspecified
      end
  end.

(** ** [Buffer::searchPrimaryKey] *)

(** The [while (indexFile >> currentZipCode >> fileOffset)] loop.  The two
    variables keep their values from one turn to the next. *)
Fixpoint index_scan (fuel : nat) (indexFile : istream)
    (currentZipCode : cstring) (fileOffset : Z) (zipCode : cstring)
  : option Z :=
  match fuel with
  | O => None
  | S fuel' =>
      let '(indexFile, currentZipCode) :=
        extract_string indexFile currentZipCode in
      let '(indexFile, fileOffset) := extract_streamoff indexFile fileOffset in
      if fail indexFile then Some (-1)
      else if decide (currentZipCode = zipCode) then Some fileOffset
      else index_scan fuel' indexFile currentZipCode fileOffset zipCode
  end.

Definition searchPrimaryKey (indexFilename : string) (zipCode : cstring)
    (w : world) : outcome Z :=
  match files w !! indexFilename with
  | None => Returned (-1) w
  | Some content =>
      match index_scan (S (length content)) (stream_of content) [] 0 zipCode with
      | Some offset => Returned offset w
      | None => OutOfFuel
      end
  end.

(** ** [Buffer::readRecordAtOffset] *)

Definition readRecordAtOffset (dataFilename : string) (fileOffset : Z)
    (w : world) : outcome ZipCodeRecord :=
  match files w !! dataFilename with
  | None => Thrown runtime_error w
  | Some content =>
      let dataFile := seekg (stream_of content) fileOffset in
      let '(dataFile, recordLength) := read_u32 dataFile in
      match recordLength with
      | None => Unspecified
      | Some recordLength =>
          let '(dataFile, recordString) :=
            read_vector dataFile (Z.to_nat recordLength) in
          match decode recordString with
          | stod_value record => Returned record w
          | stod_invalid_argument => Thrown invalid_argument w
          | stod_out_of_range => Thrown out_of_range w
          end
      end
  end.

(** ** [Buffer::createPrimaryKeyIndex] *)

(** The loop over the frames.  Each turn appends one line to the index
    file; the lines are kept as (zip code, offset) pairs and rendered by
    [index_line]. *)
Fixpoint index_frames (n : nat) (dataFile : istream)
    (lines : list (cstring * Z)) : option (list (cstring * Z)) :=
  match n with
  | O => Some lines
  | S n' =>
      let '(dataFile, fileOffset) := tellg dataFile in
      let '(dataFile, recordLength) := read_u32 dataFile in
      match recordLength with
      | None => None
      | Some recordLength =>
          let '(dataFile, recordString) :=
            read_vector dataFile (Z.to_nat recordLength) in
          let '(_, zipCode) := getline (stream_of recordString) [] comma in
          index_frames n' dataFile (lines ++ [(zipCode, fileOffset)])
      end
  end.

(** [indexFile << zipCode << " " << fileOffset << "\n"]. *)
Definition index_line (entry : cstring * Z) : cstring :=
  entry.1 ++ [space] ++ insert_integer entry.2 ++ [newline].

Definition index_text (lines : list (cstring * Z)) : cstring :=
  concat (map index_line lines).

Definition createPrimaryKeyIndex (dataFilename indexFilename : string)
    (w : world) : outcome bool :=
  match files w !! dataFilename with
  | None => Returned false w
  | Some content =>
      if decide (indexFilename ∈ unwritable w) then Returned false w
      else
        (* opening the index for writing empties it, also when it is the
           data file itself *)
        let content :=
          if decide (indexFilename = dataFilename) then [] else content in
        match read_header (stream_of content) with
        | (dataFile, Some recordCount) =>
            match index_frames (Z.to_nat recordCount) dataFile [] with
            | Some lines =>
                Returned true (write_file indexFilename (index_text lines) w)
            | None => Unspecified
            end
        | (_, None) => Unspecified
        end
  end.

(** ** [searchZipCode] of [main.cpp] *)

(** What [searchZipCode] prints: the record, through [printRecord], or the
    line [Zip Code ... not found.] *)
Inductive report :=
  | printRecord (record : ZipCodeRecord)
  | not_found (zipCode : cstring).

Definition dataFile_name : string := "us_postal_codes.dat".
Definition indexFile_name : string := "primary_key_index.dat".

Definition searchZipCode (zipCode : cstring) (w : world) : outcome report :=
  match searchPrimaryKey indexFile_name zipCode w with
  | Returned offset w =>
      if decide (offset ≠ -1) then
        match readRecordAtOffset dataFile_name offset w with
        | Returned record w => Returned (printRecord record) w
        | Thrown e w => Thrown e w
        | Unspecified => Unspecified
        | OutOfFuel => OutOfFuel
        end
      else Returned (not_found zipCode) w
  | Thrown e w => Thrown e w
  | Unspecified => Unspecified
  | OutOfFuel => OutOfFuel
  end.

End Buffer.

Arguments Returned {D A} a w.
Arguments Thrown {D A} e w.
Arguments Unspecified {D A}.
Arguments OutOfFuel {D A}.

(** ** The store and index layouts of the specification *)

(** A frame: the unsigned 32-bit length of the payload, then the payload. *)
Definition frame (payload : cstring) : cstring :=
  u32_bytes (Z.of_nat (length payload)) ++ payload.

Definition frames (payloads : list cstring) : cstring :=
  concat (map frame payloads).

(** The header: type tag, one terminator byte, version, header length,
    record count. *)
Definition header_image (tag : cstring) (ver hlen count : Z) : cstring :=
  tag ++ [NUL] ++ u16_bytes ver ++ u32_bytes hlen ++ u32_bytes count.

(** A store file holding the payloads [payloads], with a record count that
    equals the number of frames. *)
Definition store_image (tag : cstring) (ver hlen : Z) (payloads : list cstring)
  : cstring :=
  header_image tag ver hlen (Z.of_nat (length payloads)) ++ frames payloads.

(** Well-formedness of a store: the tag holds no terminator, and the record
    count and every payload length fit their 32-bit fields. *)
Definition well_formed_store (tag : cstring) (payloads : list cstring) : Prop :=
  (NUL ∉ tag) /\ Z.of_nat (length payloads) < 2 ^ 32
  /\ Forall (fun p : cstring => Z.of_nat (length p) < 2 ^ 32) payloads.

(** The byte position of the length field of frame [i]. *)
Definition frame_offset (tag : cstring) (payloads : list cstring) (i : nat) : Z :=
  Z.of_nat (length tag + 11 + length (frames (take i payloads))).

(** The key token of a payload: the text before its first comma. *)
Definition key_of (payload : cstring) : cstring :=
  (scan_delim comma payload).1.

(** A well-formed index line: a key that is not empty and holds no white
    space, and an offset that is a position in a file. *)
Definition well_formed_entry (entry : cstring * Z) : Prop :=
  entry.1 <> [] /\ Forall (fun c => isspace c = false) entry.1
  /\ 0 <= entry.2 <= streamoff_max.

(** ** Specification-level readings of the two loaders *)

Section Readers.
Context `{D : StdDouble}.

(** What the bulk load makes of the payloads of a store, frame by frame. *)
Fixpoint load_payloads (payloads : list cstring) (w : world) : outcome bool :=
  match payloads with
  | [] => Returned true w
  | p :: ps =>
      match decode p with
      | stod_value record => load_payloads ps (push_back record w)
      | stod_invalid_argument => load_payloads ps w
      | stod_out_of_range => Thrown out_of_range w
      end
  end.

(** What the CSV load makes of the data lines of a file. *)
Fixpoint load_lines (lines : list cstring) (w : world) : outcome bool :=
  match lines with
  | [] => Returned true w
  | l :: ls =>
      match decode_csv l with
      | stod_value record => load_lines ls (push_back record w)
      | stod_invalid_argument => load_lines ls w
      | stod_out_of_range => Thrown out_of_range w
      end
  end.

(** A CSV file: a header line and data lines, each ended by a newline. *)
Definition csv_image (header : cstring) (lines : list cstring) : cstring :=
  header ++ newline :: concat (map (fun l => l ++ [newline]) lines).

(** The records a list of payloads decodes to, failures left out. *)
Definition decoded (payloads : list cstring) : list ZipCodeRecord :=
  omap (fun p => match decode p with
                 | stod_value record => Some record
                 | _ => None
                 end) payloads.

(** The records the data lines of a CSV file decode to, failures left
    out. *)
Definition decoded_csv (lines : list cstring) : list ZipCodeRecord :=
  omap (fun l => match decode_csv l with
                 | stod_value record => Some record
                 | _ => None
                 end) lines.

(** The outcome [o] of a call made on an empty buffer, replayed on a buffer
    that already holds [pre]. *)
Definition prepend {A : Type} (pre : list ZipCodeRecord) (o : outcome A)
  : outcome A :=
  match o with
  | Returned a w => Returned a (mkWorld (pre ++ records w) (files w) (unwritable w))
  | Thrown e w => Thrown e (mkWorld (pre ++ records w) (files w) (unwritable w))
  | Unspecified => Unspecified
  | OutOfFuel => OutOfFuel
  end.

Definition emptied (w : world) : world := mkWorld [] (files w) (unwritable w).

(** The index lines of a store whose first frame starts at [pos]. *)
Fixpoint entries_from (pos : nat) (payloads : list cstring)
  : list (cstring * Z) :=
  match payloads with
  | [] => []
  | p :: ps => (key_of p, Z.of_nat pos) :: entries_from (pos + 4 + length p) ps
  end.

Definition index_entries (tag : cstring) (payloads : list cstring)
  : list (cstring * Z) :=
  entries_from (length tag + 11) payloads.

(** The first line of an index whose key is [key]. *)
Fixpoint first_match (key : cstring) (lines : list (cstring * Z)) : option Z :=
  match lines with
  | [] => None
  | entry :: ls =>
      if decide (entry.1 = key) then Some entry.2 else first_match key ls
  end.


End Readers.

(** The number of occurrences of a character in a text. *)
Definition count_char (c : ascii) (text : cstring) : nat :=
  length (filter (fun x => x = c) text).

(** One step of reading a decimal number. *)
Definition digits_step (acc : Z) (c : ascii) : Z := 10 * acc + digit_value c.



(** ** Example data on binary64 *)

Section ExampleData.
#[local] Existing Instance binary64.

(** The double a decimal literal denotes. *)
Definition dbl (s : string) : double :=
  match Binary64.stod (lit s) with
  | stod_value d => d
  | _ => double_zero
  end.

(** The three records of the example of the specification. *)
Definition record_ny : ZipCodeRecord :=
  mkZipCodeRecord (lit "00001") (lit "A") (lit "NY") (lit "X")
    (dbl "1.0") (dbl "2.0").
Definition record_ca : ZipCodeRecord :=
  mkZipCodeRecord (lit "00002") (lit "B") (lit "CA") (lit "Y")
    (dbl "3.0") (dbl "4.0").
Definition record_ny' : ZipCodeRecord :=
  mkZipCodeRecord (lit "00003") (lit "C") (lit "NY") (lit "Z")
    (dbl "5.0") (dbl "6.0").

Definition three_records : list ZipCodeRecord :=
  [record_ny; record_ca; record_ny'].

(** A record with a comma in its place name, and one whose longitude has
    more than six significant digits. *)
Definition record_comma : ZipCodeRecord :=
  mkZipCodeRecord (lit "55101") (lit "St. Paul, MN") (lit "MN") (lit "Ramsey")
    (dbl "1.0") (dbl "2.0").
Definition record_precise : ZipCodeRecord :=
  mkZipCodeRecord (lit "99501") (lit "Anchorage") (lit "AK") (lit "Anchorage")
    (dbl "61.2181") (dbl "-149.9003").

Definition empty_world : world := mkWorld [] ∅ ∅.

(** The buffer after the ingest of the three records, nothing on disk. *)
Definition loaded_world : world := mkWorld three_records ∅ ∅.

(** A store written from the three records. *)
Definition stored_world : world :=
  mkWorld []
    {[ dataFile_name :=
         store_image fileType version headerSize (map encode three_records) ]}
    ∅.

(** A store with a stale header length and a second frame whose latitude is
    not a number. *)
Definition damaged_payloads : list cstring :=
  [lit "00001,A,NY,X,1,2"; lit "00002,B,CA,Y,north,4"; lit "00003,C,NY,Z,5,6"].
Definition damaged_world : world :=
  mkWorld [record_ca]
    {[ dataFile_name := store_image fileType version 0 damaged_payloads ]} ∅.

(** An index in which the key [00001] occurs twice. *)
Definition duplicate_lines : list (cstring * Z) :=
  [(lit "00002", 33); (lit "00001", 53); (lit "00001", 73)].
Definition indexed_world : world :=
  mkWorld [] {[ indexFile_name := index_text duplicate_lines ]} ∅.

(** A CSV file with an empty latitude on its first data line, beside a
    store whose only frame has an empty latitude. *)
Definition csv_name : string := "us_postal_codes_ROWS_RANDOMIZED.csv".
Definition csv_header : cstring := lit "ZipCode,PlaceName,State,County,Lat,Long".

(** Closed goals are settled by evaluation in the virtual machine; the
    goal itself is not normalised, only compared. *)
End ExampleData.

(** ** Further readings used by the properties below *)

Section Further.
Context `{D : StdDouble}.

(** [P] holds of the world a call ends in, when it returns or throws. *)
Definition ends_in {A : Type} (P : world -> Prop) (o : outcome A) : Prop :=
  match o with
  | Returned _ w' => P w'
  | Thrown _ w' => P w'
  | Unspecified => True
  | OutOfFuel => True
  end.

(** The outcome of [k] after the outcome [o]: an exception or an
    unspecified read ends the sequence. *)
Definition and_then {A B : Type} (o : outcome A) (k : A -> world -> outcome B)
  : outcome B :=
  match o with
  | Returned a w' => k a w'
  | Thrown e w' => Thrown e w'
  | Unspecified => Unspecified
  | OutOfFuel => OutOfFuel
  end.

(** [w'] differs from [w] in the buffer and in the files [names] at
    most. *)
Definition changes_only (names : list string) (w w' : world) : Prop :=
  unwritable w' = unwritable w
  /\ forall other, other ∉ names -> files w' !! other = files w !! other.


(** A key the index can carry: not empty, without white space. *)
Definition index_key (k : cstring) : Prop :=
  k <> [] /\ Forall (fun c => isspace c = false) k.

(** A record that the store keeps as it is and that the index can name:
    its zip code can be carried by the index, its text fields hold no comma,
    and its coordinates are read back from their rendering. *)
Definition storable (r : ZipCodeRecord) : Prop :=
  index_key (zipCode r) /\ (comma ∉ zipCode r) /\ (comma ∉ placeName r)
  /\ (comma ∉ state r) /\ (comma ∉ county r)
  /\ stod (insert_double (latitude r)) = stod_value (latitude r)
  /\ stod (insert_double (longitude r)) = stod_value (longitude r).

End Further.

(** ** [Buffer::getRecordByZip] and [Buffer::getAllRecords] *)

Section BufferQueries.
Context `{D : StdDouble}.

(** [getRecordByZip]: the loop returns the address of the first record
    whose zip code is the requested one, or [nullptr].  The address is the
    position of the record in [records], given with the record it holds. *)
Definition getRecordByZip (key : cstring) (w : world)
  : option (nat * ZipCodeRecord) :=
  list_find (fun record => zipCode record = key) (records w).

Definition getAllRecords (w : world) : list ZipCodeRecord := records w.

End BufferQueries.

(** ** The report of [main.cpp]: comparisons and sorting of the library *)

(** [a < b] on [double]; [a > b] is [b < a]. *)
Class StdDoubleOrder (D : StdDouble) := {
  double_lt : double -> double -> bool
}.

(** The order is strict: irreflexive and transitive (a NaN is below and
    above nothing). *)
Class StdDoubleOrderLaws (D : StdDouble) (O : StdDoubleOrder D) : Prop := {
  double_lt_irrefl : forall x, double_lt x x = false;
  double_lt_trans : forall x y z,
    double_lt x y = true -> double_lt y z = true -> double_lt x z = true
}.

(** What [std::sort] requires of [comp] on the elements it sorts: a strict
    weak ordering.  It is irreflexive and transitive, and so is being
    equivalent (neither before the other). *)
Definition equivalent {A : Type} (comp : A -> A -> bool) (x y : A) : bool :=
  negb (comp x y) && negb (comp y x).

Definition strict_weak_on {A : Type} (comp : A -> A -> bool) (l : list A)
  : bool :=
  forallb (fun x => negb (comp x x)) l
  && forallb (fun x => forallb (fun y => forallb (fun z =>
       implb (comp x y && comp y z) (comp x z)
       && implb (equivalent comp x y && equivalent comp y z)
            (equivalent comp x z)) l) l) l.

(** [std::sort(first, last, comp)] on a vector of records.  The standard
    fixes the result up to the order of equivalent elements only, so the
    function is a parameter; it says nothing of the result when [comp] is
    not a strict weak ordering. *)
Class StdSort (D : StdDouble) := {
  std_sort :
    (ZipCodeRecord -> ZipCodeRecord -> bool) -> list ZipCodeRecord
    -> list ZipCodeRecord
}.

(** Sorting rearranges. *)
Class StdSortLaws (D : StdDouble) (S : StdSort D) : Prop := {
  std_sort_permutation : forall comp l,
    strict_weak_on comp l = true -> std_sort comp l ≡ₚ l
}.

(** A [std::map<std::string, std::vector<ZipCodeRecord>>] is the list of
    its entries in the order of iteration, which is the order of the keys. *)
Abbreviation state_map := (list (cstring * list ZipCodeRecord)).

Section Report.
Context `{D : StdDouble} {O : StdDoubleOrder D} {S : StdSort D}.

(** [operator<] of [std::string]: the first differing character decides,
    compared as an unsigned value; a proper prefix is smaller. *)
Fixpoint string_lt (a b : cstring) : bool :=
  match a, b with
  | _, [] => false
  | [], _ :: _ => true
  | x :: a', y :: b' =>
      if (nat_of_ascii x <? nat_of_ascii y)%nat then true
      else if (nat_of_ascii y <? nat_of_ascii x)%nat then false
      else string_lt a' b'
  end.

(** [m[key].push_back(record)]: the entry of [key] is created, empty, at
    its place in the order of the keys when the map has none. *)
Fixpoint map_push_back (key : cstring) (record : ZipCodeRecord) (m : state_map)
  : state_map :=
  match m with
  | [] => [(key, [record])]
  | (k, v) :: m' =>
      if string_lt key k then (key, [record]) :: (k, v) :: m'
      else if decide (key = k) then (k, v ++ [record]) :: m'
      else (k, v) :: map_push_back key record m'
  end.

(** Step 2 of [main]: the records of the buffer by state. *)
Definition group_by_state (records : list ZipCodeRecord) : state_map :=
  fold_left (fun m record => map_push_back (state record) record m) records [].

(** Step 3 of [main]: each vector sorted by latitude; [None] when the
    comparison does not meet the requirement of [std::sort] on one of
    them. *)
Definition by_latitude (a b : ZipCodeRecord) : bool :=
  double_lt (latitude a) (latitude b).

Definition sort_by_latitude (m : state_map) : option state_map :=
  if forallb (fun entry => strict_weak_on by_latitude entry.2) m
  then Some (map (fun entry => (entry.1, std_sort by_latitude entry.2)) m)
  else None.

(** [stateRecords.find(key)]: the vector of the entry of [key]. *)
Fixpoint map_find (key : cstring) (m : state_map)
  : option (list ZipCodeRecord) :=
  match m with
  | [] => None
  | (k, v) :: m' => if decide (k = key) then Some v else map_find key m'
  end.

(** The keys in the order of iteration. *)
Definition map_keys (m : state_map) : list cstring := map fst m.

(** Each key is below all the keys after it. *)
Fixpoint ascending (keys : list cstring) : Prop :=
  match keys with
  | [] => True
  | k :: keys' => Forall (fun k' => string_lt k k' = true) keys' /\ ascending keys'
  end.

(** The four records [writeStateBoundariesToFile] and
    [printStateBoundaries] keep while they run over the records of a
    state. *)
Record boundaries := mkBoundaries {
  easternmost : ZipCodeRecord;
  westernmost : ZipCodeRecord;
  northernmost : ZipCodeRecord;
  southernmost : ZipCodeRecord
}.

(** The body of the inner loop: four tests in a row. *)
Definition boundary_step (b : boundaries) (record : ZipCodeRecord)
  : boundaries :=
  mkBoundaries
    (if double_lt (longitude record) (longitude (easternmost b))
     then record else easternmost b)
    (if double_lt (longitude (westernmost b)) (longitude record)
     then record else westernmost b)
    (if double_lt (latitude (northernmost b)) (latitude record)
     then record else northernmost b)
    (if double_lt (latitude record) (latitude (southernmost b))
     then record else southernmost b).

(** The four records start as [records[0]], which an empty vector does not
    have ([None]); the loop then runs over all the records. *)
Definition state_boundaries (records : list ZipCodeRecord)
  : option boundaries :=
  match records with
  | [] => None
  | first :: _ =>
      Some (fold_left boundary_step records
              (mkBoundaries first first first first))
  end.

Definition boundaries_header : cstring :=
  lit "State | Easternmost Zip | Westernmost Zip | Northernmost Zip | Southernmost Zip"
    ++ [newline]
    ++ lit "--------------------------------------------------------------------------"
    ++ [newline].

(** What the four records are among [records]: members, and such that no
    record has a longitude below that of [easternmost] or above that of
    [westernmost], nor a latitude above that of [northernmost] or below that
    of [southernmost]. *)
Definition boundaries_of (records : list ZipCodeRecord) (b : boundaries)
  : Prop :=
  (easternmost b ∈ records /\ westernmost b ∈ records
   /\ northernmost b ∈ records /\ southernmost b ∈ records)
  /\ forall r, r ∈ records ->
       double_lt (longitude r) (longitude (easternmost b)) = false
       /\ double_lt (longitude (westernmost b)) (longitude r) = false
       /\ double_lt (latitude (northernmost b)) (latitude r) = false
       /\ double_lt (latitude r) (latitude (southernmost b)) = false.

(** The line written for a state. *)
Definition boundaries_line (state : cstring) (b : boundaries) : cstring :=
  state ++ lit " | "
    ++ zipCode (easternmost b) ++ lit " (" ++ placeName (easternmost b)
    ++ lit ") | "
    ++ zipCode (westernmost b) ++ lit " (" ++ placeName (westernmost b)
    ++ lit ") | "
    ++ zipCode (northernmost b) ++ lit " (" ++ placeName (northernmost b)
    ++ lit ") | "
    ++ zipCode (southernmost b) ++ lit " (" ++ placeName (southernmost b)
    ++ lit ")" ++ [newline].

(** The loop over the entries of the map; [out] is what the stream has
    received so far. *)
Fixpoint boundaries_lines (stateRecords : state_map) (out : cstring)
  : option cstring :=
  match stateRecords with
  | [] => Some out
  | (state, records) :: rest =>
      match state_boundaries records with
      | Some b => boundaries_lines rest (out ++ boundaries_line state b)
      | None => None
      end
  end.

(** [writeStateBoundariesToFile] of [main.cpp]. *)
Definition writeStateBoundariesToFile (stateRecords : state_map)
    (filename : string) (w : world) : outcome unit :=
  if decide (filename ∈ unwritable w) then Returned tt w
  else
    match boundaries_lines stateRecords boundaries_header with
    | Some out => Returned tt (write_file filename out w)
    | None => Unspecified
    end.

(** [printStateBoundaries] of [main.cpp]: the same loop, onto the
    console. *)
Definition printStateBoundaries (stateRecords : state_map) (w : world)
  : outcome unit :=
  match boundaries_lines stateRecords boundaries_header with
  | Some _ => Returned tt w
  | None => Unspecified
  end.

(** [displayHeaderInfo] of [main.cpp]: it prints the header fields, which
    it reads as the loaders do. *)
Definition displayHeaderInfo (filename : string) (w : world) : outcome unit :=
  match files w !! filename with
  | None => Returned tt w
  | Some content =>
      match read_header (stream_of content) with
      | (_, Some recordCount) => Returned tt w
      | (_, None) => Unspecified
      end
  end.

(** [searchAndDisplayZipCode] of [main.cpp]: the offset found is not
    used. *)
Definition searchAndDisplayZipCode (zipCode : cstring) (w : world)
  : outcome unit :=
  and_then (searchPrimaryKey indexFile_name zipCode w)
    (fun _ w' => Returned tt w').

Definition boundaries_file_name : string := "sorted_state_boundaries.txt".

(** [s[i]] for [i <= s.size()]. *)
Definition char_at (s : cstring) (i : nat) : ascii := nth i s NUL.

(** The test of [main] for a lookup: [argc > 1] and [argv[1]] starts with
    [-z]. *)
Definition lookup_requested (argv : list cstring) : bool :=
  let flag := nth 1 argv [] in
  (1 <? length argv)%nat && Ascii.eqb (char_at flag 0) "-"
  && Ascii.eqb (char_at flag 1) "z".

(** [main]: [argv] holds the [argc] arguments, the name of the program
    first; the buffer starts empty; the result is the exit status. *)
Definition main (argv : list cstring) (w : world) : outcome Z :=
  let w := emptied w in
  and_then (displayHeaderInfo dataFile_name w) (fun _ w =>
  if lookup_requested argv
  then
    and_then (searchZipCode (drop 2 (nth 1 argv [])) w)
      (fun _ w => Returned 0 w)
  else
    and_then (loadFromCSV csv_name w) (fun loaded w =>
    if loaded : bool then
      match sort_by_latitude (group_by_state (getAllRecords w)) with
      | None => Unspecified
      | Some stateRecords =>
          and_then
            (if (1 <? length argv)%nat
             then searchAndDisplayZipCode (nth 1 argv []) w
             else Returned tt w) (fun _ w =>
          and_then (printStateBoundaries stateRecords w) (fun _ w =>
          and_then
            (writeStateBoundariesToFile stateRecords boundaries_file_name w)
            (fun _ w =>
          and_then (convertToLengthIndicatedFile csv_name dataFile_name w)
            (fun _ w =>
          and_then (createPrimaryKeyIndex dataFile_name indexFile_name w)
            (fun _ w => Returned 0 w)))))
      end
    else Returned 0 w)).

End Report.

(** ** The report on binary64 *)

(** Insertion into a sorted list, for the reference instance of
    [std::sort]: a record goes in front of the records that are not before
    it, so that equivalent records keep their order, as the insertion sort
    the library uses on short vectors leaves them. *)
Fixpoint insert_sorted {A : Type} (comp : A -> A -> bool) (x : A) (l : list A)
  : list A :=
  match l with
  | [] => [x]
  | y :: l' => if comp y x then y :: insert_sorted comp x l' else x :: y :: l'
  end.

Definition insertion_sort {A : Type} (comp : A -> A -> bool) (l : list A)
  : list A :=
  fold_right (insert_sorted comp) [] l.

Definition binary64_order : StdDoubleOrder binary64 :=
  Build_StdDoubleOrder binary64 SFltb.

Definition binary64_sort : StdSort binary64 :=
  Build_StdSort binary64 insertion_sort.

(** ** Further example data *)

Section ExampleRuns.
#[local] Existing Instance binary64.

(** A CSV file whose last line lacks its newline, and a CSV file that is
    its header alone. *)
Definition unterminated_world : world :=
  mkWorld []
    {[ csv_name := csv_image csv_header [lit "00001,A,NY,X,1,2"]
                   ++ lit "00002,B,CA,Y,3,4" ]} ∅.
Definition header_only_world : world :=
  mkWorld [record_ca] {[ csv_name := csv_header ]} ∅.

(** A store that declares three frames and holds one, and a store whose
    only frame is cut after fourteen of its sixteen bytes. *)
Definition truncated_world : world :=
  mkWorld []
    {[ dataFile_name :=
         header_image fileType version headerSize 3
         ++ frames [lit "00001,A,NY,X,1,2"] ]} ∅.
Definition cut_world : world :=
  mkWorld []
    {[ dataFile_name :=
         header_image fileType version headerSize 1
         ++ u32_bytes 16 ++ lit "00001,A,NY,X,1" ]} ∅.


(** The two records of NY as an entry of the map of [main]. *)
Definition ny_entry : state_map := [(lit "NY", [record_ny; record_ny'])].

(** The CSV input of a build: the three records, one per line; and the
    state after its load into an empty buffer. *)
Definition build_world : world :=
  mkWorld [record_comma]
    {[ csv_name := csv_image csv_header (map encode three_records) ]} ∅.
Definition build_loaded_world : world :=
  mkWorld three_records
    {[ csv_name := csv_image csv_header (map encode three_records) ]} ∅.

(** A CSV file with a blank line between two records. *)
Definition blank_line_world : world :=
  mkWorld []
    {[ csv_name :=
         csv_image csv_header
           [lit "00001,A,NY,X,1,2"; []; lit "00003,C,NY,Z,5,6"] ]} ∅.

(** A store whose second frame has a latitude beyond the range of
    [double]. *)
Definition overflow_payloads : list cstring :=
  [lit "00001,A,NY,X,1,2"; lit "00002,B,CA,Y,1e400,4"; lit "00003,C,NY,Z,5,6"].
Definition overflow_world : world :=
  mkWorld []
    {[ dataFile_name :=
         store_image fileType version headerSize overflow_payloads ]} ∅.


(** A buffer that holds the NY record, beside a CSV file and a store that
    each hold another record with its zip code. *)
Definition accumulating_world : world :=
  mkWorld [record_ny]
    {[ csv_name :=
         csv_image csv_header
           [lit "00001,Other,CA,Q,7,8"; lit "00002,B,CA,Y,3.0,4.0"];
       dataFile_name :=
         store_image fileType version headerSize
           [lit "00001,Again,NY,R,9,10"] ]} ∅.


End ExampleRuns.

(** ** The reference instance satisfies the laws of the interface *)

Lemma digit_char_plain (d : Z) : 0 <= d < 10 -> digit_char d <> comma.
Proof.
  intros Hd.
  assert (Hcases : d = 0 \/ d = 1 \/ d = 2 \/ d = 3 \/ d = 4 \/ d = 5
                   \/ d = 6 \/ d = 7 \/ d = 8 \/ d = 9) by lia.
  repeat (destruct Hcases as [-> | Hcases]; [discriminate |]).
  subst d. discriminate.
Qed.

Lemma digits_of_plain (fuel : nat) (n : Z) (acc : cstring) :
  0 <= n -> Forall (fun c => c <> comma) acc ->
  Forall (fun c => c <> comma) (digits_of fuel n acc).
Proof.
  revert n acc. induction fuel as [| fuel IH]; intros n acc Hn Hacc; simpl.
  - exact Hacc.
  - destruct (Z.ltb_spec n 10).
    + constructor; [apply digit_char_plain; lia | exact Hacc].
    + apply IH.
      * apply Z.div_pos; lia.
      * constructor; [| exact Hacc].
        apply digit_char_plain. apply Z.mod_pos_bound. lia.
Qed.

Lemma strip_zeros_plain (ds : cstring) :
  Forall (fun c => c <> comma) ds ->
  Forall (fun c => c <> comma) (Binary64.strip_zeros ds).
Proof.
  induction 1 as [| c ds Hc Hds IH]; simpl; [constructor |].
  destruct (Binary64.strip_zeros ds) as [| c' r].
  - destruct (Ascii.eqb c "0"); repeat constructor; exact Hc.
  - constructor; assumption.
Qed.

Lemma with_point_plain (ip fp : cstring) :
  Forall (fun c => c <> comma) ip -> Forall (fun c => c <> comma) fp ->
  Forall (fun c => c <> comma) (Binary64.with_point ip fp).
Proof.
  intros Hip Hfp. unfold Binary64.with_point. destruct fp as [| c fp].
  - exact Hip.
  - apply Forall_app. split; [exact Hip |].
    constructor; [discriminate | exact Hfp].
Qed.

Lemma format_g_plain (N X : Z) :
  0 <= N -> Forall (fun c => c <> comma) (Binary64.format_g N X).
Proof.
  intros HN. unfold Binary64.format_g.
  assert (Hds : Forall (fun c => c <> comma) (digits_of 6 N []))
    by (apply digits_of_plain; [exact HN | constructor]).
  destruct ((X <? -4) || (6 <=? X)).
  - apply Forall_app. split.
    + apply with_point_plain;
        [apply Forall_take | apply strip_zeros_plain, Forall_drop]; exact Hds.
    + constructor; [discriminate |].
      constructor; [destruct (X <? 0); discriminate |].
      apply Forall_app. split.
      * destruct (Z.abs X <? 10); repeat constructor; discriminate.
      * apply digits_of_plain; [lia | constructor].
  - destruct (0 <=? X).
    + apply with_point_plain;
        [apply Forall_take | apply strip_zeros_plain, Forall_drop]; exact Hds.
    + apply Forall_app. split; [repeat constructor; discriminate |].
      apply Forall_app. split.
      * apply Forall_replicate. discriminate.
      * apply strip_zeros_plain, Hds.
Qed.

Lemma round_half_even_nonneg (n d : Z) :
  0 <= n -> 0 < d -> 0 <= Binary64.round_half_even n d.
Proof.
  intros Hn Hd. unfold Binary64.round_half_even.
  pose proof (Z.div_pos n d Hn Hd) as Hq.
  destruct (2 * (n mod d) ?= d); [destruct (Z.even (n / d)) | |]; lia.
Qed.

Lemma six_digits_nonneg (num den : Z) :
  0 < num -> 0 < den -> 0 <= (Binary64.six_digits num den).1.
Proof.
  intros Hnum Hden. unfold Binary64.six_digits.
  set (X := Binary64.decimal_exponent num den).
  match goal with |- context [if ?c then _ else _] =>
    assert (HN : 0 <= (if 0 <=? X - 5
                       then Binary64.round_half_even num (den * 10 ^ (X - 5))
                       else Binary64.round_half_even (num * 10 ^ (5 - X)) den))
  end.
  { destruct (Z.leb_spec 0 (X - 5)).
    - apply round_half_even_nonneg; [lia |].
      apply Z.mul_pos_pos; [exact Hden | apply Z.pow_pos_nonneg; lia].
    - apply round_half_even_nonneg; [| exact Hden].
      apply Z.mul_nonneg_nonneg; [lia | apply Z.pow_nonneg; lia]. }
  destruct (_ =? 10 ^ 6); simpl; [lia | exact HN].
Qed.

Lemma binary64_insert_double_plain (d : spec_float) :
  comma ∉ Binary64.insert_double d.
Proof.
  enough (H : Forall (fun c => c <> comma) (Binary64.insert_double d)).
  { intros Hin. rewrite Forall_forall in H. exact (H _ Hin eq_refl). }
  destruct d as [s | s | | s m e]; simpl.
  - destruct s; repeat constructor; discriminate.
  - destruct s; repeat constructor; discriminate.
  - repeat constructor; discriminate.
  - assert (Hpos : 0 < (if 0 <=? e then (Z.pos m * 2 ^ e, 1)
                        else (Z.pos m, 2 ^ (- e))).1
                  /\ 0 < (if 0 <=? e then (Z.pos m * 2 ^ e, 1)
                          else (Z.pos m, 2 ^ (- e))).2).
    { destruct (Z.leb_spec 0 e); simpl; split; try lia;
        try (apply Z.mul_pos_pos; [lia |]); apply Z.pow_pos_nonneg; lia. }
    destruct (if 0 <=? e then _ else _) as [num den]. simpl in Hpos.
    pose proof (six_digits_nonneg num den (proj1 Hpos) (proj2 Hpos)) as HN.
    destruct (Binary64.six_digits num den) as [N X]. simpl in HN.
    apply Forall_app. split.
    + destruct s; repeat constructor; discriminate.
    + apply format_g_plain, HN.
Qed.

Lemma binary64_stod_empty : Binary64.stod [] = stod_invalid_argument.
Proof. reflexivity. Qed.

Lemma binary64_laws : StdDoubleLaws binary64.
Proof.
  split; [exact binary64_stod_empty | exact binary64_insert_double_plain].
Qed.

(** ** Streams: basic facts *)

Lemma scan_delim_here (delim : ascii) (tok r : cstring) :
  delim ∉ tok -> scan_delim delim (tok ++ delim :: r) = (tok, Some r).
Proof.
  induction tok as [| c tok IH]; intros Hnot; simpl.
  - now rewrite Ascii.eqb_refl.
  - destruct (Ascii.eqb_spec c delim) as [-> | Hne].
    + exfalso. apply Hnot. left.
    + rewrite IH; [reflexivity |]. intros Hin. apply Hnot. now right.
Qed.

Lemma scan_delim_end (delim : ascii) (tok : cstring) :
  delim ∉ tok -> scan_delim delim tok = (tok, None).
Proof.
  induction tok as [| c tok IH]; intros Hnot; simpl; [reflexivity |].
  destruct (Ascii.eqb_spec c delim) as [-> | Hne].
  - exfalso. apply Hnot. left.
  - rewrite IH; [reflexivity |]. intros Hin. apply Hnot. now right.
Qed.

Lemma scan_delim_token (delim : ascii) (l : cstring) :
  delim ∉ (scan_delim delim l).1.
Proof.
  induction l as [| c l IH]; simpl; [apply not_elem_of_nil |].
  destruct (Ascii.eqb_spec c delim) as [-> | Hne]; [apply not_elem_of_nil |].
  destruct (scan_delim delim l) as [tok r]. simpl in *.
  apply not_elem_of_cons. split; [congruence | exact IH].
Qed.

Lemma getline_delim (buf tok r str : cstring) (p : nat) (delim : ascii) :
  delim ∉ tok ->
  getline (Istream buf (tok ++ delim :: r) p false false) str delim
  = (Istream buf r (p + S (length tok)) false false, tok).
Proof.
  intros Hnot. unfold getline. simpl. now rewrite scan_delim_here.
Qed.

Lemma getline_last (buf tok str : cstring) (p : nat) (delim : ascii) :
  delim ∉ tok ->
  (getline (Istream buf tok p false false) str delim).2 = tok.
Proof.
  intros Hnot. unfold getline. simpl. now rewrite scan_delim_end.
Qed.

Lemma read_exact (buf a b : cstring) (p : nat) :
  read (Istream buf (a ++ b) p false false) (length a)
  = (Istream buf b (p + length a) false false, a).
Proof.
  unfold read. simpl.
  rewrite length_app.
  destruct (Nat.leb_spec (length a) (length a + length b)); [| lia].
  now rewrite drop_app_length, take_app_length.
Qed.

Lemma byte_value_of (n : Z) : byte_value (byte_of n) = n mod 256.
Proof.
  unfold byte_value, byte_of.
  pose proof (Z.mod_pos_bound n 256 ltac:(lia)) as Hb.
  rewrite nat_ascii_embedding by lia. lia.
Qed.

Lemma length_u32_bytes (n : Z) : length (u32_bytes n) = 4%nat.
Proof. reflexivity. Qed.

Lemma u32_of_bytes_u32_bytes (n : Z) :
  0 <= n < 2 ^ 32 -> u32_of_bytes (u32_bytes n) = Some n.
Proof.
  intros Hn. unfold u32_of_bytes, u32_bytes.
  rewrite !byte_value_of. f_equal.
  change (2 ^ 32) with 4294967296 in Hn.
  Z.to_euclidean_division_equations. lia.
Qed.

Lemma read_u32_exact (buf b : cstring) (p : nat) (n : Z) :
  0 <= n < 2 ^ 32 ->
  read_u32 (Istream buf (u32_bytes n ++ b) p false false)
  = (Istream buf b (p + 4) false false, Some n).
Proof.
  intros Hn. unfold read_u32.
  change 4%nat with (length (u32_bytes n)) at 1.
  rewrite read_exact. now rewrite u32_of_bytes_u32_bytes.
Qed.

Lemma read_vector_exact (buf a b : cstring) (p : nat) :
  read_vector (Istream buf (a ++ b) p false false) (length a)
  = (Istream buf b (p + length a) false false, a).
Proof.
  unfold read_vector. rewrite read_exact.
  now rewrite Nat.sub_diag, app_nil_r.
Qed.

(** Reading one whole frame: the length field, then the payload. *)
Lemma read_frame (buf payload b : cstring) (p : nat) :
  Z.of_nat (length payload) < 2 ^ 32 ->
  read_u32 (Istream buf (frame payload ++ b) p false false)
  = (Istream buf (payload ++ b) (p + 4) false false,
     Some (Z.of_nat (length payload))).
Proof.
  intros Hlen. unfold frame. rewrite <- app_assoc.
  apply read_u32_exact. lia.
Qed.

Lemma read_header_image (tag rest' : cstring) (ver hlen count : Z) :
  NUL ∉ tag -> 0 <= count < 2 ^ 32 ->
  read_header (stream_of (header_image tag ver hlen count ++ rest'))
  = (Istream (header_image tag ver hlen count ++ rest') rest'
       (length tag + 11) false false, Some count).
Proof.
  intros Htag Hcount. unfold read_header, stream_of, header_image.
  rewrite <- !app_assoc. simpl app.
  rewrite getline_delim by exact Htag.
  unfold read at 1. simpl.
  unfold read_u32, read. simpl.
  rewrite !byte_value_of.
  f_equal.
  - f_equal. change (Z.to_nat sizeof_uint16) with 2%nat. lia.
  - f_equal. change (2 ^ 32) with 4294967296 in Hcount.
    Z.to_euclidean_division_equations. lia.
Qed.

(** ** The record codec *)

Section Codec.
Context `{D : StdDouble} {L : StdDoubleLaws D}.

Lemma getline_fields_joined (z p s c la lo : cstring) :
  comma ∉ z -> comma ∉ p -> comma ∉ s -> comma ∉ c -> comma ∉ la ->
  comma ∉ lo ->
  getline_fields (z ++ [comma] ++ p ++ [comma] ++ s ++ [comma] ++ c
                    ++ [comma] ++ la ++ [comma] ++ lo)
  = mkFields z p s c la lo.
Proof.
  intros Hz Hp Hs Hc Hla Hlo. unfold getline_fields, stream_of. simpl app.
  rewrite !getline_delim by assumption.
  pose proof (getline_last
    (z ++ comma :: p ++ comma :: s ++ comma :: c ++ comma :: la ++ comma :: lo)
    lo []
    (0 + S (length z) + S (length p) + S (length s) + S (length c)
     + S (length la)) comma Hlo) as Hlast.
  destruct (getline _ [] comma) as [ss lng]. simpl in Hlast. now subst lng.
Qed.

Lemma encode_fields (r : ZipCodeRecord) :
  comma ∉ zipCode r -> comma ∉ placeName r -> comma ∉ state r ->
  comma ∉ county r ->
  getline_fields (encode r)
  = mkFields (zipCode r) (placeName r) (state r) (county r)
      (insert_double (latitude r)) (insert_double (longitude r)).
Proof.
  intros Hz Hp Hs Hc. unfold encode.
  apply getline_fields_joined; try assumption; apply insert_double_no_comma.
Qed.

Lemma getline_fresh_token (l str : cstring) (delim : ascii) :
  (getline (stream_of l) str delim).2 = (scan_delim delim l).1.
Proof.
  unfold getline, stream_of. simpl.
  now destruct (scan_delim delim l) as [tok [r |]].
Qed.

Lemma getline_fields_zipCode (payload : cstring) :
  f_zipCode (getline_fields payload) = key_of payload.
Proof.
  unfold getline_fields, key_of.
  rewrite <- (getline_fresh_token payload []).
  destruct (getline (stream_of payload) [] comma) as [ss0 z].
  repeat match goal with
         | |- context [getline ?s ?str ?d] => destruct (getline s str d)
         end.
  reflexivity.
Qed.

(** The key of a decoded record is the key token of the payload. *)
Lemma decode_with_zipCode (conv : cstring -> stod_result double)
    (payload : cstring) (r : ZipCodeRecord) :
  decode_with conv payload = stod_value r -> zipCode r = key_of payload.
Proof.
  unfold decode_with. rewrite <- getline_fields_zipCode.
  destruct (convert_coordinates _ _ _) as [c | |]; intros H;
    inversion H; reflexivity.
Qed.

End Codec.

(** ** The writer *)

Section Writer.
Context `{D : StdDouble}.

Lemma wrap32_small (n : Z) : 0 <= n < 2 ^ 32 -> wrap32 n = n.
Proof. intros Hn. unfold wrap32. now apply Z.mod_small. Qed.

Lemma fileType_no_NUL : NUL ∉ fileType.
Proof. apply (bool_decide_unpack _). now vm_compute. Qed.

Lemma headerSize_value : headerSize = 33.
Proof. reflexivity. Qed.

Lemma length_write_header (recordCount : Z) :
  length (write_header recordCount) = 33%nat.
Proof. reflexivity. Qed.

Lemma write_header_image (recordCount : Z) :
  write_header recordCount
  = header_image fileType version headerSize recordCount.
Proof. unfold write_header, header_image. now rewrite <- app_assoc. Qed.

(** The loop of step 2 appends, for each record in turn, its length field
    and its text. *)
Lemma fold_write_record (rs : list ZipCodeRecord) (out : cstring) :
  fold_left write_record rs out
  = out ++ concat (map (fun r =>
             u32_bytes (wrap32 (Z.of_nat (length (encode r)))) ++ encode r) rs).
Proof.
  revert out. induction rs as [| r rs IH]; intros out; simpl.
  - now rewrite app_nil_r.
  - rewrite IH. unfold write_record. now rewrite <- !app_assoc.
Qed.

Lemma fold_write_record_frames (rs : list ZipCodeRecord) (out : cstring) :
  Forall (fun r => Z.of_nat (length (encode r)) < 2 ^ 32) rs ->
  fold_left write_record rs out = out ++ frames (map encode rs).
Proof.
  intros Hrs. rewrite fold_write_record. f_equal. unfold frames.
  induction Hrs as [| r rs Hr Hrs IH]; cbn [map concat]; [reflexivity |].
  f_equal; [| exact IH].
  unfold frame. now rewrite wrap32_small by lia.
Qed.

Lemma convertToLengthIndicatedFile_image (input output : string) (w : world) :
  output ∉ unwritable w ->
  Z.of_nat (length (records w)) < 2 ^ 32 ->
  Forall (fun r => Z.of_nat (length (encode r)) < 2 ^ 32) (records w) ->
  convertToLengthIndicatedFile input output w
  = Returned true
      (write_file output
         (store_image fileType version headerSize (map encode (records w))) w).
Proof.
  intros Hout Hcount Hlen. unfold convertToLengthIndicatedFile.
  destruct (decide (output ∈ unwritable w)) as [Hin | _]; [contradiction |].
  rewrite fold_write_record_frames by exact Hlen.
  rewrite wrap32_small by lia.
  unfold store_image. now rewrite write_header_image, length_map.
Qed.

End Writer.

(** ** The bulk reader *)

Section Reader.
Context `{D : StdDouble}.

Lemma load_frames_payloads (payloads : list cstring) (buf tail : cstring)
    (p : nat) (w : world) :
  Forall (fun q : cstring => Z.of_nat (length q) < 2 ^ 32) payloads ->
  load_frames (length payloads)
    (Istream buf (frames payloads ++ tail) p false false) w
  = load_payloads payloads w.
Proof.
  intros Hlen. revert p w.
  induction Hlen as [| q qs Hq Hqs IH]; intros p w; [reflexivity |].
  simpl length. cbn [load_frames load_payloads].
  unfold frames. cbn [map concat]. rewrite <- app_assoc.
  rewrite read_frame by exact Hq.
  rewrite Nat2Z.id, read_vector_exact.
  destruct (decode q) as [record | |]; try reflexivity; apply IH.
Qed.

Lemma loadFromLengthIndicatedFile_image (name : string) (w : world)
    (tag : cstring) (ver hlen : Z) (payloads : list cstring) :
  well_formed_store tag payloads ->
  files w !! name = Some (store_image tag ver hlen payloads) ->
  loadFromLengthIndicatedFile name w = load_payloads payloads w.
Proof.
  intros (Htag & Hcount & Hlen) Hfile. unfold loadFromLengthIndicatedFile.
  rewrite Hfile. unfold store_image.
  rewrite read_header_image by (try exact Htag; lia).
  rewrite Nat2Z.id.
  rewrite <- (app_nil_r (frames payloads)).
  now apply load_frames_payloads.
Qed.

Lemma decoded_cons (p : cstring) (ps : list cstring) :
  decoded (p :: ps)
  = match decode p with
    | stod_value record => record :: decoded ps
    | _ => decoded ps
    end.
Proof. unfold decoded. simpl. now destruct (decode p). Qed.

Lemma load_payloads_decoded (payloads : list cstring) (w : world) :
  Forall (fun p => decode p <> stod_out_of_range) payloads ->
  load_payloads payloads w
  = Returned true
      (mkWorld (records w ++ decoded payloads) (files w) (unwritable w)).
Proof.
  intros Hok. revert w.
  induction Hok as [| p ps Hp Hps IH]; intros w.
  - simpl. rewrite app_nil_r. now destruct w.
  - rewrite decoded_cons. simpl.
    destruct (decode p) as [record | |]; [| | contradiction].
    + rewrite IH. simpl. now rewrite <- app_assoc.
    + apply IH.
Qed.

Lemma length_decoded (payloads : list cstring) :
  (length (decoded payloads) <= length payloads)%nat.
Proof.
  induction payloads as [| p ps IH]; [simpl; lia |].
  rewrite decoded_cons. destruct (decode p); simpl; lia.
Qed.

Lemma length_decoded_lt (payloads : list cstring) (i : nat) (p : cstring) :
  payloads !! i = Some p -> decode p = stod_invalid_argument ->
  (length (decoded payloads) < length payloads)%nat.
Proof.
  revert i. induction payloads as [| q qs IH]; intros i Hi Hp; [discriminate |].
  rewrite decoded_cons. destruct i as [| i]; simpl in Hi.
  - inversion Hi; subst q. rewrite Hp.
    pose proof (length_decoded qs). simpl. lia.
  - specialize (IH i Hi Hp). destruct (decode q); simpl; lia.
Qed.

(** A payload whose conversion throws [std::invalid_argument] leaves no
    trace in the load. *)
Lemma load_payloads_skip (pre post : list cstring) (p : cstring) (w : world) :
  decode p = stod_invalid_argument ->
  load_payloads (pre ++ p :: post) w = load_payloads (pre ++ post) w.
Proof.
  intros Hp. revert w. induction pre as [| q pre IH]; intros w; simpl.
  - now rewrite Hp.
  - destruct (decode q); try reflexivity; apply IH.
Qed.

Lemma load_payloads_prepend (payloads : list cstring)
    (pre rs : list ZipCodeRecord) (fs : gmap string cstring) (uw : gset string) :
  load_payloads payloads (mkWorld (pre ++ rs) fs uw)
  = prepend pre (load_payloads payloads (mkWorld rs fs uw)).
Proof.
  revert rs. induction payloads as [| p ps IH]; intros rs; simpl; [reflexivity |].
  destruct (decode p) as [record | |]; try reflexivity; [| apply IH].
  unfold push_back. simpl. rewrite <- app_assoc. apply IH.
Qed.

Lemma load_frames_prepend (n : nat) (s : istream)
    (pre rs : list ZipCodeRecord) (fs : gmap string cstring) (uw : gset string) :
  load_frames n s (mkWorld (pre ++ rs) fs uw)
  = prepend pre (load_frames n s (mkWorld rs fs uw)).
Proof.
  revert s rs. induction n as [| n IH]; intros s rs; simpl; [reflexivity |].
  destruct (read_u32 s) as [s1 [len |]]; [| reflexivity].
  destruct (read_vector s1 (Z.to_nat len)) as [s2 recordString].
  destruct (decode recordString) as [record | |]; try reflexivity; [| apply IH].
  unfold push_back. simpl. rewrite <- app_assoc. apply IH.
Qed.

Lemma csv_lines_prepend (fuel : nat) (s : istream) (line : cstring)
    (pre rs : list ZipCodeRecord) (fs : gmap string cstring) (uw : gset string) :
  csv_lines fuel s line (mkWorld (pre ++ rs) fs uw)
  = prepend pre (csv_lines fuel s line (mkWorld rs fs uw)).
Proof.
  revert s line rs.
  induction fuel as [| fuel IH]; intros s line rs; simpl; [reflexivity |].
  destruct (getline s line newline) as [s1 line1].
  destruct (fail s1); [reflexivity |].
  destruct (decode_csv line1) as [record | |]; try reflexivity; [| apply IH].
  unfold push_back. simpl. rewrite <- app_assoc. apply IH.
Qed.

End Reader.

(** ** The CSV loader *)

Section CsvLoader.
Context `{D : StdDouble}.

Lemma scan_delim_split (delim : ascii) (l : cstring) :
  match scan_delim delim l with
  | (tok, Some r) => l = tok ++ delim :: r
  | (tok, None) => l = tok
  end.
Proof.
  induction l as [| c l IH]; simpl; [reflexivity |].
  destruct (Ascii.eqb_spec c delim) as [-> | Hne]; [reflexivity |].
  destruct (scan_delim delim l) as [tok [r |]]; simpl; now subst l.
Qed.

(** A [getline] that does not fail extracts at least one character. *)
Lemma getline_progress (s : istream) (str : cstring) (delim : ascii) :
  fail (getline s str delim).1 = false ->
  (length (rest (getline s str delim).1) < length (rest s))%nat.
Proof.
  unfold getline. destruct (good s); [| simpl; discriminate].
  pose proof (scan_delim_split delim (rest s)) as Hsplit.
  destruct (scan_delim delim (rest s)) as [tok [r |]]; simpl.
  - intros _. rewrite Hsplit, length_app. simpl. lia.
  - destruct tok as [| c tok]; [discriminate |].
    intros _. rewrite Hsplit. simpl. lia.
Qed.

Lemma csv_lines_total (fuel : nat) (s : istream) (line : cstring) (w : world) :
  (length (rest s) < fuel)%nat -> csv_lines fuel s line w <> OutOfFuel.
Proof.
  revert s line w. induction fuel as [| fuel IH]; intros s line w Hfuel; [lia |].
  simpl. pose proof (getline_progress s line newline) as Hprog.
  destruct (getline s line newline) as [s1 line1]. simpl in Hprog.
  destruct (fail s1); [discriminate |].
  specialize (Hprog eq_refl).
  destruct (decode_csv line1); try discriminate; apply IH; lia.
Qed.

Lemma getline_rest_le (s : istream) (str : cstring) (delim : ascii) :
  (length (rest (getline s str delim).1) <= length (rest s))%nat.
Proof.
  unfold getline. destruct (good s); [| simpl; lia].
  pose proof (scan_delim_split delim (rest s)) as Hsplit.
  destruct (scan_delim delim (rest s)) as [tok [r |]]; simpl; [| lia].
  rewrite Hsplit, length_app. simpl. lia.
Qed.

(** [loadFromCSV] always comes to an end. *)
Lemma loadFromCSV_total (name : string) (w : world) :
  loadFromCSV name w <> OutOfFuel.
Proof.
  unfold loadFromCSV. destruct (files w !! name) as [content |]; [| discriminate].
  pose proof (getline_rest_le (stream_of content) [] newline) as Hle.
  destruct (getline (stream_of content) [] newline) as [s line].
  apply csv_lines_total. simpl in Hle. lia.
Qed.

Lemma csv_lines_lines (lines : list cstring) (fuel : nat) (buf line : cstring)
    (p : nat) (w : world) :
  Forall (fun l => newline ∉ l) lines ->
  (length lines < fuel)%nat ->
  csv_lines fuel
    (Istream buf (concat (map (fun l => l ++ [newline]) lines)) p false false)
    line w
  = load_lines lines w.
Proof.
  intros Hlines. revert fuel line p w.
  induction Hlines as [| l ls Hl Hls IH]; intros fuel line p w Hfuel;
    (destruct fuel as [| fuel]; [simpl in Hfuel; lia |]).
  - reflexivity.
  - cbn [map concat csv_lines load_lines]. rewrite <- app_assoc. simpl app.
    rewrite getline_delim by exact Hl. simpl fail. cbv iota.
    simpl in Hfuel.
    destruct (decode_csv l) as [record | |]; try reflexivity; apply IH; lia.
Qed.

Lemma length_concat_lines (lines : list cstring) :
  (length lines <= length (concat (map (fun l => l ++ [newline]) lines)))%nat.
Proof.
  induction lines as [| l ls IH]; simpl; [lia |].
  rewrite !length_app. simpl. lia.
Qed.

Lemma loadFromCSV_image (name : string) (w : world) (header : cstring)
    (lines : list cstring) :
  newline ∉ header -> Forall (fun l => newline ∉ l) lines ->
  files w !! name = Some (csv_image header lines) ->
  loadFromCSV name w = load_lines lines w.
Proof.
  intros Hheader Hlines Hfile. unfold loadFromCSV. rewrite Hfile.
  unfold csv_image, stream_of. rewrite getline_delim by exact Hheader.
  apply csv_lines_lines; [exact Hlines |].
  rewrite length_app. simpl. pose proof (length_concat_lines lines). lia.
Qed.

(** A line whose conversion throws leaves no trace; a line that converts is
    stored after what the earlier lines stored. *)
Lemma load_lines_app (pre post : list cstring) (w w1 : world) :
  load_lines pre w = Returned true w1 ->
  load_lines (pre ++ post) w = load_lines post w1.
Proof.
  revert w. induction pre as [| l pre IH]; intros w; simpl.
  - intros H. now inversion H.
  - destruct (decode_csv l); try discriminate; apply IH.
Qed.

Lemma load_lines_decoded (lines : list cstring) (w : world) :
  Forall (fun l => decode_csv l <> stod_out_of_range) lines ->
  load_lines lines w
  = Returned true
      (mkWorld (records w ++ decoded_csv lines) (files w) (unwritable w)).
Proof.
  intros Hok. revert w.
  induction Hok as [| l ls Hl Hls IH]; intros w.
  - simpl. rewrite app_nil_r. now destruct w.
  - unfold decoded_csv. simpl.
    destruct (decode_csv l) as [record | |]; [| | contradiction].
    + rewrite IH. simpl. now rewrite <- app_assoc.
    + apply IH.
Qed.

Lemma load_payloads_app (pre post : list cstring) (w w1 : world) :
  load_payloads pre w = Returned true w1 ->
  load_payloads (pre ++ post) w = load_payloads post w1.
Proof.
  revert w. induction pre as [| l pre IH]; intros w; simpl.
  - intros H. now inversion H.
  - destruct (decode l); try discriminate; apply IH.
Qed.

End CsvLoader.

(** ** The index builder and the positioned read *)

Section Index.
Context `{D : StdDouble}.

Lemma length_frame (q : cstring) : length (frame q) = (4 + length q)%nat.
Proof. unfold frame. now rewrite length_app. Qed.

Lemma frames_app (ps qs : list cstring) :
  frames (ps ++ qs) = frames ps ++ frames qs.
Proof. unfold frames. now rewrite map_app, concat_app. Qed.

Lemma frames_cons (q : cstring) (qs : list cstring) :
  frames (q :: qs) = frame q ++ frames qs.
Proof. reflexivity. Qed.

Lemma length_header_image (tag : cstring) (ver hlen count : Z) :
  length (header_image tag ver hlen count) = (length tag + 11)%nat.
Proof. unfold header_image. rewrite !length_app. simpl. lia. Qed.

Lemma index_frames_entries (payloads : list cstring) (buf tail : cstring)
    (p : nat) (acc : list (cstring * Z)) :
  Forall (fun q : cstring => Z.of_nat (length q) < 2 ^ 32) payloads ->
  index_frames (length payloads)
    (Istream buf (frames payloads ++ tail) p false false) acc
  = Some (acc ++ entries_from p payloads).
Proof.
  intros Hlen. revert p acc.
  induction Hlen as [| q qs Hq Hqs IH]; intros p acc.
  - simpl. now rewrite app_nil_r.
  - simpl length. cbn [index_frames entries_from].
    change (tellg (Istream buf (frames (q :: qs) ++ tail) p false false))
      with (Istream buf (frames (q :: qs) ++ tail) p false false, Z.of_nat p).
    cbv iota beta.
    rewrite frames_cons, <- app_assoc, read_frame by exact Hq.
    rewrite Nat2Z.id, read_vector_exact.
    pose proof (getline_fresh_token q [] comma) as Hkey.
    destruct (getline (stream_of q) [] comma) as [ss z]. simpl in Hkey.
    subst z. rewrite IH. fold (key_of q). simpl gpos.
    now rewrite <- app_assoc.
Qed.

Lemma createPrimaryKeyIndex_image (data idx : string) (w : world)
    (tag : cstring) (ver hlen : Z) (payloads : list cstring) :
  well_formed_store tag payloads ->
  files w !! data = Some (store_image tag ver hlen payloads) ->
  idx ∉ unwritable w -> idx <> data ->
  createPrimaryKeyIndex data idx w
  = Returned true
      (write_file idx (index_text (index_entries tag payloads)) w).
Proof.
  intros (Htag & Hcount & Hlen) Hfile Hidx Hne. unfold createPrimaryKeyIndex.
  rewrite Hfile.
  destruct (decide (idx ∈ unwritable w)) as [Hin | _]; [contradiction |].
  destruct (decide (idx = data)) as [Heq | _]; [contradiction |].
  unfold store_image. rewrite read_header_image by (try exact Htag; lia).
  rewrite Nat2Z.id.
  rewrite <- (app_nil_r (frames payloads)).
  now rewrite index_frames_entries by exact Hlen.
Qed.

Lemma length_entries_from (p : nat) (payloads : list cstring) :
  length (entries_from p payloads) = length payloads.
Proof.
  revert p. induction payloads as [| q qs IH]; intros p; simpl; [reflexivity |].
  now rewrite IH.
Qed.

Lemma entries_from_lookup (payloads : list cstring) (p i : nat) (q : cstring) :
  payloads !! i = Some q ->
  entries_from p payloads !! i
  = Some (key_of q, Z.of_nat (p + length (frames (take i payloads)))).
Proof.
  revert p i. induction payloads as [| q0 qs IH]; intros p i Hi; [discriminate |].
  destruct i as [| i]; simpl in Hi.
  - inversion Hi; subst q0. simpl. now rewrite Nat.add_0_r.
  - cbn [entries_from take]. rewrite frames_cons, length_app, length_frame.
    simpl lookup. rewrite (IH _ _ Hi). do 3 f_equal. lia.
Qed.

Lemma entries_from_lookup_inv (payloads : list cstring) (p i : nat)
    (entry : cstring * Z) :
  entries_from p payloads !! i = Some entry ->
  exists q, payloads !! i = Some q
    /\ entry = (key_of q, Z.of_nat (p + length (frames (take i payloads)))).
Proof.
  intros Hentry.
  assert (Hi : (i < length payloads)%nat).
  { rewrite <- (length_entries_from p). now apply lookup_lt_Some in Hentry. }
  destruct (lookup_lt_is_Some_2 payloads i Hi) as [q Hq].
  exists q. split; [exact Hq |].
  rewrite (entries_from_lookup _ p _ _ Hq) in Hentry. now inversion Hentry.
Qed.

Lemma index_entries_lookup (tag : cstring) (payloads : list cstring) (i : nat)
    (q : cstring) :
  payloads !! i = Some q ->
  index_entries tag payloads !! i
  = Some (key_of q, frame_offset tag payloads i).
Proof. intros Hq. unfold index_entries, frame_offset. now apply entries_from_lookup. Qed.

(** The bytes of a store from the offset of frame [i] on. *)
Lemma drop_store_image (tag : cstring) (ver hlen : Z) (payloads : list cstring)
    (i : nat) (q : cstring) :
  payloads !! i = Some q ->
  drop (Z.to_nat (frame_offset tag payloads i))
    (store_image tag ver hlen payloads)
  = frame q ++ frames (drop (S i) payloads).
Proof.
  intros Hq. unfold frame_offset, store_image. rewrite Nat2Z.id.
  assert (Hsplit : frames payloads
                   = frames (take i payloads) ++ frame q
                       ++ frames (drop (S i) payloads)).
  { now rewrite <- frames_cons, <- frames_app, take_drop_middle. }
  rewrite Hsplit, !app_assoc.
  rewrite <- (app_assoc _ _ (frames (drop (S i) payloads))).
  rewrite drop_app_length'; [reflexivity |].
  rewrite length_app, length_header_image. lia.
Qed.

Lemma readRecordAtOffset_frame (name : string) (w : world) (tag : cstring)
    (ver hlen : Z) (payloads : list cstring) (i : nat) (q : cstring) :
  well_formed_store tag payloads ->
  files w !! name = Some (store_image tag ver hlen payloads) ->
  payloads !! i = Some q ->
  readRecordAtOffset name (frame_offset tag payloads i) w
  = match decode q with
    | stod_value record => Returned record w
    | stod_invalid_argument => Thrown invalid_argument w
    | stod_out_of_range => Thrown out_of_range w
    end.
Proof.
  intros (Htag & Hcount & Hlen) Hfile Hq. unfold readRecordAtOffset.
  rewrite Hfile. unfold seekg, stream_of. simpl failbit. cbv iota.
  destruct (Z.ltb_spec (frame_offset tag payloads i) 0) as [Hneg | _];
    [unfold frame_offset in Hneg; lia |].
  simpl sbuf. rewrite (drop_store_image _ _ _ _ _ _ Hq).
  assert (Hlq : Z.of_nat (length q) < 2 ^ 32).
  { rewrite Forall_forall in Hlen. apply Hlen.
    eapply list_elem_of_lookup_2. exact Hq. }
  rewrite read_frame by exact Hlq.
  now rewrite Nat2Z.id, read_vector_exact.
Qed.

End Index.

(** ** Decimal integers *)

Lemma digit_char_spec (d : Z) :
  0 <= d < 10 ->
  isdigit (digit_char d) = true /\ digit_value (digit_char d) = d
  /\ isspace (digit_char d) = false
  /\ Ascii.eqb (digit_char d) "-" = false
  /\ Ascii.eqb (digit_char d) "+" = false.
Proof.
  intros Hd.
  assert (Hcases : d = 0 \/ d = 1 \/ d = 2 \/ d = 3 \/ d = 4 \/ d = 5
                   \/ d = 6 \/ d = 7 \/ d = 8 \/ d = 9) by lia.
  repeat (destruct Hcases as [-> | Hcases]; [now vm_compute |]).
  subst d. now vm_compute.
Qed.

(** [digits_of] puts in front of [acc] the digits of [n]: at least one, all
    of them digits, and they read back as [n]. *)
Lemma digits_of_spec (fuel : nat) (n : Z) (acc : cstring) :
  0 <= n < 10 ^ Z.of_nat fuel -> (0 < fuel)%nat ->
  exists ds, digits_of fuel n acc = ds ++ acc /\ ds <> []
    /\ Forall (fun c => isdigit c = true) ds
    /\ (forall init, fold_left digits_step ds init
                     = init * 10 ^ Z.of_nat (length ds) + n).
Proof.
  revert n acc. induction fuel as [| fuel IH]; intros n acc Hn Hfuel; [lia |].
  simpl digits_of. destruct (Z.ltb_spec n 10) as [Hlt | Hge].
  - exists [digit_char n].
    destruct (digit_char_spec n ltac:(lia)) as (Hd & Hv & _).
    repeat split; [discriminate | now repeat constructor |].
    intros init. simpl. unfold digits_step. rewrite Hv. lia.
  - assert (Hfuel' : (0 < fuel)%nat).
    { destruct fuel as [| fuel]; [simpl in Hn; lia | lia]. }
    assert (Hn' : 0 <= n / 10 < 10 ^ Z.of_nat fuel).
    { rewrite Nat2Z.inj_succ, Z.pow_succ_r in Hn by lia.
      split; [apply Z.div_pos; lia | apply Z.div_lt_upper_bound; lia]. }
    destruct (IH (n / 10) (digit_char (n mod 10) :: acc) Hn' Hfuel')
      as (ds & Heq & Hne & Hds & Hval).
    destruct (digit_char_spec (n mod 10)
                ltac:(apply Z.mod_pos_bound; lia)) as (Hd & Hv & _).
    exists (ds ++ [digit_char (n mod 10)]).
    repeat split.
    + now rewrite Heq, <- app_assoc.
    + intros Habs. now apply app_eq_nil in Habs as [_ Habs].
    + apply Forall_app. split; [exact Hds | now repeat constructor].
    + intros init. rewrite fold_left_app, Hval. simpl.
      unfold digits_step at 1. rewrite Hv, length_app. simpl length.
      rewrite Nat2Z.inj_add. change (Z.of_nat 1) with 1.
      rewrite Z.pow_add_r by lia.
      pose proof (Z.div_mod n 10 ltac:(lia)). lia.
Qed.

Lemma log2_fuel (n : Z) : 0 <= n -> n < 10 ^ Z.of_nat (S (Z.to_nat (Z.log2 n))).
Proof.
  intros Hn. rewrite Nat2Z.inj_succ, Z2Nat.id by apply Z.log2_nonneg.
  destruct (Z.eq_dec n 0) as [-> | Hne]; [reflexivity |].
  pose proof (Z.log2_spec n ltac:(lia)) as [_ Hlt].
  eapply Z.lt_le_trans; [exact Hlt |].
  apply Z.pow_le_mono_l. pose proof (Z.log2_nonneg n). lia.
Qed.

Lemma insert_integer_spec (n : Z) :
  0 <= n ->
  insert_integer n <> []
  /\ Forall (fun c => isdigit c = true) (insert_integer n)
  /\ digits_value (insert_integer n) = n.
Proof.
  intros Hn. unfold insert_integer.
  destruct (Z.ltb_spec n 0) as [Hneg | _]; [lia |].
  destruct (digits_of_spec (S (Z.to_nat (Z.log2 n))) n []
              (conj Hn (log2_fuel n Hn)) ltac:(lia))
    as (ds & Heq & Hne & Hds & Hval).
  rewrite Heq, app_nil_r. repeat split; try assumption.
  unfold digits_value. fold digits_step. rewrite Hval. lia.
Qed.

(** ** The index scan *)

Lemma span_stop (P : ascii -> bool) (tok r : cstring) (c : ascii) :
  Forall (fun x => P x = true) tok -> P c = false ->
  span P (tok ++ c :: r) = (tok, c :: r).
Proof.
  intros Htok Hc. induction Htok as [| x tok Hx Htok IH]; simpl.
  - now rewrite Hc.
  - now rewrite Hx, IH.
Qed.

Lemma span_all (P : ascii -> bool) (tok : cstring) :
  Forall (fun x => P x = true) tok -> span P tok = (tok, []).
Proof.
  intros Htok. induction Htok as [| x tok Hx Htok IH]; simpl; [reflexivity |].
  now rewrite Hx, IH.
Qed.

Lemma span_split (P : ascii -> bool) (l : cstring) :
  (span P l).1 ++ (span P l).2 = l.
Proof.
  induction l as [| c l IH]; simpl; [reflexivity |].
  destruct (P c); [| reflexivity].
  destruct (span P l) as [tok r]. simpl in *. now rewrite IH.
Qed.

Lemma length_span (P : ascii -> bool) (l : cstring) :
  (length (span P l).1 + length (span P l).2 = length l)%nat.
Proof. rewrite <- length_app. now rewrite span_split. Qed.

(** Skipping white space in front of a token. *)
Lemma skipws_token (buf ws r : cstring) (c : ascii) (p : nat) :
  Forall (fun x => isspace x = true) ws -> isspace c = false ->
  skipws (Istream buf (ws ++ c :: r) p false false)
  = Istream buf (c :: r) (p + length ws) false false.
Proof.
  intros Hws Hc. unfold skipws. simpl. now rewrite span_stop.
Qed.

(** Extracting a key that is followed by white space. *)
Lemma extract_string_token (buf ws k r str : cstring) (c : ascii) (p : nat) :
  Forall (fun x => isspace x = true) ws ->
  k <> [] -> Forall (fun x => isspace x = false) k -> isspace c = true ->
  extract_string (Istream buf (ws ++ k ++ c :: r) p false false) str
  = (Istream buf (c :: r) (p + length ws + length k) false false, k).
Proof.
  intros Hws Hne Hk Hc. unfold extract_string.
  destruct k as [| x k]; [contradiction |].
  inversion Hk as [| ? ? Hx Hk']; subst.
  simpl app. rewrite skipws_token by assumption.
  simpl. rewrite Hx. simpl.
  rewrite (span_stop (fun c0 => negb (isspace c0)) k r c).
  - reflexivity.
  - eapply Forall_impl; [exact Hk' |]. intros y Hy. simpl. now rewrite Hy.
  - now rewrite Hc.
Qed.

(** Extracting an offset that was rendered by [insert_integer]. *)
Lemma extract_streamoff_rendered (buf r : cstring) (c : ascii) (p : nat)
    (off x : Z) :
  0 <= off <= streamoff_max -> isdigit c = false ->
  exists p',
    extract_streamoff
      (Istream buf (space :: insert_integer off ++ c :: r) p false false) x
    = (Istream buf (c :: r) p' false false, off).
Proof.
  intros Hoff Hc.
  destruct (insert_integer_spec off ltac:(lia)) as (Hne & Hds & Hval).
  destruct (insert_integer off) as [| d ds] eqn:Hrender; [contradiction |].
  pose proof Hds as Hall. apply Forall_cons in Hds as [Hd Hds'].
  assert (Hdspace : isspace d = false /\ Ascii.eqb d "-" = false
                    /\ Ascii.eqb d "+" = false).
  { revert Hd. unfold isdigit, isspace.
    destruct (Ascii.eqb_spec d "-") as [-> | _]; [now vm_compute |].
    destruct (Ascii.eqb_spec d "+") as [-> | _]; [now vm_compute |].
    intros Hd. apply andb_true_iff in Hd as [H1 H2].
    apply Nat.leb_le in H1. repeat split.
    apply orb_false_iff. split.
    - apply Nat.eqb_neq. lia.
    - apply andb_false_iff. right. apply Nat.leb_gt. lia. }
  destruct Hdspace as (Hsp & Hminus & Hplus).
  unfold extract_streamoff.
  pose proof (skipws_token buf [space] (ds ++ c :: r) d p
                ltac:(now repeat constructor) Hsp) as Hskip.
  simpl app in Hskip. simpl app. rewrite Hskip.
  cbn [good eofbit failbit negb andb rest sbuf gpos]. rewrite Hminus, Hplus.
  change (d :: ds ++ c :: r) with ((d :: ds) ++ c :: r).
  rewrite (span_stop isdigit (d :: ds) r c Hall Hc).
  rewrite Hval.
  destruct (Z.ltb_spec off streamoff_min) as [Hlo | _];
    [unfold streamoff_min in Hlo; lia |].
  destruct (Z.ltb_spec streamoff_max off) as [Hhi | _]; [lia |].
  eexists. reflexivity.
Qed.

Lemma index_text_cons (entry : cstring * Z) (lines : list (cstring * Z)) :
  index_text (entry :: lines)
  = entry.1 ++ space :: insert_integer entry.2 ++ newline :: index_text lines.
Proof.
  unfold index_text, index_line. cbn [map concat].
  rewrite <- !app_assoc. reflexivity.
Qed.

(** Over the text of well-formed lines the scan returns the offset of the
    first line with the key, or -1. *)
Lemma index_scan_text (lines : list (cstring * Z)) (fuel : nat)
    (buf ws cur key : cstring) (p : nat) (off0 : Z) :
  Forall well_formed_entry lines ->
  Forall (fun x => isspace x = true) ws ->
  (length lines < fuel)%nat ->
  index_scan fuel (Istream buf (ws ++ index_text lines) p false false)
    cur off0 key
  = Some (default (-1) (first_match key lines)).
Proof.
  intros Hlines. revert fuel ws cur p off0.
  induction Hlines as [| [k off] ls (Hk & Hnosp & Hoff) Hls IH];
    intros fuel ws cur p off0 Hws Hfuel;
    (destruct fuel as [| fuel]; [simpl in Hfuel; lia |]).
  - (* nothing but white space is left: the string extraction fails *)
    cbn [index_scan first_match default]. unfold index_text. simpl concat.
    rewrite app_nil_r. unfold extract_string, skipws.
    cbn [good eofbit failbit negb andb rest sbuf gpos].
    rewrite span_all by exact Hws.
    cbn [good eofbit failbit negb andb rest sbuf gpos].
    unfold extract_streamoff, skipws.
    cbn [good eofbit failbit negb andb rest sbuf gpos set_fail fail].
    reflexivity.
  - simpl in Hk, Hnosp, Hoff, Hfuel.
    cbn [index_scan first_match]. rewrite index_text_cons. cbn [fst snd].
    rewrite (extract_string_token buf ws k _ cur space p Hws Hk Hnosp eq_refl).
    destruct (extract_streamoff_rendered buf (index_text ls) newline
                (p + length ws + length k) off off0 Hoff eq_refl)
      as (p' & Hextract).
    rewrite Hextract. cbn [fail failbit].
    destruct (decide (k = key)) as [Heq | Hne]; [reflexivity |].
    apply (IH fuel [newline] k p' off); [now repeat constructor | lia].
Qed.

(** The scan cannot run out of steps: a turn that does not fail has
    extracted at least one character. *)
Lemma skipws_rest_le (s : istream) :
  (length (rest (skipws s)) <= length (rest s))%nat.
Proof.
  unfold skipws. destruct (good s); [| simpl; lia].
  pose proof (length_span isspace (rest s)) as Hlen.
  destruct (span isspace (rest s)) as [ws r]. simpl in Hlen.
  destruct r; simpl in *; lia.
Qed.

Lemma skipws_not_good (s : istream) :
  good (skipws s) = false -> failbit (skipws s) = true.
Proof.
  unfold skipws. destruct (good s); [| reflexivity].
  destruct (span isspace (rest s)) as [ws [| c r]]; [reflexivity |].
  discriminate.
Qed.

Lemma extract_streamoff_fail (s : istream) (x : Z) :
  good s = false -> failbit (extract_streamoff s x).1 = true.
Proof.
  intros Hs. unfold extract_streamoff.
  assert (Hskip : skipws s = set_fail s) by (unfold skipws; now rewrite Hs).
  rewrite Hskip.
  assert (Hgood : good (set_fail s) = false).
  { unfold good, set_fail. simpl. apply andb_false_r. }
  now rewrite Hgood.
Qed.

Lemma extract_streamoff_rest_le (s : istream) (x : Z) :
  (length (rest (extract_streamoff s x).1) <= length (rest s))%nat.
Proof.
  unfold extract_streamoff. pose proof (skipws_rest_le s) as Hskip.
  destruct (good (skipws s)); [| exact Hskip].
  set (s1 := skipws s) in *.
  assert (Hsign : exists neg r0,
            match rest s1 with
            | c :: r' =>
                if Ascii.eqb c "-" then (true, r')
                else if Ascii.eqb c "+" then (false, r')
                else (false, rest s1)
            | [] => (false, [])
            end = (neg, r0) /\ (length r0 <= length (rest s1))%nat).
  { destruct (rest s1) as [| c r']; [now exists false, [] |].
    destruct (Ascii.eqb c "-"); [exists true, r'; simpl; split; [easy | lia] |].
    destruct (Ascii.eqb c "+"); [exists false, r'; simpl; split; [easy | lia] |].
    now exists false, (c :: r'). }
  destruct Hsign as (neg & r0 & -> & Hr0).
  pose proof (length_span isdigit r0) as Hlen.
  destruct (span isdigit r0) as [ds r]. simpl in Hlen.
  destruct ds as [| d ds]; [simpl; lia |].
  repeat match goal with
         | |- context [if ?b then _ else _] => destruct b
         end; simpl in *; lia.
Qed.

Lemma index_scan_total (fuel : nat) (s : istream) (cur key : cstring) (off : Z) :
  (length (rest s) < fuel)%nat -> index_scan fuel s cur off key <> None.
Proof.
  revert s cur off. induction fuel as [| fuel IH]; intros s cur off Hfuel; [lia |].
  cbn [index_scan].
  destruct (extract_string s cur) as [s1 cur1] eqn:Hstring.
  pose proof (extract_streamoff_rest_le s1 off) as Hle.
  pose proof (extract_streamoff_fail s1 off) as Hfail.
  destruct (extract_streamoff s1 off) as [s2 off2]. simpl in Hle, Hfail.
  destruct (fail s2) eqn:Hs2; [discriminate |].
  destruct (decide (cur1 = key)); [discriminate |].
  apply IH. unfold fail in Hs2.
  (* the string extraction succeeded, hence consumed a character *)
  revert Hstring. unfold extract_string.
  pose proof (skipws_rest_le s) as Hskip.
  destruct (good (skipws s)) eqn:Hgood.
  - pose proof (length_span (fun c => negb (isspace c)) (rest (skipws s))) as Hlen.
    destruct (span _ (rest (skipws s))) as [tok r]. simpl in Hlen.
    intros Heq. inversion Heq; subst s1 cur1. simpl in Hle.
    destruct tok as [| c tok].
    + (* an empty token sets failbit, which the second extraction keeps *)
      rewrite Hfail in Hs2; [discriminate |].
      unfold good. simpl. apply andb_false_r.
    + simpl in Hlen. lia.
  - intros Heq. inversion Heq; subst s1 cur1.
    rewrite Hfail in Hs2; [discriminate | exact Hgood].
Qed.

Section Lookup.
Context `{D : StdDouble}.

(** [searchPrimaryKey] always comes to an end. *)
Lemma searchPrimaryKey_total (idx : string) (key : cstring) (w : world) :
  searchPrimaryKey idx key w <> OutOfFuel.
Proof.
  unfold searchPrimaryKey. destruct (files w !! idx) as [content |]; [| discriminate].
  pose proof (index_scan_total (S (length content)) (stream_of content) [] key 0
                ltac:(simpl; lia)) as Hscan.
  destruct (index_scan _ _ _ _ _); [discriminate | contradiction].
Qed.

Lemma length_index_text (lines : list (cstring * Z)) :
  (length lines <= length (index_text lines))%nat.
Proof.
  induction lines as [| entry ls IH]; [simpl; lia |].
  rewrite index_text_cons, length_app. simpl. rewrite length_app. simpl. lia.
Qed.

Lemma searchPrimaryKey_text (idx : string) (key : cstring) (w : world)
    (lines : list (cstring * Z)) :
  Forall well_formed_entry lines ->
  files w !! idx = Some (index_text lines) ->
  searchPrimaryKey idx key w
  = Returned (default (-1) (first_match key lines)) w.
Proof.
  intros Hlines Hfile. unfold searchPrimaryKey. rewrite Hfile.
  pose proof (index_scan_text lines (S (length (index_text lines)))
                (index_text lines) [] [] key 0 0 Hlines ltac:(constructor)) as Hscan.
  simpl app in Hscan. unfold stream_of. rewrite Hscan; [reflexivity |].
  pose proof (length_index_text lines). lia.
Qed.

End Lookup.

(** ** First match, offsets and line counts *)

Lemma first_match_found (key : cstring) (lines : list (cstring * Z)) (i : nat)
    (off : Z) :
  lines !! i = Some (key, off) ->
  (forall j e, (j < i)%nat -> lines !! j = Some e -> e.1 <> key) ->
  first_match key lines = Some off.
Proof.
  revert i. induction lines as [| entry ls IH]; intros i Hi Hbefore; [discriminate |].
  simpl. destruct i as [| i]; simpl in Hi.
  - inversion Hi; subst entry. simpl.
    destruct (decide (key = key)); [reflexivity | contradiction].
  - destruct (decide (entry.1 = key)) as [Heq | Hne].
    + exfalso. apply (Hbefore 0%nat entry); [lia | reflexivity | exact Heq].
    + apply (IH i Hi). intros j e Hj He.
      apply (Hbefore (S j) e); [lia | exact He].
Qed.

Lemma first_match_none (key : cstring) (lines : list (cstring * Z)) :
  (forall e, e ∈ lines -> e.1 <> key) -> first_match key lines = None.
Proof.
  induction lines as [| entry ls IH]; intros Hnone; [reflexivity |].
  simpl. destruct (decide (entry.1 = key)) as [Heq | Hne].
  - exfalso. apply (Hnone entry); [left | exact Heq].
  - apply IH. intros e He. apply Hnone. now right.
Qed.

Lemma length_frames_take_le (payloads : list cstring) (i j : nat) :
  (i <= j)%nat ->
  (length (frames (take i payloads)) <= length (frames (take j payloads)))%nat.
Proof.
  intros Hij.
  rewrite <- (take_drop i (take j payloads)), frames_app, length_app.
  rewrite take_take, Nat.min_l by exact Hij. lia.
Qed.

Lemma frame_offset_mono (tag : cstring) (payloads : list cstring) (i j : nat) :
  (i <= j)%nat -> frame_offset tag payloads i <= frame_offset tag payloads j.
Proof.
  intros Hij. unfold frame_offset.
  pose proof (length_frames_take_le payloads i j Hij). lia.
Qed.

Lemma count_char_app (c : ascii) (a b : cstring) :
  count_char c (a ++ b) = (count_char c a + count_char c b)%nat.
Proof. unfold count_char. now rewrite filter_app, length_app. Qed.

Lemma count_char_absent (c : ascii) (text : cstring) :
  c ∉ text -> count_char c text = 0%nat.
Proof.
  intros Hnot. unfold count_char.
  induction text as [| x text IH]; [reflexivity |].
  apply not_elem_of_cons in Hnot as [Hne Hnot].
  rewrite filter_cons_False by congruence. now apply IH.
Qed.

Lemma insert_integer_no_newline (n : Z) : 0 <= n -> newline ∉ insert_integer n.
Proof.
  intros Hn Hin.
  destruct (insert_integer_spec n Hn) as (_ & Hds & _).
  rewrite Forall_forall in Hds. specialize (Hds _ Hin). discriminate.
Qed.

Lemma count_newline_index_text (lines : list (cstring * Z)) :
  Forall (fun entry : cstring * Z => (newline ∉ entry.1) /\ 0 <= entry.2) lines ->
  count_char newline (index_text lines) = length lines.
Proof.
  induction 1 as [| entry ls [Hkey Hoff] Hls IH]; [reflexivity |].
  rewrite index_text_cons.
  change (entry.1 ++ space :: insert_integer entry.2 ++ newline :: index_text ls)
    with (entry.1 ++ [space] ++ insert_integer entry.2 ++ [newline]
            ++ index_text ls).
  rewrite !count_char_app, IH.
  rewrite (count_char_absent _ _ Hkey).
  rewrite (count_char_absent _ _ (insert_integer_no_newline _ Hoff)).
  reflexivity.
Qed.

(** ** The properties of the specification *)

Section Claims.
Context `{D : StdDouble} {L : StdDoubleLaws D}.

(** C1 (amended).  Round trip of the record codec.  [encode] renders the six
    fields as one comma-separated line and [decode] splits that line by
    position into the same six texts; decoding the encoding of a record
    gives the record back when none of its four text fields holds a comma
    and when each of its two coordinates is the value [std::stod] reads from
    the text the stream insertion renders for it. *)
Theorem decode_encode (r : ZipCodeRecord) :
  comma ∉ zipCode r -> comma ∉ placeName r -> comma ∉ state r ->
  comma ∉ county r ->
  stod (insert_double (latitude r)) = stod_value (latitude r) ->
  stod (insert_double (longitude r)) = stod_value (longitude r) ->
  getline_fields (encode r)
  = mkFields (zipCode r) (placeName r) (state r) (county r)
      (insert_double (latitude r)) (insert_double (longitude r))
  /\ decode (encode r) = stod_value r.
Proof.
  intros Hz Hp Hs Hc Hlat Hlng.
  pose proof (encode_fields r Hz Hp Hs Hc) as Hfields.
  split; [exact Hfields |].
  unfold decode, decode_with. rewrite Hfields. simpl.
  unfold convert_coordinates. rewrite Hlat, Hlng.
  now destruct r.
Qed.

(** C6 (amended).  When the index file cannot be opened, [searchPrimaryKey]
    returns -1, the value it also returns when no line has the key, and
    [searchZipCode] reports the zip code as not found: no error reaches the
    caller. *)
Theorem index_open_failure_is_not_found (idx : string) (key : cstring)
    (w : world) :
  files w !! idx = None ->
  searchPrimaryKey idx key w = Returned (-1) w
  /\ (idx = indexFile_name ->
      searchZipCode key w = Returned (not_found key) w).
Proof.
  intros Hfile.
  assert (Hsearch : searchPrimaryKey idx key w = Returned (-1) w).
  { unfold searchPrimaryKey. now rewrite Hfile. }
  split; [exact Hsearch |].
  intros ->. unfold searchZipCode. rewrite Hsearch.
  destruct (decide (-1 <> -1)) as [Hne | _]; [contradiction | reflexivity].
Qed.


(** C8.  For a buffer whose record count and whose encoded record lengths
    fit the unsigned 32-bit fields, the writer produces the header, with a
    record count equal to the number of records, followed by one frame per
    record in the order of the buffer; frame [i] is the unsigned 32-bit
    length of the encoding of record [i] followed by that encoding. *)
Theorem writer_layout (input output : string) (w : world) :
  output ∉ unwritable w ->
  Z.of_nat (length (records w)) < 2 ^ 32 ->
  Forall (fun r => Z.of_nat (length (encode r)) < 2 ^ 32) (records w) ->
  exists out,
    convertToLengthIndicatedFile input output w
    = Returned true (write_file output out w)
    /\ out = write_header (Z.of_nat (length (records w)))
             ++ concat (map (fun r =>
                  u32_bytes (Z.of_nat (length (encode r))) ++ encode r)
                  (records w))
    /\ (read_header (stream_of out)).2 = Some (Z.of_nat (length (records w)))
    /\ (forall i r, records w !! i = Some r ->
          drop (Z.to_nat (frame_offset fileType (map encode (records w)) i)) out
          = (u32_bytes (Z.of_nat (length (encode r))) ++ encode r)
              ++ frames (drop (S i) (map encode (records w))))
    /\ length out
       = (33 + length (frames (map encode (records w))))%nat.
Proof.
  intros Hout Hcount Hlen.
  exists (store_image fileType version headerSize (map encode (records w))).
  split; [now apply convertToLengthIndicatedFile_image |].
  split.
  { unfold store_image. rewrite <- write_header_image, length_map.
    f_equal. unfold frames. now rewrite map_map. }
  split.
  { unfold store_image. rewrite read_header_image.
    - simpl. now rewrite length_map.
    - exact fileType_no_NUL.
    - rewrite length_map. lia. }
  split.
  { intros i r Hr.
    apply (drop_store_image fileType version headerSize).
    now rewrite list_lookup_fmap, Hr. }
  unfold store_image. now rewrite length_app, length_header_image.
Qed.

(** C10.  Neither bulk load clears the container.  The outcome of a load on
    a buffer that already holds records is the outcome of the same load on
    an empty buffer with the held records, unchanged and in place, in front
    of the loaded ones; both loads come to an end.  The records decoded from
    the file are appended: after the load of a CSV file, or of a well-formed
    store, in which no conversion leaves through [std::out_of_range], the
    buffer is the buffer of before followed by the records the lines, or the
    payloads, decode to, in their order; and [loadFromCSV] followed by
    [loadFromLengthIndicatedFile] leaves the records of both loads after the
    held ones. *)
Theorem loaders_append (csv store : string) (w : world) :
  loadFromCSV csv w = prepend (records w) (loadFromCSV csv (emptied w))
  /\ loadFromLengthIndicatedFile store w
     = prepend (records w) (loadFromLengthIndicatedFile store (emptied w))
  /\ loadFromCSV csv w <> OutOfFuel
  /\ loadFromLengthIndicatedFile store w <> OutOfFuel
  /\ (forall header lines,
        newline ∉ header -> Forall (fun l => newline ∉ l) lines ->
        files w !! csv = Some (csv_image header lines) ->
        Forall (fun l => decode_csv l <> stod_out_of_range) lines ->
        loadFromCSV csv w
        = Returned true
            (mkWorld (records w ++ decoded_csv lines) (files w) (unwritable w)))
  /\ (forall tag ver hlen payloads,
        well_formed_store tag payloads ->
        files w !! store = Some (store_image tag ver hlen payloads) ->
        Forall (fun p => decode p <> stod_out_of_range) payloads ->
        loadFromLengthIndicatedFile store w
        = Returned true
            (mkWorld (records w ++ decoded payloads) (files w) (unwritable w)))
  /\ (forall header lines tag ver hlen payloads,
        newline ∉ header -> Forall (fun l => newline ∉ l) lines ->
        files w !! csv = Some (csv_image header lines) ->
        Forall (fun l => decode_csv l <> stod_out_of_range) lines ->
        well_formed_store tag payloads ->
        files w !! store = Some (store_image tag ver hlen payloads) ->
        Forall (fun p => decode p <> stod_out_of_range) payloads ->
        and_then (loadFromCSV csv w)
          (fun _ w1 => loadFromLengthIndicatedFile store w1)
        = Returned true
            (mkWorld (records w ++ decoded_csv lines ++ decoded payloads)
               (files w) (unwritable w))).
Proof.
  assert (Hcsv : forall header lines,
            newline ∉ header -> Forall (fun l => newline ∉ l) lines ->
            files w !! csv = Some (csv_image header lines) ->
            Forall (fun l => decode_csv l <> stod_out_of_range) lines ->
            loadFromCSV csv w
            = Returned true
                (mkWorld (records w ++ decoded_csv lines) (files w)
                   (unwritable w))).
  { intros header lines Hheader Hlines Hfile Hok.
    rewrite (loadFromCSV_image csv w header lines Hheader Hlines Hfile).
    now apply load_lines_decoded. }
  assert (Hstore : forall w0 tag ver hlen payloads,
            well_formed_store tag payloads ->
            files w0 !! store = Some (store_image tag ver hlen payloads) ->
            Forall (fun p => decode p <> stod_out_of_range) payloads ->
            loadFromLengthIndicatedFile store w0
            = Returned true
                (mkWorld (records w0 ++ decoded payloads) (files w0)
                   (unwritable w0))).
  { intros w0 tag ver hlen payloads Hwf Hfile Hok.
    rewrite (loadFromLengthIndicatedFile_image store w0 tag ver hlen payloads
               Hwf Hfile).
    now apply load_payloads_decoded. }
  split; [| split; [| split; [| split; [| split; [| split]]]]].
  - destruct w as [rs fs uw]. unfold emptied. simpl records.
    unfold loadFromCSV. simpl files.
    destruct (fs !! csv) as [content |].
    + destruct (getline (stream_of content) [] newline) as [s line].
      rewrite <- (app_nil_r rs) at 1. apply csv_lines_prepend.
    + simpl. now rewrite app_nil_r.
  - destruct w as [rs fs uw]. unfold emptied. simpl records.
    unfold loadFromLengthIndicatedFile. simpl files.
    destruct (fs !! store) as [content |].
    + destruct (read_header (stream_of content)) as [s [recordCount |]];
        [| reflexivity].
      rewrite <- (app_nil_r rs) at 1. apply load_frames_prepend.
    + simpl. now rewrite app_nil_r.
  - apply loadFromCSV_total.
  - unfold loadFromLengthIndicatedFile.
    destruct (files w !! store) as [content |]; [| discriminate].
    destruct (read_header (stream_of content)) as [s [recordCount |]];
      [| discriminate].
    generalize (Z.to_nat recordCount) s w.
    induction n as [| n IH]; intros s0 w0; simpl; [discriminate |].
    destruct (read_u32 s0) as [s1 [len |]]; [| discriminate].
    destruct (read_vector s1 (Z.to_nat len)) as [s2 recordString].
    destruct (decode recordString); try discriminate; apply IH.
  - exact Hcsv.
  - apply Hstore.
  - intros header lines tag ver hlen payloads Hheader Hlines Hfile Hok Hwf
      Hfile' Hok'.
    rewrite (Hcsv header lines Hheader Hlines Hfile Hok). cbn [and_then].
    rewrite (Hstore (mkWorld (records w ++ decoded_csv lines) (files w)
                        (unwritable w)) tag ver hlen payloads Hwf Hfile' Hok').
    simpl. now rewrite <- app_assoc.
Qed.

End Claims.

Section MoreClaims.
Context `{D : StdDouble}.

(** C2 (amended).  Over a well-formed store the index builder writes one
    line per frame, and every line [(k, off)] names a frame: [k] is the key
    token of its payload, [off] is the byte position of the first byte of
    its length field, and the store holds the frame's four length bytes and
    its payload from there on.  The positioned read at [off] gives what the
    decoding of that payload gives: the record, whose key is [k], when the
    payload decodes, and the exception of the conversion when it does
    not. *)
Theorem index_offsets_correct (data idx : string) (w : world) (tag : cstring)
    (ver hlen : Z) (payloads : list cstring) :
  well_formed_store tag payloads ->
  files w !! data = Some (store_image tag ver hlen payloads) ->
  idx ∉ unwritable w -> idx <> data ->
  exists lines w',
    createPrimaryKeyIndex data idx w = Returned true w'
    /\ files w' !! idx = Some (index_text lines)
    /\ length lines = length payloads
    /\ forall k off, (k, off) ∈ lines ->
         exists i p,
           payloads !! i = Some p
           /\ lines !! i = Some (k, off)
           /\ k = key_of p
           /\ off = frame_offset tag payloads i
           /\ drop (Z.to_nat off) (store_image tag ver hlen payloads)
              = (u32_bytes (Z.of_nat (length p)) ++ p)
                  ++ frames (drop (S i) payloads)
           /\ readRecordAtOffset data off w'
              = match decode p with
                | stod_value r => Returned r w'
                | stod_invalid_argument => Thrown invalid_argument w'
                | stod_out_of_range => Thrown out_of_range w'
                end
           /\ forall r, decode p = stod_value r -> zipCode r = k.
Proof.
  intros Hwf Hfile Hidx Hne.
  exists (index_entries tag payloads),
    (write_file idx (index_text (index_entries tag payloads)) w).
  split; [now apply (createPrimaryKeyIndex_image data idx w tag ver hlen) |].
  split; [simpl; apply lookup_insert_eq |].
  split; [apply length_entries_from |].
  intros k off Hin.
  apply list_elem_of_lookup in Hin as [i Hi].
  pose proof Hi as Hline.
  apply entries_from_lookup_inv in Hi as (p & Hp & Hentry).
  inversion Hentry as [[Hk Hoff]].
  exists i, p.
  assert (Hfile' : files (write_file idx
                            (index_text (index_entries tag payloads)) w)
                   !! data = Some (store_image tag ver hlen payloads)).
  { simpl. now rewrite lookup_insert_ne. }
  split; [exact Hp |]. split; [rewrite <- Hentry; exact Hline |].
  split; [reflexivity |]. split; [reflexivity |].
  split; [apply (drop_store_image tag ver hlen payloads i p Hp) |].
  split.
  { change (Z.of_nat (length tag + 11 + length (frames (take i payloads))))
      with (frame_offset tag payloads i).
    exact (readRecordAtOffset_frame data _ tag ver hlen payloads i p Hwf
             Hfile' Hp). }
  intros r Hr. apply (decode_with_zipCode stod). exact Hr.
Qed.

(** C3 (amended).  Over an index file of well-formed lines (a key that is
    not empty and holds no white space, a space, an offset in decimal) the
    lookup scans the lines from the top and resolves to the first line whose
    key is the requested one: it returns the offset of a line with the key
    when no line before it has the key, and -1, reported as not found, when
    no line has it.  For the index of a store this is the frame written
    first among the frames with the key, the one of lowest offset. *)
Theorem lookup_first_match (idx : string) (key : cstring) (w : world)
    (lines : list (cstring * Z)) :
  Forall well_formed_entry lines ->
  files w !! idx = Some (index_text lines) ->
  (forall i off,
      lines !! i = Some (key, off) ->
      (forall j e, (j < i)%nat -> lines !! j = Some e -> e.1 <> key) ->
      searchPrimaryKey idx key w = Returned off w /\ off <> -1)
  /\ ((forall e, e ∈ lines -> e.1 <> key) ->
      searchPrimaryKey idx key w = Returned (-1) w
      /\ (idx = indexFile_name ->
          searchZipCode key w = Returned (not_found key) w))
  /\ (forall tag payloads i p,
        lines = index_entries tag payloads ->
        payloads !! i = Some p -> key_of p = key ->
        (forall j q, (j < i)%nat -> payloads !! j = Some q -> key_of q <> key) ->
        searchPrimaryKey idx key w = Returned (frame_offset tag payloads i) w
        /\ forall j q, payloads !! j = Some q -> key_of q = key ->
             frame_offset tag payloads i <= frame_offset tag payloads j).
Proof.
  intros Hlines Hfile.
  pose proof (searchPrimaryKey_text idx key w lines Hlines Hfile) as Hsearch.
  split; [| split].
  - intros i off Hi Hbefore.
    rewrite Hsearch, (first_match_found key lines i off Hi Hbefore).
    split; [reflexivity |].
    rewrite Forall_forall in Hlines.
    destruct (Hlines _ (list_elem_of_lookup_2 _ _ _ Hi)) as (_ & _ & Hoff).
    simpl in Hoff. lia.
  - intros Hnone. rewrite (first_match_none key lines Hnone) in Hsearch.
    split; [exact Hsearch |].
    intros ->. unfold searchZipCode. rewrite Hsearch.
    destruct (decide (-1 <> -1)) as [Hne | _]; [contradiction | reflexivity].
  - intros tag payloads i p -> Hp Hkey Hbefore.
    split.
    + rewrite Hsearch.
      rewrite (first_match_found key _ i (frame_offset tag payloads i));
        [reflexivity | |].
      * rewrite <- Hkey. now apply index_entries_lookup.
      * intros j e Hj He.
        apply entries_from_lookup_inv in He as (q & Hq & ->). simpl.
        now apply (Hbefore j q).
    + intros j q Hq Hqkey. apply frame_offset_mono.
      destruct (Nat.le_gt_cases i j) as [Hle | Hgt]; [exact Hle |].
      exfalso. now apply (Hbefore j q).
Qed.

(** C4.  The index built over a well-formed store holds one line per frame,
    as many lines as the record count the header declares, and the line of
    frame [i] carries the key token of its payload and its offset whether or
    not the payload decodes as a record.  When no key token holds a newline
    the index file has that many newline characters. *)
Theorem index_one_line_per_frame (data idx : string) (w : world)
    (tag : cstring) (ver hlen : Z) (payloads : list cstring) :
  well_formed_store tag payloads ->
  files w !! data = Some (store_image tag ver hlen payloads) ->
  idx ∉ unwritable w -> idx <> data ->
  exists lines,
    createPrimaryKeyIndex data idx w
    = Returned true (write_file idx (index_text lines) w)
    /\ length lines = length payloads
    /\ (read_header (stream_of (store_image tag ver hlen payloads))).2
       = Some (Z.of_nat (length lines))
    /\ (forall i p, payloads !! i = Some p ->
          lines !! i = Some (key_of p, frame_offset tag payloads i))
    /\ (Forall (fun p => newline ∉ key_of p) payloads ->
        count_char newline (index_text lines) = length payloads).
Proof.
  intros Hwf Hfile Hidx Hne. exists (index_entries tag payloads).
  split; [now apply (createPrimaryKeyIndex_image data idx w tag ver hlen) |].
  assert (Hlength : length (index_entries tag payloads) = length payloads)
    by apply length_entries_from.
  split; [exact Hlength |].
  split.
  { destruct Hwf as (Htag & Hcount & _). unfold store_image.
    rewrite read_header_image by (try exact Htag; lia).
    simpl. now rewrite Hlength. }
  split; [intros i p Hp; now apply index_entries_lookup |].
  intros Hkeys. rewrite <- Hlength. apply count_newline_index_text.
  apply Forall_lookup. intros i entry Hentry.
  apply entries_from_lookup_inv in Hentry as (q & Hq & ->). simpl.
  split; [| lia].
  rewrite Forall_forall in Hkeys. apply Hkeys.
  exact (list_elem_of_lookup_2 _ _ _ Hq).
Qed.

End MoreClaims.

Section DecodePolicies.
Context `{D : StdDouble} {L : StdDoubleLaws D}.





(** C9 (amended).  A decode failure is handled differently on the two read
    paths, and differently for the two exceptions of [std::stod].  When the
    conversion of a frame's coordinates throws [std::invalid_argument], the
    bulk load skips the frame and goes on: it gives what it gives on the
    store without that frame, and when no other conversion leaves through
    [std::out_of_range] it returns [true] with fewer records gained than the
    store declares; the positioned read of the same frame lets the exception
    leave [readRecordAtOffset], and [searchZipCode] passes it on to its
    caller.  When the conversion throws [std::out_of_range], no path catches
    it: the bulk load ends with the exception, the records of the frames
    before staying in the buffer, and so do the positioned read and
    [searchZipCode]. *)
Theorem decode_failure_asymmetry (name : string) (w : world) (tag : cstring)
    (ver hlen : Z) (payloads : list cstring) (i : nat) (p : cstring) :
  well_formed_store tag payloads ->
  files w !! name = Some (store_image tag ver hlen payloads) ->
  payloads !! i = Some p ->
  (decode p = stod_invalid_argument ->
   loadFromLengthIndicatedFile name w
   = load_payloads (take i payloads ++ drop (S i) payloads) w
   /\ (Forall (fun q => decode q <> stod_out_of_range) payloads ->
       loadFromLengthIndicatedFile name w
       = Returned true
           (mkWorld (records w ++ decoded payloads) (files w) (unwritable w))
       /\ (length (decoded payloads) < length payloads)%nat)
   /\ readRecordAtOffset name (frame_offset tag payloads i) w
      = Thrown invalid_argument w
   /\ (forall key,
         name = dataFile_name ->
         searchPrimaryKey indexFile_name key w
         = Returned (frame_offset tag payloads i) w ->
         searchZipCode key w = Thrown invalid_argument w))
  /\ (decode p = stod_out_of_range ->
      (Forall (fun q => decode q <> stod_out_of_range) (take i payloads) ->
       loadFromLengthIndicatedFile name w
       = Thrown out_of_range
           (mkWorld (records w ++ decoded (take i payloads)) (files w)
              (unwritable w)))
      /\ readRecordAtOffset name (frame_offset tag payloads i) w
         = Thrown out_of_range w
      /\ (forall key,
            name = dataFile_name ->
            searchPrimaryKey indexFile_name key w
            = Returned (frame_offset tag payloads i) w ->
            searchZipCode key w = Thrown out_of_range w)).
Proof.
  intros Hwf Hfile Hp.
  pose proof (readRecordAtOffset_frame name w tag ver hlen payloads i p Hwf
                Hfile Hp) as Hread.
  pose proof (loadFromLengthIndicatedFile_image name w tag ver hlen _ Hwf Hfile)
    as Hload.
  assert (Hoff : frame_offset tag payloads i <> -1)
    by (unfold frame_offset; lia).
  split; intros Hdec; rewrite Hdec in Hread.
  - split.
    { rewrite Hload. rewrite <- (take_drop_middle payloads i p Hp) at 1.
      now apply load_payloads_skip. }
    split.
    { intros Hrange. split.
      - rewrite Hload. now apply load_payloads_decoded.
      - exact (length_decoded_lt payloads i p Hp Hdec). }
    split; [exact Hread |].
    intros key -> Hsearch. unfold searchZipCode. rewrite Hsearch.
    destruct (decide (frame_offset tag payloads i <> -1)) as [_ | Habs];
      [| contradiction].
    now rewrite Hread.
  - split.
    { intros Hbefore. rewrite Hload.
      rewrite <- (take_drop_middle payloads i p Hp) at 1.
      rewrite (load_payloads_app _ _ w _
                 (load_payloads_decoded (take i payloads) w Hbefore)).
      simpl. now rewrite Hdec. }
    split; [exact Hread |].
    intros key -> Hsearch. unfold searchZipCode. rewrite Hsearch.
    destruct (decide (frame_offset tag payloads i <> -1)) as [_ | Habs];
      [| contradiction].
    now rewrite Hread.
Qed.

(** [searchZipCode] always comes to an end. *)
Lemma searchZipCode_total (key : cstring) (w : world) :
  searchZipCode key w <> OutOfFuel.
Proof.
  unfold searchZipCode.
  pose proof (searchPrimaryKey_total indexFile_name key w) as Hsearch.
  destruct (searchPrimaryKey indexFile_name key w) as [offset w1 | | |];
    try discriminate; [| contradiction].
  destruct (decide (offset <> -1)); [| discriminate].
  unfold readRecordAtOffset.
  destruct (files w1 !! dataFile_name) as [content |]; [| discriminate].
  destruct (read_u32 _) as [s1 [len |]]; [| discriminate].
  destruct (read_vector s1 (Z.to_nat len)) as [s2 recordString].
  destruct (decode recordString); discriminate.
Qed.

End DecodePolicies.

(** ** Closed instances on binary64 *)

Section Instances.
#[local] Existing Instance binary64.
#[local] Existing Instance binary64_laws.

Ltac by_decide := apply (bool_decide_unpack _); vm_cast_no_check I.
Ltac by_compute :=
  match goal with |- _ = ?b => vm_cast_no_check (@eq_refl _ b) end.
Ltac conjuncts := repeat match goal with |- _ /\ _ => split end.

(** The example of the specification: the three records are stored, the
    index is built, the lookup of [00002] prints the CA record and the
    lookup of [99999] reports that the zip code was not found. *)
Example specification_example :
  exists w1 w2,
    convertToLengthIndicatedFile csv_name dataFile_name loaded_world
    = Returned true w1
    /\ createPrimaryKeyIndex dataFile_name indexFile_name w1 = Returned true w2
    /\ files w2 !! indexFile_name
       = Some (lit "00001 33" ++ newline :: lit "00002 53" ++ newline
                 :: lit "00003 73" ++ [newline])
    /\ searchZipCode (lit "00002") w2 = Returned (printRecord record_ca) w2
    /\ searchZipCode (lit "99999") w2 = Returned (not_found (lit "99999")) w2.
Proof.
  exists (write_file dataFile_name
            (store_image fileType version headerSize (map encode three_records))
            loaded_world).
  exists (write_file indexFile_name
            (index_text [(lit "00001", 33); (lit "00002", 53); (lit "00003", 73)])
            (write_file dataFile_name
               (store_image fileType version headerSize
                  (map encode three_records))
               loaded_world)).
  conjuncts; by_compute.
Qed.

(** The record of the example survives the round trip. *)
Lemma decode_encode_witness : decode (encode record_ny) = stod_value record_ny.
Proof.
  refine (proj2 (decode_encode record_ny _ _ _ _ _ _));
    try by_decide; by_compute.
Defined.

(** C1 fails as stated.  Both records have finite coordinates.  The first
    has a comma in its place name: its encoding splits into shifted fields
    and does not decode at all.  The second has a longitude of seven
    significant digits: the stream renders six, and the decoded longitude is
    another double. *)
Lemma roundtrip_counterexample :
  (stod (insert_double (latitude record_comma))
   = stod_value (latitude record_comma)
   /\ stod (insert_double (longitude record_comma))
      = stod_value (longitude record_comma)
   /\ decode (encode record_comma) = stod_invalid_argument
   /\ decode (encode record_comma) <> stod_value record_comma)
  /\ (encode record_precise = lit "99501,Anchorage,AK,Anchorage,61.2181,-149.9"
      /\ decode (encode record_precise)
         = stod_value
             (mkZipCodeRecord (lit "99501") (lit "Anchorage") (lit "AK")
                (lit "Anchorage") (dbl "61.2181") (dbl "-149.9"))
      /\ decode (encode record_precise) <> stod_value record_precise).
Proof.
  assert (Hcomma : decode (encode record_comma) = stod_invalid_argument)
    by by_compute.
  assert (Hprecise : decode (encode record_precise)
                     = stod_value
                         (mkZipCodeRecord (lit "99501") (lit "Anchorage")
                            (lit "AK") (lit "Anchorage") (dbl "61.2181")
                            (dbl "-149.9"))) by by_compute.
  conjuncts; try by_compute.
  - rewrite Hcomma. discriminate.
  - rewrite Hprecise. intros H.
    assert (Hlng : dbl "-149.9" = dbl "-149.9003")
      by exact (f_equal longitude (f_equal
                  (fun o => match o with
                            | stod_value r => r
                            | _ => record_precise
                            end) H)).
    vm_compute in Hlng. discriminate Hlng.
Qed.

(** Every line of the index of the written store names a frame, and the
    positioned read gives what its payload decodes to. *)
Lemma index_offsets_correct_witness :
  exists lines w',
    createPrimaryKeyIndex dataFile_name indexFile_name stored_world
    = Returned true w'
    /\ files w' !! indexFile_name = Some (index_text lines)
    /\ length lines = length (map encode three_records)
    /\ forall k off, (k, off) ∈ lines ->
         exists i p,
           map encode three_records !! i = Some p
           /\ lines !! i = Some (k, off)
           /\ k = key_of p
           /\ off = frame_offset fileType (map encode three_records) i
           /\ drop (Z.to_nat off)
                (store_image fileType version headerSize
                   (map encode three_records))
              = (u32_bytes (Z.of_nat (length p)) ++ p)
                  ++ frames (drop (S i) (map encode three_records))
           /\ readRecordAtOffset dataFile_name off w'
              = match decode p with
                | stod_value r => Returned r w'
                | stod_invalid_argument => Thrown invalid_argument w'
                | stod_out_of_range => Thrown out_of_range w'
                end
           /\ forall r, decode p = stod_value r -> zipCode r = k.
Proof.
  apply (index_offsets_correct dataFile_name indexFile_name stored_world
           fileType version headerSize (map encode three_records)).
  - unfold well_formed_store. by_decide.
  - by_compute.
  - by_decide.
  - by_decide.
Defined.

(** C2 fails as stated.  The damaged store is well formed, and the index
    builder writes the line [00002 53] for its second frame; the positioned
    read at 53 ends with [std::invalid_argument] and yields no record. *)
Lemma index_offsets_counterexample :
  well_formed_store fileType damaged_payloads
  /\ files damaged_world !! dataFile_name
     = Some (store_image fileType version 0 damaged_payloads)
  /\ exists w',
       createPrimaryKeyIndex dataFile_name indexFile_name damaged_world
       = Returned true w'
       /\ files w' !! indexFile_name
          = Some (index_text
                    [(lit "00001", 33); (lit "00002", 53); (lit "00003", 77)])
       /\ readRecordAtOffset dataFile_name 53 w' = Thrown invalid_argument w'
       /\ forall r, readRecordAtOffset dataFile_name 53 w' <> Returned r w'.
Proof.
  split; [unfold well_formed_store; by_decide |].
  split; [by_compute |].
  exists (write_file indexFile_name
            (index_text
               [(lit "00001", 33); (lit "00002", 53); (lit "00003", 77)])
            damaged_world).
  assert (Hread : readRecordAtOffset dataFile_name 53
                    (write_file indexFile_name
                       (index_text
                          [(lit "00001", 33); (lit "00002", 53);
                           (lit "00003", 77)])
                       damaged_world)
                  = Thrown invalid_argument
                      (write_file indexFile_name
                         (index_text
                            [(lit "00001", 33); (lit "00002", 53);
                             (lit "00003", 77)])
                         damaged_world)) by by_compute.
  conjuncts; try by_compute.
  intros r. rewrite Hread. discriminate.
Qed.

(** With the key [00001] on two lines, the lookup returns the offset of the
    upper one. *)
Lemma lookup_first_match_witness :
  searchPrimaryKey indexFile_name (lit "00001") indexed_world
  = Returned 53 indexed_world /\ 53 <> -1.
Proof.
  refine (proj1 (lookup_first_match indexFile_name (lit "00001") indexed_world
                   duplicate_lines _ _) 1%nat 53 _ _).
  - unfold duplicate_lines.
    repeat constructor; simpl; try discriminate; by_decide.
  - by_compute.
  - reflexivity.
  - intros j e Hj He. destruct j as [| j]; [| lia].
    inversion He; subst e. simpl. discriminate.
Defined.

(** C3 fails as stated.  A CSV file with a blank line is loaded, stored and
    indexed; the blank line is a record with an empty zip code, so the
    second line of the index the code writes has an empty key.  The third
    line has the key [00003], and it is the first line with that key, but
    the scan reads [53] as a key and [00003] as its offset, reads [64] as
    the next key, finds no offset after it and returns -1: the zip code is
    reported as not found. *)
Lemma lookup_first_match_counterexample :
  exists w1 w2 w3,
    loadFromCSV csv_name blank_line_world = Returned true w1
    /\ convertToLengthIndicatedFile csv_name dataFile_name w1 = Returned true w2
    /\ createPrimaryKeyIndex dataFile_name indexFile_name w2 = Returned true w3
    /\ files w3 !! indexFile_name
       = Some (lit "00001 33" ++ newline :: lit " 53" ++ newline
                 :: lit "00003 64" ++ [newline])
    /\ files w3 !! indexFile_name
       = Some (index_text [(lit "00001", 33); ([], 53); (lit "00003", 64)])
    /\ first_match (lit "00003")
         [(lit "00001", 33); ([], 53); (lit "00003", 64)] = Some 64
    /\ searchPrimaryKey indexFile_name (lit "00003") w3 = Returned (-1) w3
    /\ searchZipCode (lit "00003") w3 = Returned (not_found (lit "00003")) w3.
Proof.
  exists (mkWorld
            [record_ny; mkZipCodeRecord [] [] [] [] double_zero double_zero;
             record_ny']
            (files blank_line_world) ∅).
  exists (write_file dataFile_name
            (store_image fileType version headerSize
               [lit "00001,A,NY,X,1,2"; lit ",,,,0,0"; lit "00003,C,NY,Z,5,6"])
            (mkWorld
               [record_ny; mkZipCodeRecord [] [] [] [] double_zero double_zero;
                record_ny']
               (files blank_line_world) ∅)).
  exists (write_file indexFile_name
            (index_text [(lit "00001", 33); ([], 53); (lit "00003", 64)])
            (write_file dataFile_name
               (store_image fileType version headerSize
                  [lit "00001,A,NY,X,1,2"; lit ",,,,0,0";
                   lit "00003,C,NY,Z,5,6"])
               (mkWorld
                  [record_ny;
                   mkZipCodeRecord [] [] [] [] double_zero double_zero;
                   record_ny']
                  (files blank_line_world) ∅))).
  conjuncts; by_compute.
Qed.

(** The damaged store has a line for each of its three frames, the second
    one included, although its payload does not decode. *)
Lemma index_one_line_per_frame_witness :
  decode (lit "00002,B,CA,Y,north,4") = stod_invalid_argument
  /\ exists lines,
       createPrimaryKeyIndex dataFile_name indexFile_name damaged_world
       = Returned true
           (write_file indexFile_name (index_text lines) damaged_world)
       /\ length lines = 3%nat
       /\ lines !! 1%nat = Some (lit "00002", 53).
Proof.
  split; [by_compute |].
  destruct (index_one_line_per_frame dataFile_name indexFile_name damaged_world
              fileType version 0 damaged_payloads)
    as (lines & Hbuild & Hlength & _ & Hlookup & _).
  - unfold well_formed_store. by_decide.
  - by_compute.
  - by_decide.
  - by_decide.
  - exists lines. split; [exact Hbuild |]. split; [exact Hlength |].
    exact (Hlookup 1%nat (lit "00002,B,CA,Y,north,4") eq_refl).
Defined.



(** No index file on disk: the search returns -1. *)
Lemma index_open_failure_witness :
  searchPrimaryKey indexFile_name (lit "00002") empty_world
  = Returned (-1) empty_world
  /\ (indexFile_name = indexFile_name ->
      searchZipCode (lit "00002") empty_world
      = Returned (not_found (lit "00002")) empty_world).
Proof.
  apply (index_open_failure_is_not_found indexFile_name (lit "00002")
           empty_world).
  by_compute.
Defined.

(** C6 fails as stated.  With no index file the search returns what it
    returns over an index that lacks the key, and the caller prints the
    same [not found] line in both cases: no exception, no distinct value. *)
Lemma index_open_failure_counterexample :
  files empty_world !! indexFile_name = None
  /\ files indexed_world !! indexFile_name = Some (index_text duplicate_lines)
  /\ searchPrimaryKey indexFile_name (lit "99999") empty_world
     = Returned (-1) empty_world
  /\ searchPrimaryKey indexFile_name (lit "99999") indexed_world
     = Returned (-1) indexed_world
  /\ searchZipCode (lit "99999") empty_world
     = Returned (not_found (lit "99999")) empty_world
  /\ searchZipCode (lit "99999") indexed_world
     = Returned (not_found (lit "99999")) indexed_world.
Proof. conjuncts; by_compute. Qed.


(** The three records are written as a header with count 3 and three
    frames. *)
Lemma writer_layout_witness :
  exists out,
    convertToLengthIndicatedFile csv_name dataFile_name loaded_world
    = Returned true (write_file dataFile_name out loaded_world)
    /\ (read_header (stream_of out)).2 = Some 3
    /\ length out = (33 + 3 * (4 + 16))%nat.
Proof.
  destruct (writer_layout csv_name dataFile_name loaded_world)
    as (out & Hwrite & _ & Hcount & _ & Hlength).
  - by_decide.
  - by_decide.
  - repeat constructor; by_decide.
  - exists out. split; [exact Hwrite |]. split; [exact Hcount | exact Hlength].
Defined.

(** The second frame of the damaged store is skipped by the bulk load and
    makes the positioned read throw. *)
Lemma decode_failure_asymmetry_witness :
  loadFromLengthIndicatedFile dataFile_name damaged_world
  = Returned true
      (mkWorld [record_ca; record_ny; record_ny'] (files damaged_world) ∅)
  /\ readRecordAtOffset dataFile_name 53 damaged_world
     = Thrown invalid_argument damaged_world.
Proof.
  destruct (decode_failure_asymmetry dataFile_name damaged_world fileType
              version 0 damaged_payloads 1 (lit "00002,B,CA,Y,north,4"))
    as [Hinvalid _].
  - unfold well_formed_store. by_decide.
  - by_compute.
  - reflexivity.
  - destruct Hinvalid as (_ & Hload & Hread & _); [by_compute |].
    split; [| exact Hread].
    apply Hload.
    repeat constructor;
      match goal with
      | |- decode ?q <> _ =>
          let v := eval vm_compute in (decode q) in
          replace (decode q) with v by by_compute; discriminate
      end.
Defined.

(** C9 fails as stated.  The decoding of the second frame fails, its
    latitude being out of the range of [double]; the bulk load does not skip
    the frame: it ends with [std::out_of_range] after the first record, the
    third frame is not read and no success is reported. *)
Lemma decode_failure_counterexample :
  well_formed_store fileType overflow_payloads
  /\ decode (lit "00002,B,CA,Y,1e400,4") = stod_out_of_range
  /\ loadFromLengthIndicatedFile dataFile_name overflow_world
     = Thrown out_of_range (mkWorld [record_ny] (files overflow_world) ∅)
  /\ forall b w',
       loadFromLengthIndicatedFile dataFile_name overflow_world
       <> Returned b w'.
Proof.
  assert (Hload : loadFromLengthIndicatedFile dataFile_name overflow_world
                  = Thrown out_of_range
                      (mkWorld [record_ny] (files overflow_world) ∅))
    by by_compute.
  split; [unfold well_formed_store; by_decide |].
  split; [by_compute |]. split; [exact Hload |].
  intros b w'. rewrite Hload. discriminate.
Qed.

(** The buffer holds the NY record; the CSV file gives two records and the
    store one more, and the buffer holds all four, in that order. *)
Lemma loaders_append_witness :
  and_then (loadFromCSV csv_name accumulating_world)
    (fun _ w1 => loadFromLengthIndicatedFile dataFile_name w1)
  = Returned true
      (mkWorld
         ([record_ny]
          ++ [mkZipCodeRecord (lit "00001") (lit "Other") (lit "CA") (lit "Q")
                (dbl "7") (dbl "8");
              record_ca]
          ++ [mkZipCodeRecord (lit "00001") (lit "Again") (lit "NY") (lit "R")
                (dbl "9") (dbl "10")])
         (files accumulating_world) ∅).
Proof.
  destruct (loaders_append csv_name dataFile_name accumulating_world)
    as (_ & _ & _ & _ & _ & _ & Hboth).
  specialize (Hboth csv_header
                [lit "00001,Other,CA,Q,7,8"; lit "00002,B,CA,Y,3.0,4.0"]
                fileType version headerSize [lit "00001,Again,NY,R,9,10"]).
  replace (decoded_csv
             [lit "00001,Other,CA,Q,7,8"; lit "00002,B,CA,Y,3.0,4.0"])
    with [mkZipCodeRecord (lit "00001") (lit "Other") (lit "CA") (lit "Q")
            (dbl "7") (dbl "8"); record_ca] in Hboth
    by (symmetry; by_compute).
  replace (decoded [lit "00001,Again,NY,R,9,10"])
    with [mkZipCodeRecord (lit "00001") (lit "Again") (lit "NY") (lit "R")
            (dbl "9") (dbl "10")] in Hboth
    by (symmetry; by_compute).
  apply Hboth.
  - by_decide.
  - by_decide.
  - by_compute.
  - repeat constructor;
      match goal with
      | |- decode_csv ?q <> _ =>
          let v := eval vm_compute in (decode_csv q) in
          replace (decode_csv q) with v by by_compute; discriminate
      end.
  - unfold well_formed_store. by_decide.
  - by_compute.
  - repeat constructor;
      match goal with
      | |- decode ?q <> _ =>
          let v := eval vm_compute in (decode q) in
          replace (decode q) with v by by_compute; discriminate
      end.
Defined.

End Instances.

(** * Further properties of the sources *)

(** ** Fields beyond the sixth, and missing fields *)

Section Fields.
Context `{D : StdDouble} {L : StdDoubleLaws D}.

Lemma getline_fields_extra (z p s c la lo junk : cstring) :
  comma ∉ z -> comma ∉ p -> comma ∉ s -> comma ∉ c -> comma ∉ la ->
  comma ∉ lo ->
  getline_fields (z ++ [comma] ++ p ++ [comma] ++ s ++ [comma] ++ c
                    ++ [comma] ++ la ++ [comma] ++ lo ++ comma :: junk)
  = mkFields z p s c la lo.
Proof.
  intros Hz Hp Hs Hc Hla Hlo. unfold getline_fields, stream_of. simpl app.
  now rewrite !getline_delim by assumption.
Qed.

(** X1.  Tokens after the sixth are ignored: a line of six comma-free
    fields decodes to the same result, on either decode path, when a comma
    and any further text follow it. *)
Theorem extra_tokens_ignored (conv : cstring -> stod_result double)
    (z p s c la lo junk : cstring) :
  comma ∉ z -> comma ∉ p -> comma ∉ s -> comma ∉ c -> comma ∉ la ->
  comma ∉ lo ->
  decode_with conv (z ++ [comma] ++ p ++ [comma] ++ s ++ [comma] ++ c
                      ++ [comma] ++ la ++ [comma] ++ lo ++ comma :: junk)
  = decode_with conv (z ++ [comma] ++ p ++ [comma] ++ s ++ [comma] ++ c
                        ++ [comma] ++ la ++ [comma] ++ lo)
  /\ decode_with conv (z ++ [comma] ++ p ++ [comma] ++ s ++ [comma] ++ c
                         ++ [comma] ++ la ++ [comma] ++ lo)
     = match convert_coordinates conv la lo with
       | stod_value xy => stod_value (mkZipCodeRecord z p s c xy.1 xy.2)
       | stod_invalid_argument => stod_invalid_argument
       | stod_out_of_range => stod_out_of_range
       end.
Proof.
  intros Hz Hp Hs Hc Hla Hlo. unfold decode_with.
  rewrite getline_fields_extra, getline_fields_joined by assumption.
  split; reflexivity.
Qed.

(** A [getline] on a stream that is not good leaves an empty target
    empty. *)
Lemma getline_not_good (s : istream) (delim : ascii) :
  good s = false ->
  good (getline s [] delim).1 = false /\ (getline s [] delim).2 = [].
Proof.
  intros Hs. unfold getline. rewrite Hs. simpl. split; [| reflexivity].
  unfold good, set_fail. simpl. apply andb_false_r.
Qed.

(** A [getline] on a good stream: either a comma is found, or the rest of
    the text is the token and the stream is no longer good. *)
Lemma getline_cases (buf r : cstring) (p : nat) :
  (exists tok r', r = tok ++ comma :: r' /\ (comma ∉ tok)
     /\ getline (Istream buf r p false false) [] comma
        = (Istream buf r' (p + S (length tok)) false false, tok))
  \/ ((comma ∉ r)
      /\ good (getline (Istream buf r p false false) [] comma).1 = false
      /\ (getline (Istream buf r p false false) [] comma).2 = r).
Proof.
  pose proof (scan_delim_split comma r) as Hsplit.
  pose proof (scan_delim_token comma r) as Htok.
  unfold getline. simpl.
  destruct (scan_delim comma r) as [tok [r' |]]; simpl in *.
  - left. exists tok, r'. now repeat split.
  - right. subst tok. now repeat split.
Qed.

Lemma count_char_cons_comma (tok r : cstring) :
  comma ∉ tok ->
  count_char comma (tok ++ comma :: r) = S (count_char comma r).
Proof.
  intros Htok. rewrite count_char_app, (count_char_absent _ _ Htok).
  unfold count_char. now rewrite filter_cons_True.
Qed.

(** With fewer than four commas on the line, the fifth and the sixth field
    are empty. *)
Lemma getline_fields_short (line : cstring) :
  (count_char comma line < 4)%nat ->
  f_lat (getline_fields line) = [] /\ f_lng (getline_fields line) = [].
Proof.
  intros Hcount. unfold getline_fields, stream_of.
  (* after a token that runs to the end, the remaining targets stay empty *)
  assert (Hrest : forall s1 : istream, good s1 = false ->
            forall s2 a, getline s1 [] comma = (s2, a) ->
            a = [] /\ good s2 = false).
  { intros s1 Hs1 s2 a Heq.
    destruct (getline_not_good s1 comma Hs1) as [Hg Ht].
    rewrite Heq in Hg, Ht. simpl in *. now subst a. }
  destruct (getline_cases line line 0)
    as [(t1 & r1 & -> & Ht1 & ->) | (_ & Hg1 & _)].
  2: { destruct (getline _ [] comma) as [s1 a1]. simpl in Hg1.
       repeat match goal with
              | |- context [getline ?s [] comma] =>
                  let H := fresh in
                  destruct (getline s [] comma) as [? ?] eqn:H;
                  apply Hrest in H as [-> ?]; [| assumption]
              end.
       now split. }
  rewrite (count_char_cons_comma _ _ Ht1) in Hcount.
  destruct (getline_cases (t1 ++ comma :: r1) r1 (0 + S (length t1)))
    as [(t2 & r2 & -> & Ht2 & ->) | (_ & Hg2 & _)].
  2: { destruct (getline _ [] comma) as [s2 a2]. simpl in Hg2.
       repeat match goal with
              | |- context [getline ?s [] comma] =>
                  let H := fresh in
                  destruct (getline s [] comma) as [? ?] eqn:H;
                  apply Hrest in H as [-> ?]; [| assumption]
              end.
       now split. }
  rewrite (count_char_cons_comma _ _ Ht2) in Hcount.
  destruct (getline_cases (t1 ++ comma :: t2 ++ comma :: r2) r2
              (0 + S (length t1) + S (length t2)))
    as [(t3 & r3 & -> & Ht3 & ->) | (_ & Hg3 & _)].
  2: { destruct (getline _ [] comma) as [s3 a3]. simpl in Hg3.
       repeat match goal with
              | |- context [getline ?s [] comma] =>
                  let H := fresh in
                  destruct (getline s [] comma) as [? ?] eqn:H;
                  apply Hrest in H as [-> ?]; [| assumption]
              end.
       now split. }
  rewrite (count_char_cons_comma _ _ Ht3) in Hcount.
  destruct (getline_cases
              (t1 ++ comma :: t2 ++ comma :: t3 ++ comma :: r3) r3
              (0 + S (length t1) + S (length t2) + S (length t3)))
    as [(t4 & r4 & -> & Ht4 & ->) | (_ & Hg4 & _)].
  2: { destruct (getline _ [] comma) as [s4 a4]. simpl in Hg4.
       repeat match goal with
              | |- context [getline ?s [] comma] =>
                  let H := fresh in
                  destruct (getline s [] comma) as [? ?] eqn:H;
                  apply Hrest in H as [-> ?]; [| assumption]
              end.
       now split. }
  rewrite (count_char_cons_comma _ _ Ht4) in Hcount. lia.
Qed.

(** X2.  A line with fewer than four commas has no coordinate fields.  The
    CSV ingest stores it all the same, with both coordinates [0.0]; the load
    from the framed store drops it.  In particular a blank line of the CSV
    file becomes a record. *)
Theorem short_line_policy (line : cstring) :
  (count_char comma line < 4)%nat ->
  decode_csv line
  = stod_value (record_of (getline_fields line) (double_zero, double_zero))
  /\ decode line = stod_invalid_argument.
Proof.
  intros Hcount. destruct (getline_fields_short line Hcount) as [Hlat Hlng].
  unfold decode_csv, decode, decode_with, convert_coordinates.
  rewrite Hlat, Hlng. simpl. now rewrite stod_empty.
Qed.

End Fields.

(** ** The CSV loader at the end of the file *)

Section CsvEdges.
Context `{D : StdDouble}.

(** The loop over data lines whose last line has no newline. *)
Lemma csv_lines_unterminated (lines : list cstring) (last : cstring)
    (fuel : nat) (buf line : cstring) (p : nat) (w : world) :
  Forall (fun l => newline ∉ l) lines -> newline ∉ last -> last <> [] ->
  (S (length lines) < fuel)%nat ->
  csv_lines fuel
    (Istream buf (concat (map (fun l => l ++ [newline]) lines) ++ last) p
       false false) line w
  = load_lines (lines ++ [last]) w.
Proof.
  intros Hlines Hlast Hne. revert fuel line p w.
  induction Hlines as [| l ls Hl Hls IH]; intros fuel line p w Hfuel.
  - destruct fuel as [| [| fuel]]; [simpl in Hfuel; lia .. |].
    cbn [map concat app csv_lines load_lines].
    unfold getline at 1. simpl good. cbv iota. simpl rest.
    rewrite (scan_delim_end newline last Hlast).
    destruct last as [| c last']; [contradiction |].
    cbn [fail failbit].
    unfold getline at 1. cbn [good eofbit failbit negb andb set_fail fail].
    now destruct (decode_csv (c :: last')).
  - destruct fuel as [| fuel]; [simpl in Hfuel; lia |].
    cbn [map concat csv_lines load_lines app].
    rewrite <- !app_assoc. simpl app.
    rewrite getline_delim by exact Hl. cbn [fail failbit].
    simpl in Hfuel.
    destruct (decode_csv l) as [record | |]; try reflexivity; apply IH; lia.
Qed.

(** X3.  The last data line of a CSV file is loaded whether or not a
    newline ends it: the file whose last line lacks its newline loads what
    the file with the newline loads. *)
Theorem csv_last_line_without_newline (name : string) (w : world)
    (header last : cstring) (lines : list cstring) :
  newline ∉ header -> Forall (fun l => newline ∉ l) lines ->
  newline ∉ last -> last <> [] ->
  files w !! name = Some (csv_image header lines ++ last) ->
  loadFromCSV name w = load_lines (lines ++ [last]) w
  /\ loadFromCSV name
       (write_file name (csv_image header (lines ++ [last])) w)
     = load_lines (lines ++ [last])
         (write_file name (csv_image header (lines ++ [last])) w).
Proof.
  intros Hheader Hlines Hlast Hne Hfile. split.
  - unfold loadFromCSV. rewrite Hfile. unfold csv_image, stream_of.
    assert (Hfuel : (S (length lines)
                     < S (length ((header ++ newline
                            :: concat (map (fun l => l ++ [newline]) lines))
                            ++ last)))%nat).
    { rewrite !length_app. simpl.
      pose proof (length_concat_lines lines).
      destruct last; [contradiction | simpl; lia]. }
    revert Hfuel. generalize (S (length ((header ++ newline
                            :: concat (map (fun l => l ++ [newline]) lines))
                            ++ last))).
    intros fuel Hfuel.
    rewrite <- app_assoc. simpl app.
    rewrite getline_delim by exact Hheader.
    now apply csv_lines_unterminated.
  - apply (loadFromCSV_image name _ header (lines ++ [last]));
      [exact Hheader | | simpl; apply lookup_insert_eq].
    apply Forall_app. split; [exact Hlines | now repeat constructor].
Qed.

(** X4.  A CSV file without data lines: the empty file, a header alone, a
    header and its newline.  The load returns [true] and the buffer is as
    before. *)
Theorem csv_without_data_lines (name : string) (w : world) (header : cstring) :
  newline ∉ header ->
  files w !! name = Some header \/ files w !! name = Some (header ++ [newline]) ->
  loadFromCSV name w = Returned true w.
Proof.
  intros Hheader [Hfile | Hfile]; unfold loadFromCSV; rewrite Hfile.
  - unfold stream_of, getline at 1. simpl good. cbv iota. simpl rest.
    rewrite (scan_delim_end newline header Hheader).
    cbn [csv_lines].
    unfold getline. cbn [good eofbit failbit negb andb set_fail fail].
    now destruct header.
  - unfold stream_of. rewrite getline_delim by exact Hheader.
    reflexivity.
Qed.

End CsvEdges.

(** ** What the functions leave untouched *)

Section Frame.
Context `{D : StdDouble}.

Lemma csv_lines_frame (fuel : nat) (s : istream) (line : cstring) (w : world) :
  ends_in (fun w' => files w' = files w /\ unwritable w' = unwritable w)
    (csv_lines fuel s line w).
Proof.
  revert s line w. induction fuel as [| fuel IH]; intros s line w; simpl;
    [exact I |].
  destruct (getline s line newline) as [s1 line1].
  destruct (fail s1); [now simpl |].
  destruct (decode_csv line1) as [record | |]; [| apply IH | now simpl].
  exact (IH s1 line1 (push_back record w)).
Qed.

Lemma load_frames_frame (n : nat) (s : istream) (w : world) :
  ends_in (fun w' => files w' = files w /\ unwritable w' = unwritable w)
    (load_frames n s w).
Proof.
  revert s w. induction n as [| n IH]; intros s w; simpl; [now simpl |].
  destruct (read_u32 s) as [s1 [len |]]; [| exact I].
  destruct (read_vector s1 (Z.to_nat len)) as [s2 recordString].
  destruct (decode recordString) as [record | |]; [| apply IH | now simpl].
  exact (IH s2 (push_back record w)).
Qed.

Lemma loadFromCSV_frame (name : string) (w : world) :
  ends_in (fun w' => files w' = files w /\ unwritable w' = unwritable w)
    (loadFromCSV name w).
Proof.
  unfold loadFromCSV. destruct (files w !! name) as [content |]; [| now simpl].
  destruct (getline (stream_of content) [] newline) as [s line].
  apply csv_lines_frame.
Qed.

Lemma loadFromLengthIndicatedFile_frame (name : string) (w : world) :
  ends_in (fun w' => files w' = files w /\ unwritable w' = unwritable w)
    (loadFromLengthIndicatedFile name w).
Proof.
  unfold loadFromLengthIndicatedFile.
  destruct (files w !! name) as [content |]; [| now simpl].
  destruct (read_header (stream_of content)) as [s [recordCount |]];
    [apply load_frames_frame | exact I].
Qed.

Lemma searchPrimaryKey_frame (name : string) (key : cstring) (w : world) :
  ends_in (fun w' => w' = w) (searchPrimaryKey name key w).
Proof.
  unfold searchPrimaryKey.
  destruct (files w !! name) as [content |]; [| reflexivity].
  destruct (index_scan _ _ _ _ _); [reflexivity | exact I].
Qed.

Lemma readRecordAtOffset_world (name : string) (offset : Z) (w : world) :
  ends_in (fun w' => w' = w) (readRecordAtOffset name offset w).
Proof.
  unfold readRecordAtOffset.
  destruct (files w !! name) as [content |]; [| reflexivity].
  destruct (read_u32 _) as [s1 [len |]]; [| exact I].
  destruct (read_vector s1 (Z.to_nat len)) as [s2 recordString].
  destruct (decode recordString); reflexivity.
Qed.

Lemma searchZipCode_frame (key : cstring) (w : world) :
  ends_in (fun w' => w' = w) (searchZipCode key w).
Proof.
  unfold searchZipCode.
  pose proof (searchPrimaryKey_frame indexFile_name key w) as Hsearch.
  destruct (searchPrimaryKey indexFile_name key w) as [o w1 | e w1 | |];
    simpl in Hsearch; try exact I; subst; [| reflexivity].
  destruct (decide (o <> -1)); [| reflexivity].
  pose proof (readRecordAtOffset_world dataFile_name o w) as Hread.
  destruct (readRecordAtOffset dataFile_name o w); simpl in *; auto.
Qed.

(** X5.  The read paths write nothing.  The two loaders leave every file
    as it was, and the index search, the positioned read and the lookup
    driver leave the whole state, buffer included, as it was, also when they
    end with an exception. *)
Theorem read_paths_write_nothing (name : string) (key : cstring) (offset : Z)
    (w : world) :
  ends_in (fun w' => files w' = files w /\ unwritable w' = unwritable w)
    (loadFromCSV name w)
  /\ ends_in (fun w' => files w' = files w /\ unwritable w' = unwritable w)
       (loadFromLengthIndicatedFile name w)
  /\ ends_in (fun w' => w' = w) (searchPrimaryKey name key w)
  /\ ends_in (fun w' => w' = w) (readRecordAtOffset name offset w)
  /\ ends_in (fun w' => w' = w) (searchZipCode key w).
Proof.
  split; [apply loadFromCSV_frame |].
  split; [apply loadFromLengthIndicatedFile_frame |].
  split; [apply searchPrimaryKey_frame |].
  split; [apply readRecordAtOffset_world | apply searchZipCode_frame].
Qed.

(** X6.  The two writers leave the buffer as it was and change no file but
    the one they are asked to write. *)
Theorem writers_touch_only_their_output (input output : string) (w : world) :
  ends_in (fun w' => records w' = records w /\ unwritable w' = unwritable w
                     /\ forall other, other <> output ->
                          files w' !! other = files w !! other)
    (convertToLengthIndicatedFile input output w)
  /\ ends_in (fun w' => records w' = records w /\ unwritable w' = unwritable w
                        /\ forall other, other <> output ->
                             files w' !! other = files w !! other)
       (createPrimaryKeyIndex input output w).
Proof.
  split.
  - unfold convertToLengthIndicatedFile.
    destruct (decide (output ∈ unwritable w)); simpl; repeat split; try reflexivity.
    intros other Hother. now apply lookup_insert_ne.
  - unfold createPrimaryKeyIndex.
    destruct (files w !! input) as [content |]; [| now simpl].
    destruct (decide (output ∈ unwritable w)); [now simpl |].
    destruct (read_header _) as [s [recordCount |]]; [| exact I].
    destruct (index_frames _ _ _) as [lines |]; [| exact I].
    simpl. repeat split. intros other Hother. now apply lookup_insert_ne.
Qed.

End Frame.

(** ** Stores that end too early *)

Section Truncation.
Context `{D : StdDouble}.

Lemma load_payloads_app_gen (pre post : list cstring) (w : world) :
  load_payloads (pre ++ post) w
  = and_then (load_payloads pre w) (fun _ w1 => load_payloads post w1).
Proof.
  revert w. induction pre as [| q pre IH]; intros w; simpl; [reflexivity |].
  destruct (decode q); try reflexivity; apply IH.
Qed.

(** The loop over more frames than the payloads at hand. *)
Lemma load_frames_more (payloads : list cstring) (m : nat) (buf tail : cstring)
    (p : nat) (w : world) :
  Forall (fun q : cstring => Z.of_nat (length q) < 2 ^ 32) payloads ->
  exists p',
    load_frames (length payloads + m)
      (Istream buf (frames payloads ++ tail) p false false) w
    = and_then (load_payloads payloads w)
        (fun _ w1 => load_frames m (Istream buf tail p' false false) w1).
Proof.
  intros Hlen. revert p w.
  induction Hlen as [| q qs Hq Hqs IH]; intros p w.
  - exists p. reflexivity.
  - simpl length. cbn [Nat.add load_frames load_payloads].
    rewrite frames_cons, <- app_assoc, read_frame by exact Hq.
    rewrite Nat2Z.id, read_vector_exact.
    destruct (decode q) as [record | |].
    + apply IH.
    + apply IH.
    + exists 0%nat. reflexivity.
Qed.

Lemma index_frames_more (payloads : list cstring) (m : nat) (buf tail : cstring)
    (p : nat) (acc : list (cstring * Z)) :
  Forall (fun q : cstring => Z.of_nat (length q) < 2 ^ 32) payloads ->
  exists p',
    index_frames (length payloads + m)
      (Istream buf (frames payloads ++ tail) p false false) acc
    = index_frames m (Istream buf tail p' false false)
        (acc ++ entries_from p payloads).
Proof.
  intros Hlen. revert p acc.
  induction Hlen as [| q qs Hq Hqs IH]; intros p acc.
  - exists p. simpl. now rewrite app_nil_r.
  - simpl length. cbn [Nat.add index_frames entries_from].
    change (tellg (Istream buf (frames (q :: qs) ++ tail) p false false))
      with (Istream buf (frames (q :: qs) ++ tail) p false false, Z.of_nat p).
    cbv iota beta.
    rewrite frames_cons, <- app_assoc, read_frame by exact Hq.
    rewrite Nat2Z.id, read_vector_exact.
    pose proof (getline_fresh_token q [] comma) as Hkey.
    destruct (getline (stream_of q) [] comma) as [ss z]. simpl in Hkey.
    subst z. fold (key_of q).
    destruct (IH (p + 4 + length q)%nat (acc ++ [(key_of q, Z.of_nat p)]))
      as [p' Hp'].
    exists p'. rewrite Hp'. now rewrite <- app_assoc.
Qed.

(** Fewer than four bytes are left: the length of the next frame stays
    uninitialised. *)
Lemma read_u32_short (buf tail : cstring) (p : nat) :
  (length tail < 4)%nat ->
  (read_u32 (Istream buf tail p false false)).2 = None.
Proof.
  intros Hshort. unfold read_u32, read. simpl.
  destruct (Nat.leb_spec 4 (length tail)); [lia |]. simpl.
  do 4 (destruct tail as [| ? tail]; [reflexivity |]). simpl in Hshort. lia.
Qed.

(** X7.  No check against truncation.  When the header declares more
    frames than the file holds, the frames present being whole, both the
    bulk load and the index builder go on to use a frame length that no read
    has filled; the records loaded before that point are not reported. *)
Theorem truncated_store_unchecked (name idx : string) (w : world)
    (tag tail : cstring) (ver hlen count : Z) (payloads : list cstring) :
  NUL ∉ tag -> 0 <= count < 2 ^ 32 ->
  Forall (fun q : cstring => Z.of_nat (length q) < 2 ^ 32) payloads ->
  Z.of_nat (length payloads) < count ->
  (length tail < 4)%nat ->
  files w !! name
  = Some (header_image tag ver hlen count ++ frames payloads ++ tail) ->
  loadFromLengthIndicatedFile name w
  = and_then (load_payloads payloads w) (fun _ _ => Unspecified)
  /\ (idx ∉ unwritable w -> idx <> name ->
      createPrimaryKeyIndex name idx w = Unspecified).
Proof.
  intros Htag Hcount Hlen Hmore Hshort Hfile.
  assert (Hn : exists m, Z.to_nat count = (length payloads + S m)%nat).
  { exists (Z.to_nat count - length payloads - 1)%nat. lia. }
  destruct Hn as [m Hm].
  split.
  - unfold loadFromLengthIndicatedFile. rewrite Hfile.
    rewrite read_header_image by assumption. rewrite Hm.
    destruct (load_frames_more payloads (S m) (header_image tag ver hlen count
                ++ frames payloads ++ tail) tail (length tag + 11) w Hlen)
      as [p' Hp'].
    rewrite Hp'. destruct (load_payloads payloads w); try reflexivity.
    simpl. pose proof (read_u32_short
      (header_image tag ver hlen count ++ frames payloads ++ tail) tail p'
      Hshort) as Hnone.
    destruct (read_u32 _) as [s1 o]. simpl in Hnone. now subst o.
  - intros Hidx Hne. unfold createPrimaryKeyIndex. rewrite Hfile.
    destruct (decide (idx ∈ unwritable w)); [contradiction |].
    destruct (decide (idx = name)); [contradiction |].
    rewrite read_header_image by assumption. rewrite Hm.
    destruct (index_frames_more payloads (S m) (header_image tag ver hlen count
                ++ frames payloads ++ tail) tail (length tag + 11) [] Hlen)
      as [p' Hp'].
    rewrite Hp'. cbn [index_frames].
    change (tellg (Istream (header_image tag ver hlen count
                              ++ frames payloads ++ tail) tail p' false false))
      with (Istream (header_image tag ver hlen count
                       ++ frames payloads ++ tail) tail p' false false,
            Z.of_nat p').
    cbv iota beta.
    pose proof (read_u32_short
      (header_image tag ver hlen count ++ frames payloads ++ tail) tail p'
      Hshort) as Hnone.
    destruct (read_u32 _) as [s1 o]. simpl in Hnone. now subst o.
Qed.

(** X8.  A last frame cut short is completed with zero bytes.  When the
    file ends inside the payload of the last declared frame, the bulk load
    decodes the bytes present followed by as many NUL characters as are
    missing, and ends as on a whole store. *)
Theorem truncated_last_payload (name : string) (w : world)
    (tag part : cstring) (ver hlen len : Z) (payloads : list cstring) :
  NUL ∉ tag -> Z.of_nat (length payloads) + 1 < 2 ^ 32 ->
  Forall (fun q : cstring => Z.of_nat (length q) < 2 ^ 32) payloads ->
  Z.of_nat (length part) < len < 2 ^ 32 ->
  files w !! name
  = Some (header_image tag ver hlen (Z.of_nat (length payloads) + 1)
            ++ frames payloads ++ u32_bytes len ++ part) ->
  loadFromLengthIndicatedFile name w
  = load_payloads
      (payloads ++ [part ++ replicate (Z.to_nat len - length part) NUL]) w.
Proof.
  intros Htag Hcount Hlen Hpart Hfile.
  unfold loadFromLengthIndicatedFile. rewrite Hfile.
  rewrite read_header_image by (try assumption; lia).
  replace (Z.to_nat (Z.of_nat (length payloads) + 1))
    with (length payloads + 1)%nat by lia.
  destruct (load_frames_more payloads 1 (header_image tag ver hlen
              (Z.of_nat (length payloads) + 1) ++ frames payloads
              ++ u32_bytes len ++ part) (u32_bytes len ++ part)
              (length tag + 11) w Hlen) as [p' Hp'].
  rewrite Hp', load_payloads_app_gen.
  destruct (load_payloads payloads w) as [b w1 | e w1 | |]; try reflexivity.
  cbn [and_then load_frames load_payloads].
  rewrite read_u32_exact by lia.
  unfold read_vector, read. cbn [good eofbit failbit negb andb rest].
  destruct (Nat.leb_spec (Z.to_nat len) (length part)) as [Hle | _]; [lia |].
  now destruct (decode _).
Qed.

End Truncation.

(** ** The index: offsets, malformed lines, and the way to the record *)

Section IndexMore.
Context `{D : StdDouble}.

Lemma frame_offset_end (tag : cstring) (ver hlen : Z) (payloads : list cstring)
    (i : nat) (p : cstring) :
  payloads !! i = Some p ->
  frame_offset tag payloads (S i)
  = frame_offset tag payloads i + 4 + Z.of_nat (length p)
  /\ frame_offset tag payloads (S i)
     <= Z.of_nat (length (store_image tag ver hlen payloads)).
Proof.
  intros Hp. unfold frame_offset, store_image.
  rewrite (take_S_r payloads i p Hp), frames_app, !length_app.
  rewrite length_header_image. cbn [frames map concat].
  rewrite app_nil_r, length_frame. split; [lia |].
  pose proof (length_frames_take_le payloads i (length payloads)).
  pose proof (length_frames_take_le payloads (S i) (length payloads)
                ltac:(apply lookup_lt_Some in Hp; lia)) as Hle.
  rewrite firstn_all in Hle.
  rewrite (take_S_r payloads i p Hp), frames_app, length_app in Hle.
  cbn [frames map concat] in Hle. rewrite app_nil_r, length_frame in Hle.
  lia.
Qed.

(** X9.  The offsets of a built index.  The first line carries the size of
    the header, each further line the offset of the line before it plus four
    and the length of that frame's payload, so that the offsets strictly
    increase; every frame an offset names lies inside the store file, and
    the offset after the last frame is the size of the file. *)
Theorem index_offsets_layout (data idx : string) (w : world) (tag : cstring)
    (ver hlen : Z) (payloads : list cstring) :
  well_formed_store tag payloads ->
  files w !! data = Some (store_image tag ver hlen payloads) ->
  idx ∉ unwritable w -> idx <> data ->
  exists lines,
    createPrimaryKeyIndex data idx w
    = Returned true (write_file idx (index_text lines) w)
    /\ (forall entry, lines !! 0%nat = Some entry ->
          entry.2 = Z.of_nat (length tag) + 11)
    /\ (forall i entry next p,
          lines !! i = Some entry -> lines !! S i = Some next ->
          payloads !! i = Some p ->
          next.2 = entry.2 + 4 + Z.of_nat (length p))
    /\ (forall i entry p,
          lines !! i = Some entry -> payloads !! i = Some p ->
          Z.of_nat (length tag) + 11 <= entry.2
          /\ entry.2 + 4 + Z.of_nat (length p)
             <= Z.of_nat (length (store_image tag ver hlen payloads)))
    /\ frame_offset tag payloads (length payloads)
       = Z.of_nat (length (store_image tag ver hlen payloads)).
Proof.
  intros Hwf Hfile Hidx Hne. exists (index_entries tag payloads).
  split; [now apply (createPrimaryKeyIndex_image data idx w tag ver hlen) |].
  split; [| split; [| split]].
  - intros entry Hentry.
    apply entries_from_lookup_inv in Hentry as (q & _ & ->). simpl.
    unfold frames. simpl. lia.
  - intros i entry next p Hentry Hnext Hp.
    apply entries_from_lookup_inv in Hentry as (q & Hq & ->).
    apply entries_from_lookup_inv in Hnext as (q' & Hq' & ->). simpl.
    exact (proj1 (frame_offset_end tag ver hlen payloads i p Hp)).
  - intros i entry p Hentry Hp.
    apply entries_from_lookup_inv in Hentry as (q & Hq & ->). simpl.
    destruct (frame_offset_end tag ver hlen payloads i p Hp) as [Heq Hle].
    unfold frame_offset in *. lia.
  - unfold frame_offset, store_image.
    now rewrite firstn_all, length_app, length_header_image.
Qed.



End IndexMore.

(** ** From the buffer to the record found on disk *)

Section Pipeline.
Context `{D : StdDouble} {L : StdDoubleLaws D}.

Lemma index_entries_well_formed (tag : cstring) (ver hlen : Z)
    (payloads : list cstring) :
  Forall (fun p => index_key (key_of p)) payloads ->
  Z.of_nat (length (store_image tag ver hlen payloads)) <= streamoff_max ->
  Forall well_formed_entry (index_entries tag payloads).
Proof.
  intros Hkeys Hsize. apply Forall_lookup. intros i entry Hentry.
  apply entries_from_lookup_inv in Hentry as (q & Hq & ->).
  rewrite Forall_lookup in Hkeys. destruct (Hkeys i q Hq) as [Hne Hnosp].
  repeat split; simpl; try assumption; [lia |].
  destruct (frame_offset_end tag ver hlen payloads i q Hq) as [Heq Hle].
  unfold frame_offset in *. lia.
Qed.

(** The lookup driver in a world that holds a well-formed store and the
    index of its frames. *)
Lemma searchZipCode_indexed (w2 : world) (tag : cstring) (ver hlen : Z)
    (payloads : list cstring) (key : cstring) :
  well_formed_store tag payloads ->
  files w2 !! dataFile_name = Some (store_image tag ver hlen payloads) ->
  files w2 !! indexFile_name = Some (index_text (index_entries tag payloads)) ->
  Forall (fun p => index_key (key_of p)) payloads ->
  Z.of_nat (length (store_image tag ver hlen payloads)) <= streamoff_max ->
  (forall i p,
      payloads !! i = Some p -> key_of p = key ->
      (forall j q, (j < i)%nat -> payloads !! j = Some q -> key_of q <> key) ->
      searchZipCode key w2
      = match decode p with
        | stod_value record => Returned (printRecord record) w2
        | stod_invalid_argument => Thrown invalid_argument w2
        | stod_out_of_range => Thrown out_of_range w2
        end)
  /\ ((forall p, p ∈ payloads -> key_of p <> key) ->
      searchZipCode key w2 = Returned (not_found key) w2).
Proof.
  intros Hwf Hdata Hindex Hkeys Hsize.
  pose proof (index_entries_well_formed tag ver hlen payloads Hkeys Hsize)
    as Hentries.
  pose proof (searchPrimaryKey_text indexFile_name key w2 _ Hentries Hindex)
    as Hsearch.
  split.
  - intros i p Hp Hkey Hbefore. unfold searchZipCode.
    rewrite Hsearch.
    rewrite (first_match_found key _ i (frame_offset tag payloads i)).
    + simpl default.
      destruct (decide (frame_offset tag payloads i <> -1)) as [_ | Habs];
        [| exfalso; apply Habs; unfold frame_offset; lia].
      rewrite (readRecordAtOffset_frame dataFile_name w2 tag ver hlen
                 payloads i p Hwf Hdata Hp).
      now destruct (decode p).
    + rewrite <- Hkey. now apply index_entries_lookup.
    + intros j e Hj He.
      apply entries_from_lookup_inv in He as (q & Hq & ->). simpl.
      now apply (Hbefore j q).
  - intros Hnone. unfold searchZipCode. rewrite Hsearch.
    rewrite first_match_none.
    + simpl. destruct (decide (-1 <> -1)); [contradiction | reflexivity].
    + intros e He. apply list_elem_of_lookup in He as [i Hi].
      apply entries_from_lookup_inv in Hi as (q & Hq & ->). simpl.
      apply Hnone. exact (list_elem_of_lookup_2 _ _ _ Hq).
Qed.

(** X11.  Index, then lookup.  Over a well-formed store whose key tokens
    can be carried by the index, the lookup driver run after the index
    builder reads the first frame that has the key: it prints the record the
    payload decodes to, or lets the exception of the conversion through; it
    reports a key that no frame has as not found. *)
Theorem build_index_then_lookup (w : world) (tag : cstring) (ver hlen : Z)
    (payloads : list cstring) :
  well_formed_store tag payloads ->
  files w !! dataFile_name = Some (store_image tag ver hlen payloads) ->
  indexFile_name ∉ unwritable w ->
  Forall (fun p => index_key (key_of p)) payloads ->
  Z.of_nat (length (store_image tag ver hlen payloads)) <= streamoff_max ->
  exists w2,
    createPrimaryKeyIndex dataFile_name indexFile_name w = Returned true w2
    /\ forall key,
         (forall i p,
             payloads !! i = Some p -> key_of p = key ->
             (forall j q, (j < i)%nat -> payloads !! j = Some q ->
                          key_of q <> key) ->
             searchZipCode key w2
             = match decode p with
               | stod_value record => Returned (printRecord record) w2
               | stod_invalid_argument => Thrown invalid_argument w2
               | stod_out_of_range => Thrown out_of_range w2
               end)
         /\ ((forall p, p ∈ payloads -> key_of p <> key) ->
             searchZipCode key w2 = Returned (not_found key) w2).
Proof.
  intros Hwf Hfile Hidx Hkeys Hsize.
  exists (write_file indexFile_name
            (index_text (index_entries tag payloads)) w).
  split.
  - apply (createPrimaryKeyIndex_image _ _ w tag ver hlen);
      [assumption .. | discriminate].
  - intros key.
    apply (searchZipCode_indexed _ tag ver hlen payloads key);
      try assumption; simpl.
    + now rewrite lookup_insert_ne.
    + apply lookup_insert_eq.
Qed.

Lemma storable_decode (r : ZipCodeRecord) :
  storable r ->
  decode (encode r) = stod_value r /\ key_of (encode r) = zipCode r.
Proof.
  intros (_ & Hz & Hp & Hs & Hc & Hlat & Hlng).
  assert (Hdec : decode (encode r) = stod_value r).
  { unfold decode, decode_with.
    rewrite (encode_fields r Hz Hp Hs Hc). simpl.
    unfold convert_coordinates. rewrite Hlat, Hlng. now destruct r. }
  split; [exact Hdec |].
  symmetry. exact (decode_with_zipCode stod _ _ Hdec).
Qed.



Lemma searchZipCode_stored (w w2 : world) (key : cstring) :
  Z.of_nat (length (records w)) < 2 ^ 32 ->
  Forall (fun r => Z.of_nat (length (encode r)) < 2 ^ 32) (records w) ->
  Forall storable (records w) ->
  Z.of_nat (length (store_image fileType version headerSize
                      (map encode (records w)))) <= streamoff_max ->
  files w2 !! dataFile_name
  = Some (store_image fileType version headerSize (map encode (records w))) ->
  files w2 !! indexFile_name
  = Some (index_text (index_entries fileType (map encode (records w)))) ->
  match getRecordByZip key w with
  | Some (i, r) => searchZipCode key w2 = Returned (printRecord r) w2
  | None => searchZipCode key w2 = Returned (not_found key) w2
  end.
Proof.
  intros Hcount Hlen Hstorable Hsize Hdata Hindex.
  destruct (searchZipCode_indexed w2 fileType version headerSize
              (map encode (records w)) key) as [Hfound Hnone];
    try assumption.
  - repeat split; [exact fileType_no_NUL | now rewrite length_map |].
    apply Forall_fmap. exact Hlen.
  - apply Forall_fmap. eapply Forall_impl; [exact Hstorable |].
    intros r Hr. simpl. rewrite (proj2 (storable_decode r Hr)).
    exact (proj1 Hr).
  - unfold getRecordByZip.
    destruct (list_find _ (records w)) as [[i r] |] eqn:Hfind.
    + apply list_find_Some in Hfind as (Hi & Hkey & Hbefore).
      rewrite Forall_lookup in Hstorable.
      pose proof (storable_decode r (Hstorable i r Hi)) as [Hdec Hk].
      rewrite (Hfound i (encode r)).
      * now rewrite Hdec.
      * now rewrite list_lookup_fmap, Hi.
      * now rewrite Hk.
      * intros j q Hj Hq.
        rewrite list_lookup_fmap in Hq.
        destruct (records w !! j) as [r' |] eqn:Hr'; [| discriminate].
        inversion Hq; subst q.
        rewrite (proj2 (storable_decode r' (Hstorable j r' Hr'))).
        exact (Hbefore j r' Hr' Hj).
    + apply Hnone. intros p Hp.
      apply list_elem_of_fmap in Hp as (r & -> & Hr).
      rewrite Forall_forall in Hstorable.
      rewrite (proj2 (storable_decode r (Hstorable r Hr))).
      rewrite list_find_None, Forall_forall in Hfind. exact (Hfind r Hr).
Qed.

Lemma well_formed_encoded (rs : list ZipCodeRecord) :
  Z.of_nat (length rs) < 2 ^ 32 ->
  Forall (fun r => Z.of_nat (length (encode r)) < 2 ^ 32) rs ->
  well_formed_store fileType (map encode rs).
Proof.
  intros Hcount Hlen.
  repeat split; [exact fileType_no_NUL | now rewrite length_map |].
  apply Forall_fmap. exact Hlen.
Qed.

(** X12.  Store, index, lookup.  When the buffer holds storable records
    and the store and the index are written from it, the lookup driver
    prints, for a key, the first record of the buffer with that zip code,
    the record [getRecordByZip] points to; it reports a key the buffer does
    not hold as not found. *)
Theorem store_then_lookup (w : world) :
  dataFile_name ∉ unwritable w -> indexFile_name ∉ unwritable w ->
  Z.of_nat (length (records w)) < 2 ^ 32 ->
  Forall (fun r => Z.of_nat (length (encode r)) < 2 ^ 32) (records w) ->
  Forall storable (records w) ->
  Z.of_nat (length (store_image fileType version headerSize
                      (map encode (records w)))) <= streamoff_max ->
  exists w2,
    and_then (convertToLengthIndicatedFile csv_name dataFile_name w)
      (fun _ w1 => createPrimaryKeyIndex dataFile_name indexFile_name w1)
    = Returned true w2
    /\ records w2 = records w
    /\ forall key,
         match getRecordByZip key w with
         | Some (i, r) => searchZipCode key w2 = Returned (printRecord r) w2
         | None => searchZipCode key w2 = Returned (not_found key) w2
         end.
Proof.
  intros Hdata Hidx Hcount Hlen Hstorable Hsize.
  rewrite (convertToLengthIndicatedFile_image csv_name dataFile_name w Hdata
             Hcount Hlen).
  cbn [and_then].
  rewrite (createPrimaryKeyIndex_image dataFile_name indexFile_name _
             fileType version headerSize (map encode (records w)));
    [| now apply well_formed_encoded | simpl; apply lookup_insert_eq
     | exact Hidx | discriminate].
  eexists. split; [reflexivity |]. split; [reflexivity |].
  intros key. apply (searchZipCode_stored w); try assumption; simpl.
  - rewrite lookup_insert_ne by discriminate. apply lookup_insert_eq.
  - apply lookup_insert_eq.
Qed.


End Pipeline.

(** ** Lookups in the buffer, and the search whose result is dropped *)

Section Queries.
Context `{D : StdDouble}.

Lemma csv_lines_extends (fuel : nat) (s : istream) (line : cstring) (w : world) :
  ends_in (fun w' => exists new, records w' = records w ++ new)
    (csv_lines fuel s line w).
Proof.
  revert s line w. induction fuel as [| fuel IH]; intros s line w; simpl;
    [exact I |].
  destruct (getline s line newline) as [s1 line1].
  destruct (fail s1); [exists []; now rewrite app_nil_r |].
  destruct (decode_csv line1) as [record | |];
    [| apply IH | exists []; now rewrite app_nil_r].
  specialize (IH s1 line1 (push_back record w)).
  destruct (csv_lines fuel s1 line1 (push_back record w)); simpl in *;
    try exact I; destruct IH as [new Hnew]; exists (record :: new);
    now rewrite Hnew, <- app_assoc.
Qed.

Lemma load_frames_extends (n : nat) (s : istream) (w : world) :
  ends_in (fun w' => exists new, records w' = records w ++ new)
    (load_frames n s w).
Proof.
  revert s w. induction n as [| n IH]; intros s w; simpl;
    [exists []; now rewrite app_nil_r |].
  destruct (read_u32 s) as [s1 [len |]]; [| exact I].
  destruct (read_vector s1 (Z.to_nat len)) as [s2 recordString].
  destruct (decode recordString) as [record | |];
    [| apply IH | exists []; now rewrite app_nil_r].
  specialize (IH s2 (push_back record w)).
  destruct (load_frames n s2 (push_back record w)); simpl in *;
    try exact I; destruct IH as [new Hnew]; exists (record :: new);
    now rewrite Hnew, <- app_assoc.
Qed.

Lemma ends_in_impl {A : Type} (P Q : world -> Prop) (o : outcome A) :
  (forall w, P w -> Q w) -> ends_in P o -> ends_in Q o.
Proof. intros HPQ. destruct o; simpl; auto. Qed.

Lemma list_find_app_found {A : Type} (P : A -> Prop)
    `{forall x, Decision (P x)} (l new : list A) (i : nat) (x : A) :
  list_find P l = Some (i, x) -> list_find P (l ++ new) = Some (i, x).
Proof.
  intros Hfind. apply list_find_Some in Hfind as (Hi & HP & Hbefore).
  apply list_find_Some. split; [now apply lookup_app_l_Some |].
  split; [exact HP |].
  intros j y Hj Hlt. apply (Hbefore j y); [| exact Hlt].
  rewrite lookup_app_l in Hj; [exact Hj |].
  apply lookup_lt_Some in Hi. lia.
Qed.

(** X14.  A record found in the buffer stays the one found.  Whatever a
    loader appends, also when it ends with an exception half-way,
    [getRecordByZip] goes on giving the same record at the same place for a
    key it had found: a later record with the same zip code is never
    reached. *)
Theorem found_record_survives_loads (name : string) (key : cstring)
    (w : world) (i : nat) (r : ZipCodeRecord) :
  getRecordByZip key w = Some (i, r) ->
  ends_in (fun w' => getRecordByZip key w' = Some (i, r)) (loadFromCSV name w)
  /\ ends_in (fun w' => getRecordByZip key w' = Some (i, r))
       (loadFromLengthIndicatedFile name w).
Proof.
  intros Hfound.
  assert (Hstep : forall w', (exists new, records w' = records w ++ new) ->
                             getRecordByZip key w' = Some (i, r)).
  { intros w' [new Hnew]. unfold getRecordByZip. rewrite Hnew.
    now apply list_find_app_found. }
  split.
  - apply (ends_in_impl _ _ _ Hstep). unfold loadFromCSV.
    destruct (files w !! name) as [content |];
      [| exists []; now rewrite app_nil_r].
    destruct (getline (stream_of content) [] newline) as [s line].
    apply csv_lines_extends.
  - apply (ends_in_impl _ _ _ Hstep). unfold loadFromLengthIndicatedFile.
    destruct (files w !! name) as [content |];
      [| exists []; now rewrite app_nil_r].
    destruct (read_header (stream_of content)) as [s [recordCount |]];
      [apply load_frames_extends | exact I].
Qed.

Lemma searchPrimaryKey_returns (idx : string) (key : cstring) (w : world) :
  exists offset, searchPrimaryKey idx key w = Returned offset w.
Proof.
  pose proof (searchPrimaryKey_total idx key w) as Htotal.
  unfold searchPrimaryKey in *.
  destruct (files w !! idx) as [content |]; [| now exists (-1)].
  destruct (index_scan _ _ _ _ _) as [offset |]; [now exists offset |].
  contradiction.
Qed.

(** X15.  [searchAndDisplayZipCode] finds and drops.  Whatever the key and
    the files, the call returns without an exception and leaves the buffer
    and the files as they were: the offset that [searchPrimaryKey] gives is
    not used, so no record is read or printed. *)
Theorem searchAndDisplayZipCode_no_effect (key : cstring) (w : world) :
  searchAndDisplayZipCode key w = Returned tt w.
Proof.
  unfold searchAndDisplayZipCode.
  destruct (searchPrimaryKey_returns indexFile_name key w) as [offset ->].
  reflexivity.
Qed.

End Queries.

(** ** Step 2 of [main]: the records by state *)

Section Grouping.
Context `{D : StdDouble}.

Lemma nat_of_ascii_inj (x y : ascii) : nat_of_ascii x = nat_of_ascii y -> x = y.
Proof.
  intros Heq. rewrite <- (ascii_nat_embedding x), <- (ascii_nat_embedding y).
  now rewrite Heq.
Qed.

Lemma string_lt_irrefl (a : cstring) : string_lt a a = false.
Proof.
  induction a as [| x a IH]; [reflexivity |].
  simpl. now rewrite Nat.ltb_irrefl.
Qed.

Lemma string_lt_trans (a b c : cstring) :
  string_lt a b = true -> string_lt b c = true -> string_lt a c = true.
Proof.
  revert b c. induction a as [| x a IH]; intros [| y b] [| z c]; simpl;
    try discriminate; try reflexivity.
  destruct (Nat.ltb_spec (nat_of_ascii x) (nat_of_ascii y)),
    (Nat.ltb_spec (nat_of_ascii y) (nat_of_ascii x)),
    (Nat.ltb_spec (nat_of_ascii y) (nat_of_ascii z)),
    (Nat.ltb_spec (nat_of_ascii z) (nat_of_ascii y)),
    (Nat.ltb_spec (nat_of_ascii x) (nat_of_ascii z)),
    (Nat.ltb_spec (nat_of_ascii z) (nat_of_ascii x));
    try discriminate; try reflexivity; try lia.
  apply IH.
Qed.

Lemma string_lt_total (a b : cstring) :
  string_lt a b = false -> string_lt b a = false -> a = b.
Proof.
  revert b. induction a as [| x a IH]; intros [| y b]; simpl;
    try discriminate; try reflexivity.
  destruct (Nat.ltb_spec (nat_of_ascii x) (nat_of_ascii y)),
    (Nat.ltb_spec (nat_of_ascii y) (nat_of_ascii x));
    try discriminate; try lia.
  intros Hab Hba. f_equal; [apply nat_of_ascii_inj; lia | now apply IH].
Qed.

Lemma map_keys_push (P : cstring -> Prop) (key : cstring) (r : ZipCodeRecord)
    (m : state_map) :
  P key -> Forall P (map_keys m) -> Forall P (map_keys (map_push_back key r m)).
Proof.
  intros Hkey. induction m as [| [k v] m IH]; simpl; intros Hm.
  - now constructor.
  - apply Forall_cons in Hm as [Hk Hm].
    destruct (string_lt key k); [now repeat constructor |].
    destruct (decide (key = k)); simpl; constructor; auto.
Qed.

Lemma ascending_push (key : cstring) (r : ZipCodeRecord) (m : state_map) :
  ascending (map_keys m) -> ascending (map_keys (map_push_back key r m)).
Proof.
  induction m as [| [k v] m IH]; simpl; [now split |].
  intros [Hk Hm].
  destruct (string_lt key k) eqn:Hlt; simpl.
  - split; [| now split]. constructor; [exact Hlt |].
    eapply Forall_impl; [exact Hk |]. intros k' Hk'. simpl in Hk'.
    now apply (string_lt_trans key k k').
  - destruct (decide (key = k)) as [-> | Hne]; simpl; [now split |].
    split; [| now apply IH].
    apply map_keys_push; [| exact Hk].
    destruct (string_lt k key) eqn:Hgt; [reflexivity |].
    exfalso. apply Hne. now apply string_lt_total.
Qed.

Lemma map_find_below (key : cstring) (m : state_map) :
  Forall (fun k' => string_lt key k' = true) (map_keys m) ->
  map_find key m = None.
Proof.
  induction m as [| [k v] m IH]; simpl; [reflexivity |].
  intros Hm. apply Forall_cons in Hm as [Hk Hm].
  destruct (decide (k = key)) as [-> | _]; [| now apply IH].
  simpl in Hk. now rewrite string_lt_irrefl in Hk.
Qed.

Lemma map_find_push (s key : cstring) (r : ZipCodeRecord) (m : state_map) :
  ascending (map_keys m) ->
  map_find s (map_push_back key r m)
  = if decide (s = key) then Some (default [] (map_find key m) ++ [r])
    else map_find s m.
Proof.
  induction m as [| [k v] m IH]; simpl.
  - intros _. destruct (decide (key = s)), (decide (s = key));
      congruence.
  - intros [Hk Hm].
    destruct (string_lt key k) eqn:Hlt; simpl.
    + destruct (decide (s = key)) as [-> | Hne].
      * rewrite (decide_True (P := key = key)) by reflexivity.
        destruct (decide (k = key)) as [-> | _];
          [now rewrite string_lt_irrefl in Hlt |].
        rewrite map_find_below; [reflexivity |].
        eapply Forall_impl; [exact Hk |]. intros k' Hk'. simpl in Hk'.
        now apply (string_lt_trans key k k').
      * rewrite (decide_False (P := key = s)) by congruence. reflexivity.
    + destruct (decide (key = k)) as [-> | Hne]; simpl.
      * destruct (decide (k = s)) as [<- | Hks].
        -- rewrite !(decide_True (P := k = k)) by reflexivity. reflexivity.
        -- rewrite (decide_False (P := s = k)) by congruence. reflexivity.
      * destruct (decide (k = s)) as [<- | Hks].
        -- rewrite (decide_False (P := k = key)) by congruence. reflexivity.
        -- rewrite (decide_False (P := k = key)) by congruence.
           now apply IH.
Qed.

Lemma group_by_state_snoc (rs : list ZipCodeRecord) (r : ZipCodeRecord) :
  group_by_state (rs ++ [r]) = map_push_back (state r) r (group_by_state rs).
Proof. unfold group_by_state. now rewrite fold_left_app. Qed.

Lemma ascending_group_by_state (rs : list ZipCodeRecord) :
  ascending (map_keys (group_by_state rs)).
Proof.
  induction rs as [| r rs IH] using rev_ind; [exact I |].
  rewrite group_by_state_snoc. now apply ascending_push.
Qed.

Lemma map_find_group_by_state (rs : list ZipCodeRecord) (s : cstring) :
  map_find s (group_by_state rs)
  = match filter (fun r => state r = s) rs with
    | [] => None
    | g => Some g
    end.
Proof.
  induction rs as [| r rs IH] using rev_ind; [reflexivity |].
  rewrite group_by_state_snoc, map_find_push by apply ascending_group_by_state.
  rewrite filter_app, filter_cons, filter_nil.
  destruct (decide (s = state r)) as [-> | Hne].
  - rewrite IH, decide_True by reflexivity.
    now destruct (filter _ rs).
  - rewrite IH, decide_False by congruence. now rewrite app_nil_r.
Qed.

Lemma map_find_elem (m : state_map) (s : cstring) (v : list ZipCodeRecord) :
  ascending (map_keys m) -> (map_find s m = Some v <-> (s, v) ∈ m).
Proof.
  induction m as [| [k u] m IH]; simpl.
  - intros _. split; [discriminate | intros Hin; inversion Hin].
  - intros [Hk Hm]. rewrite elem_of_cons.
    destruct (decide (k = s)) as [<- | Hne].
    + split; [intros [= <-]; now left |].
      intros [[= ->] | Hin]; [reflexivity |].
      exfalso. rewrite Forall_forall in Hk.
      specialize (Hk k). rewrite string_lt_irrefl in Hk.
      assert (k ∈ map_keys m) as Hkm
        by (apply list_elem_of_fmap; now exists (k, v)).
      specialize (Hk Hkm). discriminate.
    + rewrite (IH Hm). split; [now right |].
      intros [[= ? ?] | Hin]; [congruence | exact Hin].
Qed.

Lemma group_by_state_entries (rs : list ZipCodeRecord) (s : cstring)
    (v : list ZipCodeRecord) :
  (s, v) ∈ group_by_state rs
  <-> v = filter (fun r => state r = s) rs /\ v <> [].
Proof.
  rewrite <- (map_find_elem _ s v (ascending_group_by_state rs)).
  rewrite map_find_group_by_state.
  destruct (filter (fun r => state r = s) rs) as [| r g].
  - split; [discriminate | intros [-> Hne]; contradiction].
  - split; [intros [= <-]; now split | intros [-> _]; reflexivity].
Qed.

(** X16.  The map of step 2.  The states are its keys, each once and in
    the order of [std::string]; the vector of a state holds the records of
    that state, all of them, in the order of the buffer; no vector is
    empty. *)
Theorem group_by_state_spec (rs : list ZipCodeRecord) :
  ascending (map_keys (group_by_state rs))
  /\ forall s v,
       (s, v) ∈ group_by_state rs
       <-> v = filter (fun r => state r = s) rs /\ v <> [].
Proof.
  split; [apply ascending_group_by_state |].
  intros s v. apply group_by_state_entries.
Qed.

End Grouping.

(** ** The boundaries of a state *)

Section Boundaries.
Context `{D : StdDouble} {O : StdDoubleOrder D} {OL : StdDoubleOrderLaws D O}.

(** The running choice of a loop that replaces its record by each record
    that [rel] puts before it. *)
Lemma fold_pick {A : Type} (rel : A -> A -> bool) (l seen : list A) (e0 : A) :
  (forall x, rel x x = false) ->
  (forall x y z, rel x y = true -> rel y z = true -> rel x z = true) ->
  e0 ∈ seen -> (forall r, r ∈ seen -> rel r e0 = false) ->
  fold_left (fun e x => if rel x e then x else e) l e0 ∈ seen ++ l
  /\ forall r, r ∈ seen ++ l ->
       rel r (fold_left (fun e x => if rel x e then x else e) l e0) = false.
Proof.
  intros Hirr Htrans. revert seen e0.
  induction l as [| x l IH]; intros seen e0 Hin Hmin; simpl.
  - rewrite app_nil_r. now split.
  - replace (seen ++ x :: l) with ((seen ++ [x]) ++ l)
      by now rewrite <- app_assoc.
    apply IH.
    + destruct (rel x e0); rewrite elem_of_app, list_elem_of_singleton; auto.
    + intros r Hr. apply elem_of_app in Hr as [Hr | Hr].
      * destruct (rel x e0) eqn:Hx; [| now apply Hmin].
        destruct (rel r x) eqn:Hrx; [| reflexivity].
        rewrite <- (Hmin r Hr). symmetry. now apply (Htrans r x e0).
      * apply list_elem_of_singleton in Hr as ->.
        destruct (rel x e0) eqn:Hx; [apply Hirr | exact Hx].
Qed.

Lemma fold_boundary_step (rs : list ZipCodeRecord) (b : boundaries) :
  fold_left boundary_step rs b
  = mkBoundaries
      (fold_left (fun e x => if double_lt (longitude x) (longitude e)
                             then x else e) rs (easternmost b))
      (fold_left (fun e x => if double_lt (longitude e) (longitude x)
                             then x else e) rs (westernmost b))
      (fold_left (fun e x => if double_lt (latitude e) (latitude x)
                             then x else e) rs (northernmost b))
      (fold_left (fun e x => if double_lt (latitude x) (latitude e)
                             then x else e) rs (southernmost b)).
Proof.
  revert b. induction rs as [| r rs IH]; intros b; simpl; [now destruct b |].
  now rewrite IH.
Qed.

Lemma state_boundaries_nonempty (rs : list ZipCodeRecord) :
  rs <> [] -> exists b, state_boundaries rs = Some b.
Proof. destruct rs; [contradiction | intros _; eexists; reflexivity]. Qed.

Lemma state_boundaries_of (rs : list ZipCodeRecord) (b : boundaries) :
  state_boundaries rs = Some b -> boundaries_of rs b.
Proof.
  destruct rs as [| first rs]; [discriminate |].
  unfold state_boundaries. rewrite fold_boundary_step. intros [= <-].
  cbn [easternmost westernmost northernmost southernmost].
  assert (Hseen : first ∈ [first]) by set_solver.
  assert (Hfirst : forall r : ZipCodeRecord, r ∈ [first] -> r = first)
    by (intros r Hr; now apply list_elem_of_singleton in Hr).
  destruct (fold_pick
              (fun x e => double_lt (longitude x) (longitude e))
              (first :: rs) [first] first) as [He1 He2];
    [intros; apply double_lt_irrefl
    | intros x y z; apply double_lt_trans
    | exact Hseen
    | intros r Hr; rewrite (Hfirst r Hr); apply double_lt_irrefl |].
  destruct (fold_pick
              (fun x e => double_lt (longitude e) (longitude x))
              (first :: rs) [first] first) as [Hw1 Hw2];
    [intros; apply double_lt_irrefl
    | intros x y z Hxy Hyz; exact (double_lt_trans _ _ _ Hyz Hxy)
    | exact Hseen
    | intros r Hr; rewrite (Hfirst r Hr); apply double_lt_irrefl |].
  destruct (fold_pick
              (fun x e => double_lt (latitude e) (latitude x))
              (first :: rs) [first] first) as [Hn1 Hn2];
    [intros; apply double_lt_irrefl
    | intros x y z Hxy Hyz; exact (double_lt_trans _ _ _ Hyz Hxy)
    | exact Hseen
    | intros r Hr; rewrite (Hfirst r Hr); apply double_lt_irrefl |].
  destruct (fold_pick
              (fun x e => double_lt (latitude x) (latitude e))
              (first :: rs) [first] first) as [Hs1 Hs2];
    [intros; apply double_lt_irrefl
    | intros x y z; apply double_lt_trans
    | exact Hseen
    | intros r Hr; rewrite (Hfirst r Hr); apply double_lt_irrefl |].
  assert (Hsub : forall r : ZipCodeRecord,
            r ∈ [first] ++ first :: rs <-> r ∈ first :: rs).
  { intros r. simpl. rewrite !elem_of_cons. tauto. }
  split.
  - rewrite <- !Hsub. auto.
  - intros r Hr. apply Hsub in Hr. auto.
Qed.

Lemma boundaries_of_perm (l l' : list ZipCodeRecord) (b : boundaries) :
  l ≡ₚ l' -> boundaries_of l b -> boundaries_of l' b.
Proof.
  intros Hperm [(He & Hw & Hn & Hs) Hall]. split.
  - now rewrite <- !Hperm.
  - intros r Hr. apply Hall. now rewrite Hperm.
Qed.

Lemma boundaries_lines_text (m : state_map) :
  Forall (fun entry => entry.2 <> []) m ->
  exists bs,
    Forall2 (fun entry b => state_boundaries entry.2 = Some b) m bs
    /\ forall out,
         boundaries_lines m out
         = Some (out ++ concat (zip_with boundaries_line (map_keys m) bs)).
Proof.
  induction m as [| [s v] m IH]; intros Hm.
  - exists []. split; [constructor |]. intros out. simpl.
    now rewrite app_nil_r.
  - apply Forall_cons in Hm as [Hv Hm]. destruct (IH Hm) as (bs & Hbs & Hout).
    destruct (state_boundaries_nonempty v Hv) as [b Hb].
    exists (b :: bs). split; [now constructor |].
    intros out. simpl. rewrite Hb, Hout. now rewrite <- app_assoc.
Qed.

(** X17.  The report of the boundaries.  For a map without an empty
    vector, [printStateBoundaries] returns, and
    [writeStateBoundariesToFile] writes the two header lines and one line
    per entry, in the order of the map, or nothing when the file cannot be
    opened.  The four records of a line are records of its entry: the one
    called easternmost has a longitude that no record of the entry is below,
    the one called westernmost a longitude that none is above, and
    likewise the northernmost and the southernmost for the latitude. *)
Theorem boundaries_report (m : state_map) (filename : string) (w : world) :
  Forall (fun entry => entry.2 <> []) m ->
  exists bs,
    Forall2 (fun entry b => boundaries_of entry.2 b) m bs
    /\ printStateBoundaries m w = Returned tt w
    /\ writeStateBoundariesToFile m filename w
       = if decide (filename ∈ unwritable w) then Returned tt w
         else Returned tt
                (write_file filename
                   (boundaries_header
                    ++ concat (zip_with boundaries_line (map_keys m) bs)) w).
Proof.
  intros Hm. destruct (boundaries_lines_text m Hm) as (bs & Hbs & Hout).
  exists bs. split; [| split].
  - eapply Forall2_impl; [exact Hbs |].
    intros entry b. apply state_boundaries_of.
  - unfold printStateBoundaries. now rewrite Hout.
  - unfold writeStateBoundariesToFile. now rewrite Hout.
Qed.

End Boundaries.

(** ** [main]: the report of the buffer, and a build followed by a lookup *)

Section MainProgram.
Context `{D : StdDouble} {L : StdDoubleLaws D}.
Context {O : StdDoubleOrder D} {OL : StdDoubleOrderLaws D O}.
Context {S : StdSort D} {SL : StdSortLaws D S}.

Lemma strict_weak_on_subset {A : Type} (comp : A -> A -> bool)
    (l l' : list A) :
  (forall x, x ∈ l' -> x ∈ l) ->
  strict_weak_on comp l = true -> strict_weak_on comp l' = true.
Proof.
  unfold strict_weak_on. rewrite !andb_true_iff, !forallb_forall.
  intros Hsub [Hirr Hall].
  assert (Hin : forall x, In x l' -> In x l).
  { intros x Hx. apply list_elem_of_In, Hsub, list_elem_of_In, Hx. }
  split; [intros x Hx; apply Hirr, Hin, Hx |].
  intros x Hx. specialize (Hall x (Hin x Hx)).
  rewrite forallb_forall in Hall |- *.
  intros y Hy. specialize (Hall y (Hin y Hy)).
  rewrite forallb_forall in Hall |- *.
  intros z Hz. exact (Hall z (Hin z Hz)).
Qed.

Lemma Forall2_with_Forall {A B : Type} (P : A -> Prop) (R : A -> B -> Prop)
    (l : list A) (k : list B) :
  Forall P l -> Forall2 R l k -> Forall2 (fun x y => P x /\ R x y) l k.
Proof.
  intros HP HR. induction HR as [| x y l k Hxy HR IH]; [constructor |].
  apply Forall_cons in HP as [Hx HP]. constructor; auto.
Qed.

(** The map that [main] gives to the two reports. *)
Lemma sort_by_latitude_grouped (rs : list ZipCodeRecord) :
  strict_weak_on by_latitude rs = true ->
  exists m,
    sort_by_latitude (group_by_state rs) = Some m
    /\ map_keys m = map_keys (group_by_state rs)
    /\ Forall (fun entry =>
                 entry.2 ≡ₚ filter (fun r => state r = entry.1) rs
                 /\ entry.2 <> []) m.
Proof.
  intros Hweak.
  assert (Hgroup : Forall (fun entry =>
                     entry.2 = filter (fun r => state r = entry.1) rs
                     /\ entry.2 <> []) (group_by_state rs)).
  { apply Forall_forall. intros [s v] Hin. simpl.
    now apply group_by_state_entries. }
  assert (Hgw : Forall (fun entry => strict_weak_on by_latitude entry.2 = true)
                  (group_by_state rs)).
  { eapply Forall_impl; [exact Hgroup |]. intros [s v] [-> _]. simpl.
    apply (strict_weak_on_subset _ rs); [| exact Hweak].
    intros x Hx. now apply list_elem_of_filter in Hx as [_ Hx]. }
  unfold sort_by_latitude.
  replace (forallb _ (group_by_state rs)) with true.
  2:{ symmetry. apply forallb_forall. intros entry Hin.
      rewrite Forall_forall in Hgw. apply Hgw, list_elem_of_In, Hin. }
  eexists. split; [reflexivity |]. split.
  - unfold map_keys. rewrite map_map. reflexivity.
  - apply Forall_fmap.
    rewrite Forall_forall in Hgroup, Hgw |- *.
    intros [s v] Hin. specialize (Hgroup _ Hin) as [Hv Hne].
    specialize (Hgw _ Hin). simpl in *.
    pose proof (std_sort_permutation by_latitude v Hgw) as Hperm.
    split; [now rewrite Hperm, <- Hv |].
    intros Hnil. rewrite Hnil in Hperm. symmetry in Hperm.
    now apply Permutation_nil_r in Hperm.
Qed.

(** X18.  The report of [main].  When the latitudes of the buffer meet
    the requirement of [std::sort], the map given to the two reports has the
    states of the buffer as its keys, each once and in ascending order, and
    the reports never come to the first record of an empty vector.  The four
    records of the line of a state are chosen among all the records of that
    state in the buffer, with the extreme coordinates among them. *)
Theorem report_of_buffer (rs : list ZipCodeRecord) (filename : string)
    (w : world) :
  strict_weak_on by_latitude rs = true ->
  exists m bs,
    sort_by_latitude (group_by_state rs) = Some m
    /\ map_keys m = map_keys (group_by_state rs)
    /\ Forall2 (fun entry b =>
                  boundaries_of (filter (fun r => state r = entry.1) rs) b)
         m bs
    /\ printStateBoundaries m w = Returned tt w
    /\ writeStateBoundariesToFile m filename w
       = if decide (filename ∈ unwritable w) then Returned tt w
         else Returned tt
                (write_file filename
                   (boundaries_header
                    ++ concat (zip_with boundaries_line (map_keys m) bs)) w).
Proof.
  intros Hweak.
  destruct (sort_by_latitude_grouped rs Hweak) as (m & Hsort & Hkeys & Hm).
  assert (Hne : Forall (fun entry => entry.2 <> []) m)
    by (eapply Forall_impl; [exact Hm |]; now intros entry [_ Hne]).
  destruct (boundaries_lines_text m Hne) as (bs & Hbs & Hout).
  exists m, bs. split; [exact Hsort |]. split; [exact Hkeys |].
  split; [| split].
  - eapply Forall2_impl; [exact (Forall2_with_Forall _ _ _ _ Hm Hbs) |].
    intros entry b [[Hperm _] Hb]. simpl in *.
    apply (boundaries_of_perm entry.2); [exact Hperm |].
    now apply state_boundaries_of.
  - unfold printStateBoundaries. now rewrite Hout.
  - unfold writeStateBoundariesToFile. now rewrite Hout.
Qed.

Lemma ends_in_and_then {A B : Type} (P Q : world -> Prop) (o : outcome A)
    (k : A -> world -> outcome B) :
  ends_in P o -> (forall w', P w' -> Q w') ->
  (forall a w', P w' -> ends_in Q (k a w')) ->
  ends_in Q (and_then o k).
Proof. intros HP HPQ Hk. destruct o; simpl in *; auto. Qed.

Lemma changes_only_step (names : list string) (name : string)
    (content : cstring) (w w' : world) :
  name ∈ names -> changes_only names w w' ->
  changes_only names w (write_file name content w').
Proof.
  intros Hname [Hu Hf]. split; [exact Hu |].
  intros other Hother. simpl. rewrite lookup_insert_ne; [now apply Hf |].
  intros ->. contradiction.
Qed.

Lemma displayHeaderInfo_frame (name : string) (w : world) :
  ends_in (fun w' => w' = w) (displayHeaderInfo name w).
Proof.
  unfold displayHeaderInfo. destruct (files w !! name) as [content |];
    [| reflexivity].
  now destruct (read_header (stream_of content)) as [s [recordCount |]].
Qed.

Lemma searchAndDisplayZipCode_returns (key : cstring) (w : world) :
  searchAndDisplayZipCode key w = Returned tt w.
Proof.
  unfold searchAndDisplayZipCode.
  now destruct (searchPrimaryKey_returns indexFile_name key w) as [offset ->].
Qed.

Lemma main_frame (argv : list cstring) (w : world) :
  ends_in (changes_only [boundaries_file_name; dataFile_name; indexFile_name] w)
    (main argv w).
Proof.
  set (names := [boundaries_file_name; dataFile_name; indexFile_name]).
  assert (Hstart : forall rs, changes_only names w (mkWorld rs (files w)
                                                      (unwritable w)))
    by (intros rs; now split).
  unfold main.
  apply (ends_in_and_then (fun w' => w' = emptied w));
    [apply displayHeaderInfo_frame | intros w' ->; apply Hstart |].
  intros _ w0 ->.
  destruct (lookup_requested argv).
  { apply (ends_in_and_then (fun w' => w' = emptied w));
      [apply searchZipCode_frame | intros w' ->; apply Hstart |].
    intros _ w' ->. apply Hstart. }
  apply (ends_in_and_then (changes_only names w)); [| auto |].
  { eapply ends_in_impl; [| apply loadFromCSV_frame].
    intros w' [Hf Hu]. split; [exact Hu |]. intros other _. now rewrite Hf. }
  intros loaded w1 Hw1. destruct loaded; [| exact Hw1].
  destruct (sort_by_latitude _) as [stateRecords |]; [| exact I].
  apply (ends_in_and_then (changes_only names w)); [| auto |].
  { destruct (1 <? length argv)%nat; [| exact Hw1].
    now rewrite searchAndDisplayZipCode_returns. }
  intros _ w2 Hw2.
  apply (ends_in_and_then (changes_only names w)); [| auto |].
  { unfold printStateBoundaries.
    now destruct (boundaries_lines stateRecords boundaries_header). }
  intros _ w3 Hw3.
  apply (ends_in_and_then (changes_only names w)); [| auto |].
  { unfold writeStateBoundariesToFile.
    destruct (decide (boundaries_file_name ∈ unwritable w3)); [exact Hw3 |].
    destruct (boundaries_lines stateRecords boundaries_header); [| exact I].
    apply changes_only_step; [| exact Hw3]. subst names. set_solver. }
  intros _ w4 Hw4.
  apply (ends_in_and_then (changes_only names w)); [| auto |].
  { unfold convertToLengthIndicatedFile.
    destruct (decide (dataFile_name ∈ unwritable w4)); [exact Hw4 |].
    apply changes_only_step; [| exact Hw4]. subst names. set_solver. }
  intros _ w5 Hw5.
  apply (ends_in_and_then (changes_only names w));
    [| auto | now intros _ w6 Hw6].
  unfold createPrimaryKeyIndex.
  destruct (files w5 !! dataFile_name) as [content |]; [| exact Hw5].
  destruct (decide (indexFile_name ∈ unwritable w5)); [exact Hw5 |].
  destruct (read_header _) as [s [recordCount |]]; [| exact I].
  destruct (index_frames _ _ _) as [lines |]; [| exact I].
  apply changes_only_step; [| exact Hw5]. subst names. set_solver.
Qed.

(** X19.  What [main] leaves behind.  However it ends, [main] changes no
    file but its three outputs: the report of the boundaries, the store and
    the index; the CSV input is never written.  A run that is asked for a
    lookup, or that finds no CSV input, writes no file at all and ends with
    an empty buffer. *)
Theorem main_writes_only_outputs (argv : list cstring) (w : world) :
  ends_in (changes_only [boundaries_file_name; dataFile_name; indexFile_name] w)
    (main argv w)
  /\ (lookup_requested argv = true \/ files w !! csv_name = None ->
      ends_in (fun w' => w' = emptied w) (main argv w)).
Proof.
  split; [apply main_frame |].
  intros Hcase. unfold main.
  apply (ends_in_and_then (fun w' => w' = emptied w));
    [apply displayHeaderInfo_frame | auto |].
  intros _ w0 ->.
  destruct (lookup_requested argv) eqn:Hlookup.
  - apply (ends_in_and_then (fun w' => w' = emptied w));
      [apply searchZipCode_frame | auto | now intros _ w' ->].
  - destruct Hcase as [Habs | Hmissing]; [discriminate |].
    unfold loadFromCSV. simpl files. rewrite Hmissing. reflexivity.
Qed.

Lemma displayHeaderInfo_store (w : world) (name : string) (ver hlen : Z)
    (tag : cstring) (payloads : list cstring) :
  well_formed_store tag payloads ->
  files w !! name = Some (store_image tag ver hlen payloads) ->
  displayHeaderInfo name w = Returned tt w.
Proof.
  intros (Htag & Hcount & _) Hfile. unfold displayHeaderInfo.
  rewrite Hfile. unfold store_image.
  rewrite read_header_image; [reflexivity | exact Htag | lia].
Qed.

(** X20.  A build, then a lookup.  Take a run of [main] that is not asked
    for a lookup, whose header display returns, and whose load of the CSV
    input returns true with the buffer [w1]; let the store and the index be
    writable, the latitudes meet the requirement of [std::sort], and the
    records be storable and fit the fields of the store.  The run returns
    0.  A later run asked for the key, whatever the key, returns 0 as well,
    after the lookup driver has printed the first record of [w1] with that
    zip code, or has reported the key as not found when [w1] has none. *)
Theorem build_run_then_lookup_run (argv : list cstring) (w w1 : world) :
  lookup_requested argv = false ->
  displayHeaderInfo dataFile_name (emptied w) = Returned tt (emptied w) ->
  loadFromCSV csv_name (emptied w) = Returned true w1 ->
  strict_weak_on by_latitude (records w1) = true ->
  dataFile_name ∉ unwritable w -> indexFile_name ∉ unwritable w ->
  Z.of_nat (length (records w1)) < 2 ^ 32 ->
  Forall (fun r => Z.of_nat (length (encode r)) < 2 ^ 32) (records w1) ->
  Forall storable (records w1) ->
  Z.of_nat (length (store_image fileType version headerSize
                      (map encode (records w1)))) <= streamoff_max ->
  exists w2,
    main argv w = Returned 0 w2
    /\ records w2 = records w1
    /\ forall prog key more,
         main (prog :: ("-"%char :: "z"%char :: key) :: more) w2
         = Returned 0 (emptied w2)
         /\ searchZipCode key (emptied w2)
            = Returned
                match getRecordByZip key w1 with
                | Some (_, r) => printRecord r
                | None => not_found key
                end (emptied w2).
Proof.
  intros Hbuild Hheader Hload Hweak Hdata Hidx Hcount Hlen Hstorable Hsize.
  pose proof (loadFromCSV_frame csv_name (emptied w)) as Hframe.
  rewrite Hload in Hframe. simpl in Hframe. destruct Hframe as [Hf1 Hu1].
  destruct (sort_by_latitude_grouped (records w1) Hweak)
    as (m & Hsort & _ & Hm).
  assert (Hne : Forall (fun entry => entry.2 <> []) m)
    by (eapply Forall_impl; [exact Hm |]; now intros entry [_ Hne]).
  destruct (boundaries_lines_text m Hne) as (bs & _ & Hout).
  set (text := boundaries_header
               ++ concat (zip_with boundaries_line (map_keys m) bs)).
  set (w1' := if decide (boundaries_file_name ∈ unwritable w1) then w1
              else write_file boundaries_file_name text w1).
  assert (Hrec : records w1' = records w1)
    by (subst w1'; now destruct (decide _)).
  assert (Hunw : unwritable w1' = unwritable w1)
    by (subst w1'; now destruct (decide _)).
  set (store := store_image fileType version headerSize
                  (map encode (records w1))).
  set (index := index_text (index_entries fileType (map encode (records w1)))).
  set (w2 := write_file indexFile_name index
               (write_file dataFile_name store w1')).
  assert (Hwf : well_formed_store fileType (map encode (records w1)))
    by now apply well_formed_encoded.
  assert (Hfd : files (emptied w2) !! dataFile_name = Some store).
  { simpl. rewrite lookup_insert_ne by discriminate. apply lookup_insert_eq. }
  assert (Hfi : files (emptied w2) !! indexFile_name = Some index)
    by (simpl; apply lookup_insert_eq).
  exists w2. split; [| split; [exact Hrec |]].
  - unfold main. rewrite Hheader. cbn [and_then]. rewrite Hbuild, Hload.
    cbn [and_then]. unfold getAllRecords. rewrite Hsort.
    replace (if (1 <? length argv)%nat
             then searchAndDisplayZipCode (nth 1 argv []) w1
             else Returned tt w1) with (Returned (D := D) tt w1)
      by (destruct (1 <? length argv)%nat;
          [now rewrite searchAndDisplayZipCode_returns | reflexivity]).
    cbn [and_then]. unfold printStateBoundaries. rewrite Hout.
    cbn [and_then].
    replace (writeStateBoundariesToFile m boundaries_file_name w1)
      with (Returned (D := D) tt w1')
      by (unfold writeStateBoundariesToFile; rewrite Hout; subst w1';
          now destruct (decide _)).
    cbn [and_then].
    rewrite (convertToLengthIndicatedFile_image csv_name dataFile_name w1');
      [| rewrite Hunw, Hu1; exact Hdata | now rewrite Hrec
       | now rewrite Hrec].
    cbn [and_then]. rewrite Hrec.
    rewrite (createPrimaryKeyIndex_image dataFile_name indexFile_name _
               fileType version headerSize (map encode (records w1)));
      [reflexivity | exact Hwf | simpl; apply lookup_insert_eq
      | simpl; rewrite Hunw, Hu1; exact Hidx | discriminate].
  - intros prog key more.
    pose proof (searchZipCode_stored w1 (emptied w2) key Hcount Hlen
                  Hstorable Hsize Hfd Hfi) as Hlookup.
    assert (Hsearch :
              searchZipCode key (emptied w2)
              = Returned
                  match getRecordByZip key w1 with
                  | Some (_, r) => printRecord r
                  | None => not_found key
                  end (emptied w2))
      by now destruct (getRecordByZip key w1) as [[i r] |].
    split; [| exact Hsearch].
    unfold main.
    rewrite (displayHeaderInfo_store (emptied w2) dataFile_name version
               headerSize fileType (map encode (records w1)) Hwf Hfd).
    cbn [and_then].
    change (lookup_requested (prog :: ("-"%char :: "z"%char :: key) :: more))
      with true.
    change (drop 2 (nth 1 (prog :: ("-"%char :: "z"%char :: key) :: more) []))
      with key.
    cbv iota. rewrite Hsearch. reflexivity.
Qed.

End MainProgram.

(** ** A lookup when the store is gone *)

Section LookupErrors.
Context `{D : StdDouble} {O : StdDoubleOrder D} {S : StdSort D}.



End LookupErrors.

(** ** The order and the sort of binary64 *)

Lemma SFltb_irrefl (x : spec_float) : SFltb x x = false.
Proof.
  unfold SFltb, SFcompare.
  destruct x as [s | s | | s m e]; try destruct s; try reflexivity;
    rewrite Z.compare_refl;
    change (PosDef.Pos.compare_cont Eq m m) with (Pos.compare m m);
    now rewrite Pos.compare_refl.
Qed.

Lemma SFltb_trans (x y z : spec_float) :
  SFltb x y = true -> SFltb y z = true -> SFltb x z = true.
Proof.
  unfold SFltb, SFcompare.
  destruct x as [sx | sx | | sx mx ex], y as [sy | sy | | sy my ey],
    z as [sz | sz | | sz mz ez];
    try destruct sx; try destruct sy; try destruct sz;
    try (intros; discriminate); try (intros; reflexivity);
    change (PosDef.Pos.compare_cont Eq) with Pos.compare;
    destruct (Z.compare_spec ex ey), (Z.compare_spec ey ez),
      (Z.compare_spec ex ez);
    try (intros; discriminate); try (intros; reflexivity); try lia;
    destruct (Pos.compare_spec mx my), (Pos.compare_spec my mz),
      (Pos.compare_spec mx mz); cbn;
    try (intros; discriminate); try (intros; reflexivity); lia.
Qed.

Lemma binary64_order_laws : StdDoubleOrderLaws binary64 binary64_order.
Proof. split; [exact SFltb_irrefl | exact SFltb_trans]. Qed.

Lemma insert_sorted_permutation {A : Type} (comp : A -> A -> bool) (x : A)
    (l : list A) :
  insert_sorted comp x l ≡ₚ x :: l.
Proof.
  induction l as [| y l IH]; simpl; [reflexivity |].
  destruct (comp y x); [| reflexivity].
  rewrite IH. apply Permutation_swap.
Qed.

Lemma insertion_sort_permutation {A : Type} (comp : A -> A -> bool)
    (l : list A) :
  insertion_sort comp l ≡ₚ l.
Proof.
  induction l as [| x l IH]; simpl; [reflexivity |].
  now rewrite insert_sorted_permutation, IH.
Qed.

Lemma binary64_sort_laws : StdSortLaws binary64 binary64_sort.
Proof. split. intros comp l _. apply insertion_sort_permutation. Qed.

(** ** Closed instances of the further properties *)

Section FurtherInstances.
#[local] Existing Instance binary64.
#[local] Existing Instance binary64_laws.
#[local] Existing Instance binary64_order.
#[local] Existing Instance binary64_order_laws.
#[local] Existing Instance binary64_sort.
#[local] Existing Instance binary64_sort_laws.

Ltac by_decide := apply (bool_decide_unpack _); vm_cast_no_check I.
Ltac by_compute :=
  match goal with |- _ = ?b => vm_cast_no_check (@eq_refl _ b) end.
Ltac conjuncts := repeat match goal with |- _ /\ _ => split end.
Ltac each := repeat first [apply Forall_nil_2 | apply Forall_cons_2].
Ltac is_storable :=
  unfold storable, index_key; conjuncts;
  first [discriminate | by_compute | by_decide].

(** A seventh token on the line of the NY record. *)
Lemma extra_tokens_ignored_witness :
  decode (lit "00001,A,NY,X,1.0,2.0,junk")
  = decode (lit "00001,A,NY,X,1.0,2.0").
Proof.
  exact (proj1 (extra_tokens_ignored stod (lit "00001") (lit "A") (lit "NY")
                  (lit "X") (lit "1.0") (lit "2.0") (lit "junk")
                  ltac:(by_decide) ltac:(by_decide) ltac:(by_decide)
                  ltac:(by_decide) ltac:(by_decide) ltac:(by_decide))).
Defined.

(** A line of two fields. *)
Lemma short_line_policy_witness :
  decode_csv (lit "00001,A")
  = stod_value (record_of (getline_fields (lit "00001,A"))
                  (double_zero, double_zero))
  /\ decode (lit "00001,A") = stod_invalid_argument.
Proof. apply (short_line_policy (lit "00001,A")). by_decide. Defined.

(** The CA line without its newline is loaded after the NY line. *)
Lemma csv_last_line_without_newline_witness :
  loadFromCSV csv_name unterminated_world
  = load_lines ([lit "00001,A,NY,X,1,2"] ++ [lit "00002,B,CA,Y,3,4"])
      unterminated_world.
Proof.
  refine (proj1 (csv_last_line_without_newline csv_name unterminated_world
                   csv_header (lit "00002,B,CA,Y,3,4")
                   [lit "00001,A,NY,X,1,2"] _ _ _ _ _)).
  - by_decide.
  - by_decide.
  - by_decide.
  - discriminate.
  - by_compute.
Defined.

(** A header alone leaves the buffer as it was. *)
Lemma csv_without_data_lines_witness :
  loadFromCSV csv_name header_only_world = Returned true header_only_world.
Proof.
  apply (csv_without_data_lines csv_name header_only_world csv_header).
  - by_decide.
  - left. by_compute.
Defined.

(** Three frames declared, one present. *)
Lemma truncated_store_unchecked_witness :
  loadFromLengthIndicatedFile dataFile_name truncated_world
  = and_then (load_payloads [lit "00001,A,NY,X,1,2"] truncated_world)
      (fun _ _ => Unspecified)
  /\ (indexFile_name ∉ unwritable truncated_world ->
      indexFile_name <> dataFile_name ->
      createPrimaryKeyIndex dataFile_name indexFile_name truncated_world
      = Unspecified).
Proof.
  apply (truncated_store_unchecked dataFile_name indexFile_name truncated_world
           fileType [] version headerSize 3 [lit "00001,A,NY,X,1,2"]).
  - exact fileType_no_NUL.
  - lia.
  - by_decide.
  - simpl. lia.
  - simpl. lia.
  - by_compute.
Defined.

(** Two bytes missing from the only frame: the longitude is read from the
    two NUL characters that complete it. *)
Lemma truncated_last_payload_witness :
  loadFromLengthIndicatedFile dataFile_name cut_world
  = load_payloads
      ([] ++ [lit "00001,A,NY,X,1"
              ++ replicate (Z.to_nat 16 - length (lit "00001,A,NY,X,1")) NUL])
      cut_world.
Proof.
  apply (truncated_last_payload dataFile_name cut_world fileType
           (lit "00001,A,NY,X,1") version headerSize 16 []).
  - exact fileType_no_NUL.
  - simpl. lia.
  - constructor.
  - simpl. lia.
  - by_compute.
Defined.

(** The offsets of the index of the three records end at the size of the
    store. *)
Lemma index_offsets_layout_witness :
  frame_offset fileType (map encode three_records)
    (length (map encode three_records))
  = Z.of_nat (length (store_image fileType version headerSize
                        (map encode three_records))).
Proof.
  destruct (index_offsets_layout dataFile_name indexFile_name stored_world
              fileType version headerSize (map encode three_records))
    as (lines & _ & _ & _ & _ & Hend).
  - unfold well_formed_store. by_decide.
  - by_compute.
  - by_decide.
  - by_decide.
  - exact Hend.
Defined.


(** The index of the stored example serves the lookup of a key it lacks. *)
Lemma build_index_then_lookup_witness :
  exists w2,
    createPrimaryKeyIndex dataFile_name indexFile_name stored_world
    = Returned true w2
    /\ searchZipCode (lit "99999") w2 = Returned (not_found (lit "99999")) w2.
Proof.
  destruct (build_index_then_lookup stored_world fileType version headerSize
              (map encode three_records))
    as (w2 & Hbuild & Hlookup).
  - unfold well_formed_store. by_decide.
  - by_compute.
  - by_decide.
  - each; unfold index_key; split; first [discriminate | by_decide].
  - by_decide.
  - exists w2. split; [exact Hbuild |].
    apply (proj2 (Hlookup (lit "99999"))).
    intros p Hp.
    repeat (apply elem_of_cons in Hp as [-> | Hp]; [by_decide |]).
    inversion Hp.
Defined.

(** The lookup of [00002] after the store and the index of the example. *)
Lemma store_then_lookup_witness :
  exists w2,
    and_then (convertToLengthIndicatedFile csv_name dataFile_name loaded_world)
      (fun _ w1 => createPrimaryKeyIndex dataFile_name indexFile_name w1)
    = Returned true w2
    /\ searchZipCode (lit "00002") w2 = Returned (printRecord record_ca) w2.
Proof.
  destruct (store_then_lookup loaded_world) as (w2 & Hrun & _ & Hlookup).
  - by_decide.
  - by_decide.
  - by_decide.
  - by_decide.
  - each; is_storable.
  - by_decide.
  - exists w2. split; [exact Hrun |].
    specialize (Hlookup (lit "00002")).
    replace (getRecordByZip (lit "00002") loaded_world)
      with (Some (1%nat, record_ca)) in Hlookup by (symmetry; by_compute).
    exact Hlookup.
Defined.


(** The buffer holds the NY record, of zip code [00001].  The CSV file and
    the store each hold another record with that zip code: the loads append
    them, and the NY record stays the one found. *)
Lemma found_record_survives_loads_witness :
  (exists w1,
     loadFromCSV csv_name accumulating_world = Returned true w1
     /\ records w1
        = [record_ny;
           mkZipCodeRecord (lit "00001") (lit "Other") (lit "CA") (lit "Q")
             (dbl "7") (dbl "8");
           record_ca]
     /\ getRecordByZip (lit "00001") w1 = Some (0%nat, record_ny))
  /\ (exists w2,
        loadFromLengthIndicatedFile dataFile_name accumulating_world
        = Returned true w2
        /\ records w2
           = [record_ny;
              mkZipCodeRecord (lit "00001") (lit "Again") (lit "NY") (lit "R")
                (dbl "9") (dbl "10")]
        /\ getRecordByZip (lit "00001") w2 = Some (0%nat, record_ny)).
Proof.
  assert (Hfound : getRecordByZip (lit "00001") accumulating_world
                   = Some (0%nat, record_ny)) by by_compute.
  pose proof (proj1 (found_record_survives_loads csv_name (lit "00001")
                       accumulating_world 0%nat record_ny Hfound)) as Hcsv.
  pose proof (proj2 (found_record_survives_loads dataFile_name (lit "00001")
                       accumulating_world 0%nat record_ny Hfound)) as Hstore.
  split.
  - exists (mkWorld
              [record_ny;
               mkZipCodeRecord (lit "00001") (lit "Other") (lit "CA") (lit "Q")
                 (dbl "7") (dbl "8");
               record_ca]
              (files accumulating_world) ∅).
    assert (Hload : loadFromCSV csv_name accumulating_world
                    = Returned true
                        (mkWorld
                           [record_ny;
                            mkZipCodeRecord (lit "00001") (lit "Other")
                              (lit "CA") (lit "Q") (dbl "7") (dbl "8");
                            record_ca]
                           (files accumulating_world) ∅)) by by_compute.
    rewrite Hload in Hcsv.
    split; [exact Hload |]. split; [reflexivity | exact Hcsv].
  - exists (mkWorld
              [record_ny;
               mkZipCodeRecord (lit "00001") (lit "Again") (lit "NY") (lit "R")
                 (dbl "9") (dbl "10")]
              (files accumulating_world) ∅).
    assert (Hload : loadFromLengthIndicatedFile dataFile_name
                      accumulating_world
                    = Returned true
                        (mkWorld
                           [record_ny;
                            mkZipCodeRecord (lit "00001") (lit "Again")
                              (lit "NY") (lit "R") (dbl "9") (dbl "10")]
                           (files accumulating_world) ∅)) by by_compute.
    rewrite Hload in Hstore.
    split; [exact Hload |]. split; [reflexivity | exact Hstore].
Defined.

(** The line of NY names records of NY. *)
Lemma boundaries_report_witness :
  exists bs,
    Forall2 (fun entry b => boundaries_of entry.2 b) ny_entry bs
    /\ printStateBoundaries ny_entry empty_world = Returned tt empty_world
    /\ writeStateBoundariesToFile ny_entry boundaries_file_name empty_world
       = if decide (boundaries_file_name ∈ unwritable empty_world)
         then Returned tt empty_world
         else Returned tt
                (write_file boundaries_file_name
                   (boundaries_header
                    ++ concat (zip_with boundaries_line (map_keys ny_entry) bs))
                   empty_world).
Proof.
  apply (boundaries_report ny_entry boundaries_file_name empty_world).
  each. discriminate.
Defined.

(** The report of the three records has a line for CA and a line for NY. *)
Lemma report_of_buffer_witness :
  exists m bs,
    sort_by_latitude (group_by_state three_records) = Some m
    /\ map_keys m = map_keys (group_by_state three_records)
    /\ Forall2 (fun entry b =>
                  boundaries_of
                    (filter (fun r => state r = entry.1) three_records) b)
         m bs
    /\ printStateBoundaries m empty_world = Returned tt empty_world
    /\ writeStateBoundariesToFile m boundaries_file_name empty_world
       = if decide (boundaries_file_name ∈ unwritable empty_world)
         then Returned tt empty_world
         else Returned tt
                (write_file boundaries_file_name
                   (boundaries_header
                    ++ concat (zip_with boundaries_line (map_keys m) bs))
                   empty_world).
Proof.
  apply (report_of_buffer three_records boundaries_file_name empty_world).
  by_compute.
Defined.

(** A lookup run over the stored example leaves the files as they were. *)
Lemma main_writes_only_outputs_witness :
  ends_in (fun w' => w' = emptied stored_world)
    (main [lit "zip"; lit "-z00002"] stored_world).
Proof.
  apply (proj2 (main_writes_only_outputs [lit "zip"; lit "-z00002"]
                  stored_world)).
  left. reflexivity.
Defined.

(** A build from the CSV file of the three records, then the lookups. *)
Lemma build_run_then_lookup_run_witness :
  exists w2,
    main [lit "zip"] build_world = Returned 0 w2
    /\ records w2 = records build_loaded_world
    /\ forall prog key more,
         main (prog :: ("-"%char :: "z"%char :: key) :: more) w2
         = Returned 0 (emptied w2)
         /\ searchZipCode key (emptied w2)
            = Returned
                match getRecordByZip key build_loaded_world with
                | Some (_, r) => printRecord r
                | None => not_found key
                end (emptied w2).
Proof.
  apply (build_run_then_lookup_run [lit "zip"] build_world build_loaded_world).
  - reflexivity.
  - by_compute.
  - by_compute.
  - by_compute.
  - by_decide.
  - by_decide.
  - by_decide.
  - by_decide.
  - each; is_storable.
  - by_decide.
Defined.


End FurtherInstances.
